(** * Memory activation engine of tesumi: a shallow embedding

    Source: [src/tesumi/app/services/gnn_processor.py] and
    [src/tesumi/app/core/config.py].

    Tensors and numpy arrays are lists (a matrix is a list of rows); the
    scalar type is a parameter [F] with the operations the code applies to
    float64/float32 values, and the theorems hold for every such [F]: no
    law of exact arithmetic is assumed of the operations.  [F] is
    instantiated by exact rationals (to run the code on concrete inputs) and
    by the real numbers (for the two properties that are stated over the
    reals).  [np.argsort], whose order of equal values numpy leaves open, is
    an operation of [F] known by its contract only.  Python exceptions are an
    explicit outcome [Raise]; mutation is explicit state passing, and a
    mutation made before an exception is raised stays visible, as in
    Python. *)

From Stdlib Require Import QArith Qabs Reals Lra Lia ZArith.
From stdpp Require Import gmap strings list fin_maps sorting.

Set Warnings "-abstract-large-number".

(** ** A sort of positions by value

    One sort that meets the contract of [np.argsort]: insertion of
    (position, value) pairs, equal values staying in position order.  It is
    the sort of the two instances below, on which the code is run. *)

Section StableSort.
Context {A : Type} (ltb : A -> A -> bool).

Fixpoint insert_sorted (x : nat * A) (l : list (nat * A)) : list (nat * A) :=
  match l with
  | [] => [x]
  | y :: l' => if ltb (snd y) (snd x) then y :: insert_sorted x l' else x :: l
  end.

Definition sort_pairs (l : list (nat * A)) : list (nat * A) :=
  foldr insert_sorted [] l.

Definition stable_argsort (a : list A) : list nat :=
  map fst (sort_pairs (zip (seq 0 (length a)) a)).

(** The order [stable_argsort] sorts by: value first, position among equal
    values. *)
Definition pair_lt (a b : nat * A) : Prop :=
  ltb a.2 b.2 = true \/ (ltb b.2 a.2 = false /\ a.1 < b.1).

(** A strict weak order, as [<] is on rationals and reals, and on floats
    away from NaN. *)
Definition strict_weak_order : Prop :=
  (forall x, ltb x x = false)
  /\ (forall x y z, ltb x y = true -> ltb y z = true -> ltb x z = true)
  /\ (forall x y z, ltb x y = false -> ltb y z = false -> ltb x z = false).

End StableSort.

(** ** Scalars *)

(** The operations of numpy and torch on floats that the code uses.
    [argsort] is [np.argsort(a)] with its default [kind]: the code never asks
    for a stable sort, so which of several positions holding the same value
    comes first is not determined by the code. *)
Class Scalar (F : Type) := {
  fzero : F;
  fone : F;
  fadd : F -> F -> F;
  fmul : F -> F -> F;
  fdiv : F -> F -> F;
  fsqrt : F -> F;
  fltb : F -> F -> bool;
  fsigmoid : F -> F;
  ftanh : F -> F;
  flit : Q -> F;
  argsort : list F -> list nat
}.

(** The order laws the sorting and arg-min arguments rely on: [fltb] is a
    strict weak order (true of [<] on rationals and reals, and of float
    comparison away from NaN). *)
Class ScalarOrder (F : Type) `{Scalar F} : Prop := {
  fltb_irrefl : forall x, fltb x x = false;
  fltb_trans : forall x y z, fltb x y = true -> fltb y z = true -> fltb x z = true;
  fltb_negtrans : forall x y z, fltb x y = false -> fltb y z = false -> fltb x z = false
}.

(** The contract of [np.argsort]: the positions of the array, each once, a
    later one never holding the lower value.  Nothing is said of the order
    of positions holding equal values. *)
Class SortContract (F : Type) `{Scalar F} : Prop := {
  argsort_perm : forall a : list F, argsort a ≡ₚ seq 0 (length a);
  argsort_ascending : forall (a : list F) (p q i j : nat) (vi vj : F),
    p < q -> argsort a !! p = Some i -> argsort a !! q = Some j ->
    a !! i = Some vi -> a !! j = Some vj -> fltb vj vi = false
}.

(** *** Exact rationals *)

Definition Qltb (x y : Q) : bool := negb (Qle_bool y x).

(** Square root on rationals: exact whenever numerator times denominator is a
    perfect square (all concrete evaluations below are at such points),
    truncated to nine decimal digits otherwise. *)
Definition Qsqrt (x : Q) : Q :=
  let s := (10 ^ 9)%Z in
  Qred (Z.sqrt (Qnum x * Zpos (Qden x) * s * s) # (Qden x * Z.to_pos s)).

(** Rational stand-ins for the two squashing functions: exact at 0, where the
    concrete evaluations below use them, and with the same range and
    monotonicity elsewhere. *)
Definition Qsigmoid (x : Q) : Q := Qred ((1 # 2) + x / (2 * (1 + Qabs x))).
Definition Qtanh (x : Q) : Q := Qred (x / (1 + Qabs x)).

#[export] Instance Q_scalar : Scalar Q := {|
  fzero := 0%Q;
  fone := 1%Q;
  fadd := fun x y => Qred (x + y);
  fmul := fun x y => Qred (x * y);
  fdiv := fun x y => Qred (x / y);
  fsqrt := Qsqrt;
  fltb := Qltb;
  fsigmoid := Qsigmoid;
  ftanh := Qtanh;
  flit := fun q => q;
  argsort := stable_argsort Qltb
|}.

(** *** Real numbers *)

Definition Rltb (x y : R) : bool := if Rlt_dec x y then true else false.

Definition Rsigmoid (x : R) : R := (1 / (1 + exp (- x)))%R.

#[export] Instance R_scalar : Scalar R := {|
  fzero := 0%R;
  fone := 1%R;
  fadd := Rplus;
  fmul := Rmult;
  fdiv := Rdiv;
  fsqrt := sqrt;
  fltb := Rltb;
  fsigmoid := Rsigmoid;
  ftanh := tanh;
  flit := Q2R;
  argsort := stable_argsort Rltb
|}.

(** ** Exceptions and state *)

Inductive outcome (A : Type) : Type :=
| Ok (a : A)
| Raise.
Arguments Ok {A} a.
Arguments Raise {A}.

Definition bind_outcome {A B} (o : outcome A) (k : A -> outcome B) : outcome B :=
  match o with
  | Ok a => k a
  | Raise => Raise
  end.

Notation "'do' x <- e ; k" := (bind_outcome e (fun x => k))
  (at level 10, x name, e at level 99, k at level 200, only parsing).

(** ** numpy and Python list primitives *)

Section Numpy.
Context {F : Type} `{Scalar F}.

(** [a[:k]] for a Python int [k]: a negative [k] counts from the end. *)
Definition slice_to {A} (k : Z) (l : list A) : list A :=
  if (0 <=? k)%Z then take (Z.to_nat k) l
  else take (length l - Z.to_nat (- k)) l.

(** [np.zeros(k)] and [np.zeros((k, d))]: negative dimensions raise. *)
Definition np_zeros (k : Z) : outcome (list F) :=
  if (0 <=? k)%Z then Ok (replicate (Z.to_nat k) fzero) else Raise.

Definition np_zeros2 (k : Z) (d : nat) : outcome (list (list F)) :=
  if (0 <=? k)%Z then Ok (replicate (Z.to_nat k) (replicate d fzero)) else Raise.

Definition sum_products (a b : list F) : F :=
  foldr fadd fzero (zip_with fmul a b).

(** [np.dot] of two 1-D arrays: the lengths must agree. *)
Definition dot1 (a b : list F) : outcome F :=
  if decide (length a = length b) then Ok (sum_products a b) else Raise.

(** [np.dot(m, q)] for a 2-D [m] and a 1-D [q]: the row width must equal
    [len(q)]; an array with no row still has its width [w]. *)
Fixpoint dot_rows (m : list (list F)) (q : list F) : outcome (list F) :=
  match m with
  | [] => Ok []
  | r :: m' => do x <- dot1 r q; do xs <- dot_rows m' q; Ok (x :: xs)
  end.

Definition np_dot (w : nat) (m : list (list F)) (q : list F) : outcome (list F) :=
  if decide (w = length q) then dot_rows m q else Raise.

(** [np.linalg.norm(v)] and [np.linalg.norm(m, axis=1)]. *)
Definition norm (v : list F) : F := fsqrt (sum_products v v).

Definition eps : F := flit (1 # 100000000).

(** The three lines
    [s = np.dot(m, q); s = s / (norm(m, axis=1) + 1e-8); s = s / (norm(q) + 1e-8)]
    on one row. *)
Definition cos_sim (r q : list F) : F :=
  fdiv (fdiv (sum_products r q) (fadd (norm r) eps)) (fadd (norm q) eps).

Definition similarities_of (w : nat) (m : list (list F)) (q : list F) : outcome (list F) :=
  do s <- np_dot w m q;
  let s1 := zip_with (fun x r => fdiv x (fadd (norm r) eps)) s m in
  Ok (map (fun x => fdiv x (fadd (norm q) eps)) s1).

(** [np.argmin(a)]: the first position of the least value; raises on an empty
    array. *)
Fixpoint argmin_from (i best : nat) (bv : F) (l : list F) : nat :=
  match l with
  | [] => best
  | x :: l' => if fltb x bv then argmin_from (S i) i x l' else argmin_from (S i) best bv l'
  end.

Definition argmin (a : list F) : outcome nat :=
  match a with
  | [] => Raise
  | x :: l => Ok (argmin_from 1 0 x l)
  end.

(** [a[idx]] for a list of positions [idx] (numpy fancy indexing); the
    positions used here are always in range. *)
Definition gather {A} (a : list A) (idx : list nat) : list A :=
  omap (fun i => a !! i) idx.

(** [np.where(cond)[0]]: positions satisfying [p], ascending. *)
Fixpoint where_from (i : nat) (p : F -> bool) (a : list F) : list nat :=
  match a with
  | [] => []
  | x :: a' => if p x then i :: where_from (S i) p a' else where_from (S i) p a'
  end.

Definition where_ (p : F -> bool) (a : list F) : list nat := where_from 0 p a.

End Numpy.

(** A computation over a mutable object [S] that may raise: the state reached
    when the exception is raised is kept. *)
Definition M (S A : Type) : Type := S -> outcome A * S.

Definition ret {S A} (a : A) : M S A := fun s => (Ok a, s).
Definition raise_ {S A} : M S A := fun s => (Raise, s).
Definition lift {S A} (o : outcome A) : M S A := fun s => (o, s).
Definition get_ {S} : M S S := fun s => (Ok s, s).
Definition modify_ {S} (f : S -> S) : M S unit := fun s => (Ok tt, f s).

Definition bindM {S A B} (m : M S A) (k : A -> M S B) : M S B :=
  fun s => match m s with
           | (Ok a, s') => k a s'
           | (Raise, s') => (Raise, s')
           end.

Notation "'run' x <- e ; k" := (bindM e (fun x => k))
  (at level 10, x name, e at level 99, k at level 200, only parsing).
Notation "'run_' e ; k" := (bindM e (fun _ => k))
  (at level 10, e at level 99, k at level 200, only parsing).

(** ** Settings ([app/core/config.py]) *)

Record Settings := {
  VECTOR_DIMENSION : nat;
  MAX_MEMORY_NODES : nat;
  MEMORY_DECAY_FACTOR : Q;
  GNN_HIDDEN_DIM : nat;
  GNN_NUM_LAYERS : nat
}.

Definition settings : Settings := {|
  VECTOR_DIMENSION := 384;
  MAX_MEMORY_NODES := 10000;
  MEMORY_DECAY_FACTOR := 95 # 100;
  GNN_HIDDEN_DIM := 128;
  GNN_NUM_LAYERS := 3
|}.

(** ** ExternalMemory *)

Section ExternalMemory.
Context {F : Type} `{Scalar F}.

Record ExternalMemory := {
  memory_size : nat;
  key_dim : nat;
  keys : list (list F);
  values : list (list F);
  usage : list F;
  current_size : nat
}.

(** [ExternalMemory.__init__] *)
Definition ExternalMemory_init (memory_size key_dim : nat) : ExternalMemory := {|
  memory_size := memory_size;
  key_dim := key_dim;
  keys := replicate memory_size (replicate key_dim fzero);
  values := replicate memory_size (replicate key_dim fzero);
  usage := replicate memory_size fzero;
  current_size := 0
|}.

Definition set_current_size (n : nat) (s : ExternalMemory) : ExternalMemory :=
  {| memory_size := memory_size s; key_dim := key_dim s; keys := keys s;
     values := values s; usage := usage s; current_size := n |}.
Definition set_keys (k : list (list F)) (s : ExternalMemory) : ExternalMemory :=
  {| memory_size := memory_size s; key_dim := key_dim s; keys := k;
     values := values s; usage := usage s; current_size := current_size s |}.
Definition set_values (v : list (list F)) (s : ExternalMemory) : ExternalMemory :=
  {| memory_size := memory_size s; key_dim := key_dim s; keys := keys s;
     values := v; usage := usage s; current_size := current_size s |}.
Definition set_usage (u : list F) (s : ExternalMemory) : ExternalMemory :=
  {| memory_size := memory_size s; key_dim := key_dim s; keys := keys s;
     values := values s; usage := u; current_size := current_size s |}.

(** [m[idx] = r] on a 2-D array of row width [w]: numpy accepts a row of
    width [w], broadcasts a row of width 1, and raises on any other. *)
Definition assign_row (w : nat) (m : list (list F)) (idx : nat) (r : list F)
  : outcome (list (list F)) :=
  if decide (length r = w) then Ok (<[idx := r]> m)
  else match r with
       | [x] => Ok (<[idx := replicate w x]> m)
       | _ => Raise
       end.

(** [ExternalMemory.write] *)
Definition write (key value : list F) : M ExternalMemory nat :=
  run idx <- (fun s =>
      if current_size s <? memory_size s
      then (Ok (current_size s), set_current_size (current_size s + 1) s)
      else (argmin (usage s), s));
  run_ (fun s => match assign_row (key_dim s) (keys s) idx key with
                 | Ok k => (Ok tt, set_keys k s)
                 | Raise => (Raise, s)
                 end);
  run_ (fun s => match assign_row (key_dim s) (values s) idx value with
                 | Ok v => (Ok tt, set_values v s)
                 | Raise => (Raise, s)
                 end);
  run_ modify_ (fun s => set_usage (<[idx := fone]> (usage s)) s);
  ret idx.

(** [self.usage[top_k_indices] += 0.1] *)
Definition bump_usage (idx : list nat) (u : list F) : list F :=
  foldr (fun i u => alter (fun x => fadd x (flit (1 # 10))) i u) u idx.

(** [ExternalMemory.read] *)
Definition read (query : list F) (k : Z) : M ExternalMemory (list (list F) * list F) :=
  fun s =>
  if current_size s =? 0
  then (do v <- np_zeros2 k (key_dim s); do z <- np_zeros k; Ok (v, z), s)
  else
    match similarities_of (key_dim s) (take (current_size s) (keys s)) query with
    | Raise => (Raise, s)
    | Ok similarities =>
        let top_k_indices := slice_to k (reverse (argsort similarities)) in
        (Ok (gather (values s) top_k_indices, gather similarities top_k_indices),
         set_usage (bump_usage top_k_indices (usage s)) s)
    end.

(** [GNNProcessor._apply_memory_decay], on the external memory it mutates. *)
Definition low_usage_threshold : F := flit (1 # 100).

Definition apply_memory_decay (factor : F) (s : ExternalMemory) : ExternalMemory :=
  let decayed := map (fun u => fmul u factor) (usage s) in
  let low_usage_indices := where_ (fun u => fltb u low_usage_threshold) decayed in
  if 0 <? length low_usage_indices
  then
    let reset := take (length low_usage_indices / 2) low_usage_indices in
    set_usage (foldl (fun u idx => <[idx := fzero]> u) decayed reset) s
  else set_usage decayed s.

End ExternalMemory.

Arguments ExternalMemory F : clear implicits.

(** ** GraphSAGEMemory

    The learned maps of the torch modules are parameters ([Weights]); what is
    modelled is how [forward] composes them and the shape discipline of the
    tensors: a module raises on an input of the wrong width, and its result
    has one row per node and the module's output width. *)

Section Model.
Context {F : Type} `{Scalar F}.

Record Weights := {
  sage : nat -> list (list F) -> list (nat * nat) -> list (list F);
  gru : list F -> list F -> list F;
  attention : list F -> list F;
  activation_head : list F -> F;
  emotion_head : list F -> F * F
}.

Definition has_width (w : nat) (x : list (list F)) : bool :=
  forallb (fun r => length r =? w) x.

Definition has_shape (n w : nat) (x : list (list F)) : bool :=
  (length x =? n) && has_width w x.

(** Checked application of a module to an [n]-row input of width [in_dim]. *)
Definition checked (in_dim out_dim : nat) (x y : list (list F)) : outcome (list (list F)) :=
  if has_width in_dim x && has_shape (length x) out_dim y then Ok y else Raise.

(** [SAGEConv(in_dim, out_dim)(x, edge_index)], layer [i] of [self.convs]. *)
Definition SAGEConv (W : Weights) (i in_dim out_dim : nat)
    (x : list (list F)) (edge_index : list (nat * nat)) : outcome (list (list F)) :=
  checked in_dim out_dim x (sage W i x edge_index).

(** [nn.GRUCell(hidden_dim, hidden_dim)] acts on each row of the batch. *)
Definition GRUCell (W : Weights) (hidden_dim : nat)
    (x h : list (list F)) : outcome (list (list F)) :=
  if has_shape (length x) hidden_dim h
  then checked hidden_dim hidden_dim x (zip_with (gru W) x h)
  else Raise.

(** [MemoryGRU.forward] *)
Definition MemoryGRU_forward (W : Weights) (hidden_dim : nat)
    (input_features : list (list F)) (hidden_state : option (list (list F)))
  : outcome (list (list F)) :=
  let hidden_state :=
    match hidden_state with
    | None => replicate (length input_features) (replicate hidden_dim fzero)
    | Some h => h
    end in
  GRUCell W hidden_dim input_features hidden_state.

(** [nn.MultiheadAttention] on an input of shape (1, batch, hidden): the
    sequence has length 1, so each row attends to itself only. *)
Definition memory_attention (W : Weights) (hidden_dim : nat)
    (x : list (list F)) : outcome (list (list F)) :=
  checked hidden_dim hidden_dim x (map (attention W) x).

Definition relu (x : F) : F := if fltb x fzero then fzero else x.

Record GraphSAGEMemory := {
  input_dim : nat;
  hidden_dim : nat;
  num_layers : nat
}.

(** The (input width, output width) pairs of [self.convs], in order. *)
Definition convs (m : GraphSAGEMemory) : list (nat * nat) :=
  (input_dim m + 2, hidden_dim m) :: replicate (num_layers m - 1) (hidden_dim m, hidden_dim m).

Record Data := {
  x : list (list F);
  edge_index : list (nat * nat);
  edge_attr : list F
}.

Record Output := {
  node_embeddings : list (list F);
  activation_scores : list F;
  emotion_predictions : list (F * F);
  memory_states : list (list F)
}.

Definition add_rows (a b : list (list F)) : list (list F) :=
  zip_with (zip_with fadd) a b.

(** The loop over [enumerate(self.convs)] with its residual connection;
    dropout is the identity in eval mode. *)
Fixpoint conv_loop (W : Weights) (i : nat) (cs : list (nat * nat))
    (x : list (list F)) (e : list (nat * nat)) : outcome (list (list F)) :=
  match cs with
  | [] => Ok x
  | (din, dout) :: cs' =>
      do x_new <- SAGEConv W i din dout x e;
      let x_new := map (map relu) x_new in
      let x' := if (0 <? i) && (din =? dout) then add_rows x x_new else x_new in
      conv_loop W (S i) cs' x' e
  end.

(** [GraphSAGEMemory.forward] *)
Definition forward (W : Weights) (m : GraphSAGEMemory) (data : Data)
    (memory_states : option (list (list F))) : outcome Output :=
  do node_embeddings <- conv_loop W 0 (convs m) (x data) (edge_index data);
  do new_memory_states <- MemoryGRU_forward W (hidden_dim m) node_embeddings memory_states;
  do attended_memory <- memory_attention W (hidden_dim m) new_memory_states;
  let combined_features := add_rows node_embeddings attended_memory in
  if has_width (hidden_dim m) combined_features
  then Ok {| node_embeddings := combined_features;
             activation_scores := map (fun r => fsigmoid (activation_head W r)) combined_features;
             emotion_predictions :=
               map (fun r => let '(v, a) := emotion_head W r in (ftanh v, ftanh a)) combined_features;
             memory_states := new_memory_states |}
  else Raise.

End Model.

Arguments Weights F : clear implicits.
Arguments Data F : clear implicits.
Arguments Output F : clear implicits.

(** ** GNNProcessor *)

Section Processor.
Context {F : Type} `{Scalar F}.

(** A memory node dictionary: the keys the processor reads.  [valence] and
    [arousal] are read with [node.get(key, 0.0)], so they may be absent. *)
Record MemoryNode := {
  id : string;
  embedding : list F;
  valence : option F;
  arousal : option F;
  content : string
}.

Record MemoryEdge := {
  source_id : string;
  target_id : string;
  weight : F
}.

(** An entry of the returned list: a copy of the node with the two added
    keys. *)
Record Activated := {
  memory : MemoryNode;
  activation_score : F;
  similarity_score : F
}.

Record GNNProcessor := {
  model : GraphSAGEMemory;
  external_memory : ExternalMemory F;
  node_memory_states : gmap string (list F);
  randn_calls : nat
}.

Definition set_external_memory (e : ExternalMemory F) (p : GNNProcessor) : GNNProcessor :=
  {| model := model p; external_memory := e;
     node_memory_states := node_memory_states p; randn_calls := randn_calls p |}.
Definition set_node_memory_states (n : gmap string (list F)) (p : GNNProcessor) : GNNProcessor :=
  {| model := model p; external_memory := external_memory p;
     node_memory_states := n; randn_calls := randn_calls p |}.
Definition set_randn_calls (c : nat) (p : GNNProcessor) : GNNProcessor :=
  {| model := model p; external_memory := external_memory p;
     node_memory_states := node_memory_states p; randn_calls := c |}.

(** What is fixed for a processor: the settings, the weights of its model and
    the generator behind [torch.randn] ([gauss c j] is component [j] of the
    vector returned by call number [c]). *)
Variable cfg : Settings.
Variable W : Weights F.
Variable gauss : nat -> nat -> F.

(** [GNNProcessor.__init__]; [nn.MultiheadAttention(hidden_dim, num_heads=4)]
    refuses a hidden dimension that 4 does not divide. *)
Definition GNNProcessor_init : outcome GNNProcessor :=
  if decide (GNN_HIDDEN_DIM cfg `mod` 4 = 0 /\ 0 < GNN_HIDDEN_DIM cfg)
  then Ok {| model := {| input_dim := VECTOR_DIMENSION cfg;
                         hidden_dim := GNN_HIDDEN_DIM cfg;
                         num_layers := GNN_NUM_LAYERS cfg |};
             external_memory := ExternalMemory_init (MAX_MEMORY_NODES cfg) (GNN_HIDDEN_DIM cfg);
             node_memory_states := ∅;
             randn_calls := 0 |}
  else Raise.

(** [torch.tensor(rows)]: the rows must have one common length. *)
Definition torch_tensor (rows : list (list F)) : outcome (list (list F)) :=
  match rows with
  | [] => Ok []
  | r :: _ => if has_width (length r) rows then Ok rows else Raise
  end.

Definition node_features (node : MemoryNode) : list F :=
  embedding node ++ [default fzero (valence node); default fzero (arousal node)].

Definition build_index (memory_nodes : list MemoryNode) : gmap string nat :=
  fold_left (fun m '(i, node) => <[id node := i]> m)
            (zip (seq 0 (length memory_nodes)) memory_nodes) ∅.

Definition add_edge (node_id_to_idx : gmap string nat)
    (acc : list (nat * nat) * list F) (edge : MemoryEdge) : list (nat * nat) * list F :=
  match node_id_to_idx !! source_id edge, node_id_to_idx !! target_id edge with
  | Some source_idx, Some target_idx =>
      (acc.1 ++ [(source_idx, target_idx); (target_idx, source_idx)],
       acc.2 ++ [weight edge; weight edge])
  | _, _ => acc
  end.

(** [GNNProcessor.create_graph_data] *)
Definition create_graph_data (memory_nodes : list MemoryNode) (memory_edges : list MemoryEdge)
  : outcome (Data F) :=
  match memory_nodes with
  | [] => Ok {| x := []; edge_index := []; edge_attr := [] |}
  | _ =>
      let node_id_to_idx := build_index memory_nodes in
      do x <- torch_tensor (map node_features memory_nodes);
      let '(edge_indices, edge_weights) :=
        fold_left (add_edge node_id_to_idx) memory_edges ([], []) in
      Ok {| x := x; edge_index := edge_indices; edge_attr := edge_weights |}
  end.

(** [torch.randn(n)], call number [c]. *)
Definition torch_randn (c n : nat) : list F := map (gauss c) (seq 0 n).

(** The loop of [_get_memory_states]: the states collected so far and the
    processor as mutated so far. *)
Definition get_state_step (acc : list (list F) * GNNProcessor) (node_id : string)
  : list (list F) * GNNProcessor :=
  let '(states, p) := acc in
  match node_memory_states p !! node_id with
  | Some state => (states ++ [state], p)
  | None =>
      let state := torch_randn (randn_calls p) (GNN_HIDDEN_DIM cfg) in
      (states ++ [state],
       set_randn_calls (S (randn_calls p))
         (set_node_memory_states (<[node_id := state]> (node_memory_states p)) p))
  end.

(** [torch.stack(states)]: all the vectors must have one size. *)
Definition torch_stack (states : list (list F)) : outcome (list (list F)) :=
  torch_tensor states.

(** [GNNProcessor._get_memory_states]; its own [except] turns a failure of
    [torch.stack] into [None]. *)
Definition _get_memory_states (node_ids : list string) (p : GNNProcessor)
  : option (list (list F)) * GNNProcessor :=
  let '(states, p') := fold_left get_state_step node_ids ([], p) in
  match states with
  | [] => (None, p')
  | _ => match torch_stack states with
         | Ok t => (Some t, p')
         | Raise => (None, p')
         end
  end.

(** [GNNProcessor._update_memory_states] *)
Definition _update_memory_states (node_ids : list string) (new_states : list (list F))
    (p : GNNProcessor) : GNNProcessor :=
  set_node_memory_states
    (fold_left (fun m '(i, node_id) =>
                  match new_states !! i with
                  | Some row => <[node_id := row]> m
                  | None => m
                  end)
               (zip (seq 0 (length node_ids)) node_ids)
               (node_memory_states p)) p.

Definition width (t : list (list F)) : nat :=
  match t with
  | [] => 0
  | r :: _ => length r
  end.

(** [final_scores = 0.7 * similarities + 0.3 * activation_scores] *)
Definition final_score (similarity activation : F) : F :=
  fadd (fmul (flit (7 # 10)) similarity) (fmul (flit (3 # 10)) activation).

(** The loop that builds [activated_memories] from [top_indices]. *)
Definition collect (memory_nodes : list MemoryNode) (final_scores similarities : list F)
    (top_indices : list nat) : list Activated :=
  omap (fun idx =>
          if idx <? length memory_nodes
          then node ← memory_nodes !! idx;
               f ← final_scores !! idx;
               s ← similarities !! idx;
               Some {| memory := node; activation_score := f; similarity_score := s |}
          else None) top_indices.

(** Running a method of the external memory from the processor. *)
Definition on_external_memory {A} (m : M (ExternalMemory F) A) : M GNNProcessor A :=
  fun p => let '(o, e) := m (external_memory p) in (o, set_external_memory e p).

(** The body of the [try] block of [activate_memories]. *)
Definition activate_memories_try (memory_nodes : list MemoryNode)
    (memory_edges : list MemoryEdge) (query_embedding : list F) (top_k : Z)
  : M GNNProcessor (list Activated) :=
  match memory_nodes with
  | [] => ret []
  | _ =>
      run graph_data <- lift (create_graph_data memory_nodes memory_edges);
      run states <- (fun p => let '(t, p') := _get_memory_states (map id memory_nodes) p
                              in (Ok t, p'));
      run p <- get_;
      run output <- lift (forward W (model p) graph_data states);
      run_ modify_ (_update_memory_states (map id memory_nodes) (memory_states output));
      run similarities <- lift (similarities_of (width (node_embeddings output))
                                                (node_embeddings output) query_embedding);
      let final_scores := zip_with final_score similarities (activation_scores output) in
      let top_indices := slice_to top_k (reverse (argsort final_scores)) in
      let activated_memories := collect memory_nodes final_scores similarities top_indices in
      run_ on_external_memory
             (read query_embedding (Z.min 3 (Z.of_nat (length activated_memories))));
      ret activated_memories
  end.

(** [GNNProcessor.activate_memories]: any exception yields the empty list. *)
Definition activate_memories (memory_nodes : list MemoryNode)
    (memory_edges : list MemoryEdge) (query_embedding : list F) (top_k : Z)
    (p : GNNProcessor) : list Activated * GNNProcessor :=
  match activate_memories_try memory_nodes memory_edges query_embedding top_k p with
  | (Ok r, p') => (r, p')
  | (Raise, p') => ([], p')
  end.

(** [GNNProcessor._apply_memory_decay] *)
Definition _apply_memory_decay : M GNNProcessor unit :=
  modify_ (fun p => set_external_memory
                      (apply_memory_decay (flit (MEMORY_DECAY_FACTOR cfg)) (external_memory p)) p).

(** The body of the [try] block of [update_memory_with_interaction]. *)
Definition update_memory_with_interaction_try (embedding : list F) : M GNNProcessor unit :=
  let interaction_key := embedding in
  let interaction_value := embedding in
  run_ on_external_memory (write interaction_key interaction_value);
  _apply_memory_decay.

(** [GNNProcessor.update_memory_with_interaction]: the exception is logged
    and swallowed. *)
Definition update_memory_with_interaction (user_input system_response : string)
    (embedding : list F) (p : GNNProcessor) : GNNProcessor :=
  snd (update_memory_with_interaction_try embedding p).

End Processor.

Arguments MemoryNode F : clear implicits.
Arguments MemoryEdge F : clear implicits.
Arguments Activated F : clear implicits.
Arguments GNNProcessor F : clear implicits.

(** ** Statistics *)

Section Statistics.
Context {F : Type} `{Scalar F}.

(** The dictionary returned by [get_memory_statistics], without the device
    name. *)
Record Statistics := {
  total_nodes : nat;
  external_memory_usage : nat;
  external_memory_capacity : nat;
  average_memory_usage : F
}.

(** [np.mean(a)]: the sum of the entries over their number. *)
Definition np_mean (a : list F) : F :=
  fdiv (foldr fadd fzero a) (flit (Z.of_nat (length a) # 1)).

(** [GNNProcessor.get_memory_statistics] *)
Definition get_memory_statistics (p : GNNProcessor F) : Statistics := {|
  total_nodes := size (node_memory_states p);
  external_memory_usage := current_size (external_memory p);
  external_memory_capacity := memory_size (external_memory p);
  average_memory_usage := np_mean (usage (external_memory p))
|}.

End Statistics.

Arguments Statistics F : clear implicits.

(** ** The embedding cache of the memory manager
    ([app/services/memory_manager.py])

    [_embedding_cache] is a Python dict, whose iteration order is insertion
    order: a list of (text, embedding) pairs, oldest first.  The embedding
    model is a parameter. *)

Section EmbeddingCache.
Context {V : Type}.
Variable encode : string -> V.

(** [cache[text]], for a text that may be absent. *)
Fixpoint cache_get (text : string) (cache : list (string * V)) : option V :=
  match cache with
  | [] => None
  | (k, v) :: cache' => if decide (k = text) then Some v else cache_get text cache'
  end.

(** [MemoryManager.get_embedding]: the embedding returned and the cache
    afterwards. *)
Definition get_embedding (text : string) (cache : list (string * V))
  : V * list (string * V) :=
  match cache_get text cache with
  | Some embedding => (embedding, cache)
  | None =>
      let embedding := encode text in
      let cache := if 1000 <? length cache then tail cache else cache in
      (embedding, cache ++ [(text, embedding)])
  end.

(** What the cache is meant to hold: one entry per text, each the encoding of
    its text. *)
Definition cache_ok (cache : list (string * V)) : Prop :=
  NoDup cache.*1 /\ Forall (fun e => e.2 = encode e.1) cache.

End EmbeddingCache.

(** ** Vocabulary of the statements *)

Section Vocabulary.
Context {F : Type} `{Scalar F}.

Fixpoint countb (p : F -> bool) (l : list F) : nat :=
  match l with
  | [] => 0
  | u :: l' => (if p u then 1 else 0) + countb p l'
  end.

(** A slot's usage after decay is below the clean-up threshold. *)
Definition below_threshold (factor : F) (u : F) : bool :=
  fltb (fmul u factor) low_usage_threshold.

(** Slot [i] is reset by the clean-up: its decayed usage is below the
    threshold, and fewer than half (rounded down) of all such slots come
    before it. *)
Definition zeroed (factor : F) (us : list F) (i : nat) : bool :=
  match us !! i with
  | Some u =>
      below_threshold factor u &&
      (countb (below_threshold factor) (take i us) <? countb (below_threshold factor) us / 2)
  | None => false
  end.

(** The shape invariant of the store: what numpy guarantees of the three
    arrays allocated by [__init__], and the bound on the slot counter. *)
Record wf_memory (s : ExternalMemory F) : Prop := {
  wf_keys : length (keys s) = memory_size s;
  wf_values : length (values s) = memory_size s;
  wf_usage : length (usage s) = memory_size s;
  wf_key_rows : has_width (key_dim s) (keys s) = true;
  wf_value_rows : has_width (key_dim s) (values s) = true;
  wf_current_size : current_size s <= memory_size s
}.

(** The blended score [activate_memories] gives a candidate whose combined
    embedding is [row]: 0.7 x the regularised cosine of [row] and the query
    + 0.3 x the sigmoid of the activation head on [row]. *)
Definition blended_score (W : Weights F) (query row : list F) : F :=
  final_score (cos_sim row query) (fsigmoid (activation_head W row)).

(** The pairs one edge contributes to the edge index. *)
Definition edge_pairs (node_id_to_idx : gmap string nat) (edge : MemoryEdge F)
  : list (nat * nat) :=
  match node_id_to_idx !! source_id edge, node_id_to_idx !! target_id edge with
  | Some a, Some b => [(a, b); (b, a)]
  | _, _ => []
  end.

(** The similarity of every occupied slot's key to a query, as [read]
    computes them. *)
Definition read_similarities (query : list F) (s : ExternalMemory F) : list F :=
  map (fun r => cos_sim r query) (take (current_size s) (keys s)).

(** The calls a client can make on an external memory, and the store after a
    sequence of them (whatever each returned or raised). *)
Inductive memory_call : Type :=
| CallWrite (key value : list F)
| CallRead (query : list F) (k : Z)
| CallDecay (factor : F).

Definition after_call (s : ExternalMemory F) (c : memory_call) : ExternalMemory F :=
  match c with
  | CallWrite key value => (write key value s).2
  | CallRead query k => (read query k s).2
  | CallDecay factor => apply_memory_decay factor s
  end.

Definition after_calls (s : ExternalMemory F) (cs : list memory_call) : ExternalMemory F :=
  foldl after_call s cs.

(** The public calls on a processor, and the processor after a sequence of
    them. *)
Inductive processor_call : Type :=
| CallActivate (memory_nodes : list (MemoryNode F)) (memory_edges : list (MemoryEdge F))
               (query_embedding : list F) (top_k : Z)
| CallUpdate (user_input system_response : string) (embedding : list F).

Definition after_processor_call (cfg : Settings) (W : Weights F) (gauss : nat -> nat -> F)
    (p : GNNProcessor F) (c : processor_call) : GNNProcessor F :=
  match c with
  | CallActivate nodes edges q k => (activate_memories cfg W gauss nodes edges q k p).2
  | CallUpdate ui sr e => update_memory_with_interaction cfg ui sr e p
  end.

Definition after_processor_calls (cfg : Settings) (W : Weights F) (gauss : nat -> nat -> F)
    (p : GNNProcessor F) (cs : list processor_call) : GNNProcessor F :=
  foldl (after_processor_call cfg W gauss) p cs.

End Vocabulary.

(** ** Concrete inputs, over the rationals *)

Section Inputs.
Local Open Scope Q_scope.

(** A small configuration: embeddings of dimension 2, hidden dimension 4
    (which the four attention heads divide), an external memory of 2 slots. *)
Definition small_settings : Settings := {|
  VECTOR_DIMENSION := 2;
  MAX_MEMORY_NODES := 2;
  MEMORY_DECAY_FACTOR := 95 # 100;
  GNN_HIDDEN_DIM := 4;
  GNN_NUM_LAYERS := 3
|}.

(** Weights that make every module constant: all weight matrices are zero;
    the bias of each SAGEConv is (1, 0, 0, 0); the GRU cell, with zero
    weights and biases, halves its hidden state; the output projection of the
    attention has bias (-4, 0, 0, 0); both heads have zero bias. *)
Definition constant_weights : Weights Q := {|
  sage := fun _ x _ => map (fun _ => [1; 0; 0; 0]) x;
  gru := fun _ h => map (fun v => fmul v (1 # 2)) h;
  attention := fun _ => [-4; 0; 0; 0];
  activation_head := fun _ => 0;
  emotion_head := fun _ => (0, 0)
|}.

(** A generator whose draws are all 1. *)
Definition ones : nat -> nat -> Q := fun _ _ => 1.

Definition fresh : GNNProcessor Q := {|
  model := {| input_dim := 2; hidden_dim := 4; num_layers := 3 |};
  external_memory := ExternalMemory_init 2 4;
  node_memory_states := ∅;
  randn_calls := 0
|}.

Definition node_a : MemoryNode Q :=
  {| id := "a"; embedding := [1; 0]; valence := None; arousal := Some (1 # 2); content := "first" |}.
Definition node_b : MemoryNode Q :=
  {| id := "b"; embedding := [0; 1]; valence := Some (1 # 4); arousal := None; content := "second" |}.
(** A record whose embedding has three components instead of two, and the
    same record with the embedding replaced by the zero vector. *)
Definition node_bad : MemoryNode Q :=
  {| id := "c"; embedding := [1; 1; 1]; valence := None; arousal := None; content := "third" |}.
Definition node_zeroed : MemoryNode Q :=
  {| id := "c"; embedding := [0; 0]; valence := None; arousal := None; content := "third" |}.

Definition run_activate (nodes : list (MemoryNode Q)) (q : list Q) (k : Z) : list (Activated Q) :=
  (activate_memories small_settings constant_weights ones nodes [] q k fresh).1.

(** A full store of three slots whose least usage, 1/2, is shared by slots 1
    and 2. *)
Definition full_store : ExternalMemory Q := {|
  memory_size := 3;
  key_dim := 2;
  keys := [[1; 0]; [0; 1]; [1; 1]];
  values := [[5; 5]; [6; 6]; [7; 7]];
  usage := [1; 1 # 2; 1 # 2];
  current_size := 3
|}.

(** The processor built from the default settings. *)
Definition default_processor : GNNProcessor Q := {|
  model := {| input_dim := 384; hidden_dim := 128; num_layers := 3 |};
  external_memory := ExternalMemory_init 10000 128;
  node_memory_states := ∅;
  randn_calls := 0
|}.

(** A store with both of its two slots occupied. *)
Definition two_slot_store : ExternalMemory Q := {|
  memory_size := 2;
  key_dim := 4;
  keys := [[6; 8; 0; 0]; [3; 4; 0; 0]];
  values := [[1; 1; 1; 1]; [2; 2; 2; 2]];
  usage := [1; 1];
  current_size := 2
|}.

Definition full_processor : GNNProcessor Q := {|
  model := {| input_dim := 2; hidden_dim := 4; num_layers := 3 |};
  external_memory := two_slot_store;
  node_memory_states := ∅;
  randn_calls := 0
|}.

(** A second record with the identity "a", and two edges: one between the
    candidates "a" and "b", one to an identity that is no candidate. *)
Definition node_a_again : MemoryNode Q :=
  {| id := "a"; embedding := [1; 1]; valence := None; arousal := None; content := "again" |}.
Definition edge_ab : MemoryEdge Q :=
  {| source_id := "a"; target_id := "b"; weight := 1 # 2 |}.
Definition edge_a_out : MemoryEdge Q :=
  {| source_id := "a"; target_id := "elsewhere"; weight := 1 # 3 |}.

Definition two_node_data : Data Q := {|
  x := [[1; 0; 0; 1 # 2]; [0; 1; 1 # 4; 0]];
  edge_index := [];
  edge_attr := []
|}.

(** Weights under which the combined embedding of a candidate is its feature
    row: the first SAGEConv is the identity and the later ones return zero
    (so the residual connection keeps the row), the attention returns zero,
    the GRU cell halves its hidden state and both heads are zero.  With them
    three candidates get three different scores against the query
    (1, 0, 0, 0): "near" the highest, then "far", then "off". *)
Definition passing_weights : Weights Q := {|
  sage := fun i x _ => match i with O => x | S _ => map (fun _ => [0; 0; 0; 0]) x end;
  gru := fun _ h => map (fun v => fmul v (1 # 2)) h;
  attention := fun _ => [0; 0; 0; 0];
  activation_head := fun _ => 0;
  emotion_head := fun _ => (0, 0)
|}.

Definition node_far : MemoryNode Q :=
  {| id := "far"; embedding := [3; 4]; valence := None; arousal := None; content := "far" |}.
Definition node_near : MemoryNode Q :=
  {| id := "near"; embedding := [4; 3]; valence := None; arousal := None; content := "near" |}.
Definition node_off : MemoryNode Q :=
  {| id := "off"; embedding := [0; 5]; valence := None; arousal := None; content := "off" |}.

(** A text encoder for the cache examples: the length of the text. *)
Definition text_length : string -> nat := String.length.

End Inputs.

(** ** Concrete inputs, over the reals *)

Section RealInputs.
Local Open Scope R_scope.

Definition real_constant_weights : Weights R := {|
  sage := fun _ x _ => map (fun _ => [1; 0; 0; 0]) x;
  gru := fun _ h => map (fun v => v * / 2) h;
  attention := fun _ => [-4; 0; 0; 0];
  activation_head := fun _ => 0;
  emotion_head := fun _ => (0, 0)
|}.

Definition real_one_node_data : Data R := {|
  x := [[1; 0; 0; 0]];
  edge_index := [];
  edge_attr := []
|}.

End RealInputs.

(** * Properties *)

(** ** The stable sort meets the contract of [np.argsort] *)

Section StableSortProperties.
Context {A : Type} (ltb : A -> A -> bool).

Lemma pair_lt_trans (a b c : nat * A) :
  strict_weak_order ltb -> pair_lt ltb a b -> pair_lt ltb b c -> pair_lt ltb a c.
Proof.
  intros (_ & Htrans & Hneg) [Hab | [Hab Hi]] [Hbc | [Hbc Hj]].
  - left. eauto.
  - left. destruct (ltb a.2 c.2) eqn:E; [done|].
    rewrite (Hneg _ _ _ E Hbc) in Hab. done.
  - left. destruct (ltb a.2 c.2) eqn:E; [done|].
    rewrite (Hneg _ _ _ Hab E) in Hbc. done.
  - right. split; [eauto | lia].
Qed.

Lemma insert_sorted_perm (a : nat * A) l : insert_sorted ltb a l ≡ₚ a :: l.
Proof.
  induction l as [|y l IH]; simpl; [done|].
  destruct (ltb y.2 a.2); [|done].
  rewrite IH. apply Permutation_swap.
Qed.

Lemma sort_pairs_perm (l : list (nat * A)) : sort_pairs ltb l ≡ₚ l.
Proof.
  induction l as [|a l IH]; simpl; [done|].
  rewrite insert_sorted_perm. by rewrite IH.
Qed.

Lemma insert_sorted_sorted (a : nat * A) l :
  strict_weak_order ltb ->
  StronglySorted (pair_lt ltb) l ->
  Forall (fun y => a.1 < y.1) l ->
  StronglySorted (pair_lt ltb) (insert_sorted ltb a l).
Proof.
  intros Hswo. induction l as [|y l IH]; simpl; intros Hs Hlt.
  - repeat constructor.
  - apply StronglySorted_cons in Hs as [Hy Hs].
    apply Forall_cons in Hlt as [Hay Hlt].
    destruct (ltb y.2 a.2) eqn:E.
    + apply StronglySorted_cons. split; [|by apply IH].
      rewrite insert_sorted_perm. constructor; [by left | done].
    + apply StronglySorted_cons. split.
      * constructor; [by right|].
        eapply Forall_impl; [exact Hy|]. intros z Hz.
        eapply pair_lt_trans; [done| |exact Hz]. by right.
      * by apply StronglySorted_cons.
Qed.

Lemma sort_pairs_sorted (l : list (nat * A)) :
  strict_weak_order ltb ->
  StronglySorted lt l.*1 -> StronglySorted (pair_lt ltb) (sort_pairs ltb l).
Proof.
  intros Hswo. induction l as [|a l IH]; simpl; intros Hs.
  - constructor.
  - apply StronglySorted_cons in Hs as [Ha Hs].
    apply insert_sorted_sorted; [done | by apply IH |].
    rewrite sort_pairs_perm. apply Forall_forall. intros y Hy.
    rewrite Forall_forall in Ha. apply Ha. by apply list_elem_of_fmap_2.
Qed.

Lemma seq_sorted (s n : nat) : StronglySorted lt (seq s n).
Proof.
  revert s. induction n as [|n IH]; intros s; simpl; constructor; [apply IH|].
  apply Forall_forall. intros y Hy. apply elem_of_seq in Hy. lia.
Qed.

Lemma stable_argsort_perm (a : list A) : stable_argsort ltb a ≡ₚ seq 0 (length a).
Proof.
  unfold stable_argsort. rewrite sort_pairs_perm.
  rewrite fst_zip; [done | by rewrite length_seq].
Qed.

Lemma StronglySorted_lookup {B} (R : relation B) (l : list B) p q u v :
  StronglySorted R l -> p < q -> l !! p = Some u -> l !! q = Some v -> R u v.
Proof.
  intros Hs. revert p q. induction Hs as [|y l Hs IH Hy]; intros p q Hpq Hp Hq.
  - done.
  - destruct q as [|q]; [lia|]. destruct p as [|p]; simpl in *.
    + injection Hp as ->. rewrite Forall_forall in Hy.
      apply Hy. by eapply list_elem_of_lookup_2.
    + eapply IH; [|done..]. lia.
Qed.

(** Earlier in [stable_argsort a] means smaller value, or equal value and
    smaller position. *)
Lemma stable_argsort_sorted (a : list A) p q i j vi vj :
  strict_weak_order ltb ->
  p < q -> stable_argsort ltb a !! p = Some i -> stable_argsort ltb a !! q = Some j ->
  a !! i = Some vi -> a !! j = Some vj ->
  pair_lt ltb (i, vi) (j, vj).
Proof.
  intros Hswo Hpq Hp Hq Hi Hj. unfold stable_argsort in Hp, Hq.
  change (map ?f ?l) with (f <$> l) in Hp, Hq.
  rewrite list_lookup_fmap in Hp, Hq.
  destruct (sort_pairs _ _ !! p) as [[i' wi]|] eqn:Ep; [|done].
  destruct (sort_pairs _ _ !! q) as [[j' wj]|] eqn:Eq; [|done].
  simpl in Hp, Hq. injection Hp as ->. injection Hq as ->.
  assert (forall k w, (k, w) ∈ sort_pairs ltb (zip (seq 0 (length a)) a) -> a !! k = Some w)
    as Hin.
  { intros k w. rewrite sort_pairs_perm. intros [n Hn]%list_elem_of_lookup_1.
    apply lookup_zip_Some in Hn as [Hn1 Hn2]. simpl in *.
    apply lookup_seq in Hn1 as [-> _]. done. }
  pose proof (Hin _ _ (list_elem_of_lookup_2 _ _ _ Ep)) as Hwi.
  pose proof (Hin _ _ (list_elem_of_lookup_2 _ _ _ Eq)) as Hwj.
  assert (wi = vi) as -> by congruence. assert (wj = vj) as -> by congruence.
  eapply (StronglySorted_lookup (pair_lt ltb)); [|exact Hpq|exact Ep|exact Eq].
  apply sort_pairs_sorted; [done|].
  rewrite fst_zip; [apply seq_sorted | by rewrite length_seq].
Qed.

Lemma stable_argsort_ascending (a : list A) p q i j vi vj :
  strict_weak_order ltb ->
  p < q -> stable_argsort ltb a !! p = Some i -> stable_argsort ltb a !! q = Some j ->
  a !! i = Some vi -> a !! j = Some vj ->
  ltb vj vi = false.
Proof.
  intros Hswo Hpq Hp Hq Hi Hj.
  destruct (stable_argsort_sorted a p q i j vi vj Hswo Hpq Hp Hq Hi Hj) as [Hlt | [Hge _]];
    [|done].
  simpl in Hlt. destruct Hswo as (Hirr & Htrans & _).
  destruct (ltb vj vi) eqn:E; [|done].
  pose proof (Htrans _ _ _ Hlt E) as Hc. by rewrite Hirr in Hc.
Qed.

End StableSortProperties.

(** ** The laws hold for the two instances *)

Lemma Qltb_order : strict_weak_order Qltb.
Proof.
  unfold Qltb. split_and!.
  - intros x. apply negb_false_iff, Qle_bool_iff, Qle_refl.
  - intros x y z. rewrite !negb_true_iff. intros Hxy Hyz.
    destruct (Qle_bool z x) eqn:E; [|done].
    apply Qle_bool_iff in E.
    assert (~ (y <= x)%Q) as Hn by (rewrite <- Qle_bool_iff; congruence).
    assert (~ (z <= y)%Q) as Hm by (rewrite <- Qle_bool_iff; congruence).
    apply Qnot_le_lt in Hn, Hm.
    exfalso. apply (Qlt_irrefl x).
    eapply Qlt_le_trans; [eapply Qlt_trans; eassumption | exact E].
  - intros x y z. rewrite !negb_false_iff, !Qle_bool_iff. intros Hyx Hzy.
    eapply Qle_trans; eassumption.
Qed.

Lemma Rltb_order : strict_weak_order Rltb.
Proof.
  unfold Rltb. split_and!.
  - intros x. destruct (Rlt_dec x x); [lra | done].
  - intros x y z. destruct (Rlt_dec x y), (Rlt_dec y z), (Rlt_dec x z); try done; lra.
  - intros x y z. destruct (Rlt_dec x y), (Rlt_dec y z), (Rlt_dec x z); try done; lra.
Qed.

#[export] Instance Q_order : ScalarOrder Q.
Proof. destruct Qltb_order as (? & ? & ?). by split. Qed.

#[export] Instance R_order : ScalarOrder R.
Proof. destruct Rltb_order as (? & ? & ?). by split. Qed.

#[export] Instance Q_sort : SortContract Q.
Proof.
  split.
  - apply (stable_argsort_perm Qltb).
  - intros a p q i j vi vj. apply (stable_argsort_ascending Qltb), Qltb_order.
Qed.

#[export] Instance R_sort : SortContract R.
Proof.
  split.
  - apply (stable_argsort_perm Rltb).
  - intros a p q i j vi vj. apply (stable_argsort_ascending Rltb), Rltb_order.
Qed.

(** ** Sorting *)

Section Sorting.
Context {F : Type} `{ScalarOrder F} `{!SortContract F}.

Lemma fltb_asym (u v : F) : fltb u v = true -> fltb v u = false.
Proof.
  intros Huv. destruct (fltb v u) eqn:E; [|done].
  pose proof (fltb_trans _ _ _ Huv E) as Hc.
  rewrite fltb_irrefl in Hc. done.
Qed.

Lemma length_argsort (a : list F) : length (argsort a) = length a.
Proof. by rewrite argsort_perm, length_seq. Qed.

Lemma argsort_lt (a : list F) (i : nat) : i ∈ argsort a -> i < length a.
Proof. rewrite argsort_perm. intros Hi%elem_of_seq. lia. Qed.

Lemma NoDup_argsort (a : list F) : NoDup (argsort a).
Proof. rewrite argsort_perm. apply NoDup_seq. Qed.

End Sorting.

(** ** The decay pass *)

Section Decay.
Context {F : Type} `{Scalar F}.

#[local] Arguments Nat.div : simpl never.

Lemma length_where_from (p : F -> bool) (a : list F) (s : nat) :
  length (where_from s p a) = countb p a.
Proof.
  revert s. induction a as [|u a IH]; intros s; simpl; [done|].
  destruct (p u); simpl; by rewrite IH.
Qed.

(** Position [j] is among the first [m] positions found by [np.where] exactly
    when its value satisfies [p] and fewer than [m] earlier values do. *)
Lemma elem_of_take_where_from (p : F -> bool) (a : list F) (s m j : nat) :
  j ∈ take m (where_from s p a) <->
  s <= j /\ exists u, a !! (j - s) = Some u /\ p u = true /\ countb p (take (j - s) a) < m.
Proof.
  revert s m. induction a as [|u a IH]; intros s m; simpl.
  - rewrite take_nil. split; [by intros ?%elem_of_nil | by intros (_ & ? & ? & _)].
  - destruct (p u) eqn:Epu.
    + destruct m as [|m]; simpl.
      { split; [by intros ?%elem_of_nil | intros (_ & ? & _ & _ & ?); lia]. }
      rewrite elem_of_cons, IH. split.
      * intros [-> | (Hs & v & Hv & Hpv & Hc)].
        -- split; [lia|]. exists u. rewrite Nat.sub_diag. simpl. repeat split; [done | lia].
        -- split; [lia|]. exists v.
           replace (j - s) with (S (j - S s)) by lia. simpl. rewrite Epu.
           repeat split; [done.. | lia].
      * intros (Hs & v & Hv & Hpv & Hc).
        destruct (decide (j = s)) as [->|Hne]; [by left | right].
        split; [lia|]. exists v.
        replace (j - s) with (S (j - S s)) in Hv, Hc by lia. simpl in Hv, Hc.
        rewrite Epu in Hc. repeat split; [done.. | lia].
    + rewrite IH. split.
      * intros (Hs & v & Hv & Hpv & Hc). split; [lia|]. exists v.
        replace (j - s) with (S (j - S s)) by lia. simpl. rewrite Epu.
        repeat split; [done.. | lia].
      * intros (Hs & v & Hv & Hpv & Hc).
        destruct (decide (j = s)) as [->|Hne].
        { rewrite Nat.sub_diag in Hv. simpl in Hv. congruence. }
        split; [lia|]. exists v.
        replace (j - s) with (S (j - S s)) in Hv, Hc by lia. simpl in Hv, Hc.
        rewrite Epu in Hc. repeat split; [done.. | lia].
Qed.

Lemma lookup_reset (l : list F) (reset : list nat) (i : nat) :
  foldl (fun u idx => <[idx := fzero]> u) l reset !! i =
  (fun v => if bool_decide (i ∈ reset) then fzero else v) <$> l !! i.
Proof.
  revert l. induction reset as [|r reset IH]; intros l; simpl.
  - by destruct (l !! i).
  - rewrite IH. destruct (decide (i = r)) as [->|Hne].
    + destruct (decide (r < length l)) as [Hlt|Hge].
      * rewrite list_lookup_insert_eq by done.
        destruct (lookup_lt_is_Some_2 l r Hlt) as [v ->]. simpl.
        rewrite (bool_decide_eq_true_2 (r ∈ r :: reset)) by apply list_elem_of_here.
        by destruct (bool_decide (r ∈ reset)).
      * rewrite list_insert_ge by lia. rewrite (lookup_ge_None_2 l r) by lia. done.
    + rewrite list_lookup_insert_ne by done.
      destruct (l !! i); simpl; [|done]. f_equal.
      destruct (bool_decide (i ∈ reset)) eqn:E.
      * apply bool_decide_eq_true in E. rewrite bool_decide_eq_true_2; [done|].
        by apply list_elem_of_further.
      * apply bool_decide_eq_false in E. rewrite bool_decide_eq_false_2; [done|].
        intros [?|?]%elem_of_cons; done.
Qed.

Lemma countb_fmap (p : F -> bool) (f : F -> F) (l : list F) :
  countb p (f <$> l) = countb (fun u => p (f u)) l.
Proof. induction l as [|u l IH]; csimpl; [done | by rewrite IH]. Qed.

(** C8. After the decay pass with factor [d], the usage of every slot is its
    prior usage times [d], except for the first half (rounded down, in
    ascending slot order) of the slots whose decayed usage is below the
    threshold 0.01, whose usage is 0; nothing else in the store changes. *)
Theorem decay_usage (factor : F) (s : ExternalMemory F) (i : nat) :
  usage (apply_memory_decay factor s) !! i =
    (fun u => if zeroed factor (usage s) i then fzero else fmul u factor) <$> usage s !! i
  /\ keys (apply_memory_decay factor s) = keys s
  /\ values (apply_memory_decay factor s) = values s
  /\ current_size (apply_memory_decay factor s) = current_size s
  /\ memory_size (apply_memory_decay factor s) = memory_size s.
Proof.
  unfold apply_memory_decay.
  set (decayed := map (fun u => fmul u factor) (usage s)).
  set (low := where_ (fun u => fltb u low_usage_threshold) decayed).
  assert (length low = countb (below_threshold factor) (usage s)) as Hlen.
  { unfold low, where_. rewrite length_where_from. unfold decayed.
    by rewrite (countb_fmap _ (fun u => fmul u factor)). }
  assert (foldl (fun u idx => <[idx := fzero]> u) decayed (take (length low / 2) low) !! i =
          (fun u => if zeroed factor (usage s) i then fzero else fmul u factor) <$> usage s !! i)
    as Hmain.
  { rewrite Hlen, lookup_reset. unfold decayed at 1.
    change (map (fun u => fmul u factor) (usage s)) with ((fun u => fmul u factor) <$> usage s).
    rewrite list_lookup_fmap. unfold zeroed.
    destruct (usage s !! i) as [u|] eqn:Eu; simpl; [|done]. f_equal.
    destruct (bool_decide _) eqn:E.
    - apply bool_decide_eq_true in E. unfold low, where_ in E.
      apply elem_of_take_where_from in E as (_ & v & Hv & Hpv & Hc).
      rewrite Nat.sub_0_r in Hv, Hc. unfold decayed in Hv, Hc.
      change (map (fun u => fmul u factor) (usage s)) with ((fun u => fmul u factor) <$> usage s)
        in Hv, Hc.
      rewrite list_lookup_fmap, Eu in Hv. simpl in Hv. injection Hv as <-.
      rewrite <- fmap_take, (countb_fmap _ (fun u => fmul u factor)) in Hc.
      unfold below_threshold at 1. rewrite Hpv. simpl.
      fold (below_threshold factor) in Hc.
      by rewrite (proj2 (Nat.ltb_lt _ _) Hc).
    - apply bool_decide_eq_false in E.
      destruct (below_threshold factor u && _) eqn:E2; [|done].
      exfalso. apply E. apply andb_true_iff in E2 as [Hb Hc]. apply Nat.ltb_lt in Hc.
      unfold low, where_. apply elem_of_take_where_from.
      split; [lia|]. exists (fmul u factor). rewrite Nat.sub_0_r. unfold decayed.
      change (map (fun u => fmul u factor) (usage s)) with ((fun u => fmul u factor) <$> usage s).
      rewrite list_lookup_fmap, Eu. simpl. split; [done|]. split; [exact Hb|].
      rewrite <- fmap_take, (countb_fmap _ (fun u => fmul u factor)).
      fold (below_threshold factor). exact Hc. }
  destruct (0 <? length low) eqn:E0; simpl; [done|].
  repeat split; try done.
  apply Nat.ltb_ge in E0. assert (length low = 0) as Hz by lia.
  rewrite Hz in Hmain. simpl in Hmain. exact Hmain.
Qed.

End Decay.

(** ** Writing to the external memory *)

Section ArgMin.
Context {F : Type} `{ScalarOrder F}.

Lemma argmin_from_spec (pre l : list F) (best : nat) (bv : F) :
  (pre ++ l) !! best = Some bv ->
  best < length pre ->
  (forall j u, j < length pre -> (pre ++ l) !! j = Some u -> fltb u bv = false) ->
  (forall j u, j < best -> (pre ++ l) !! j = Some u -> fltb bv u = true) ->
  exists m mv,
    argmin_from (length pre) best bv l = m /\
    m < length (pre ++ l) /\
    (pre ++ l) !! m = Some mv /\
    (forall j u, (pre ++ l) !! j = Some u -> fltb u mv = false) /\
    (forall j u, j < m -> (pre ++ l) !! j = Some u -> fltb mv u = true).
Proof.
  revert pre best bv. induction l as [|v l IH]; intros pre best bv Hb Hlt Hmin Hfirst; simpl.
  - exists best, bv. rewrite app_nil_r in *. repeat split; [done..| |done].
    intros j u Hj. eapply Hmin; [|done]. by eapply lookup_lt_Some.
  - assert ((pre ++ v :: l) !! length pre = Some v) as Hv.
    { rewrite lookup_app_r by lia. by rewrite Nat.sub_diag. }
    assert (pre ++ v :: l = (pre ++ [v]) ++ l) as Heq by (by rewrite <- app_assoc).
    assert (S (length pre) = length (pre ++ [v])) as Hlen
      by (rewrite length_app; simpl; lia).
    rewrite Heq in *.
    destruct (fltb v bv) eqn:E.
    + destruct (IH (pre ++ [v]) (length pre) v) as (m & mv & Hm & Hrest);
        [done | rewrite <- Hlen; lia | | |].
      * intros j u Hj Hu. rewrite <- Hlen in Hj.
        destruct (decide (j = length pre)) as [->|Hne].
        -- assert (u = v) as -> by congruence. apply fltb_irrefl.
        -- eapply fltb_negtrans; [|by apply fltb_asym].
           eapply Hmin; [|done]. lia.
      * intros j u Hj Hu.
        destruct (fltb v u) eqn:E2; [done|].
        assert (fltb u bv = false) as E3 by (eapply Hmin; [|done]; lia).
        rewrite (fltb_negtrans _ _ _ E2 E3) in E. done.
      * rewrite <- Hlen in Hm. by exists m, mv.
    + destruct (IH (pre ++ [v]) best bv) as (m & mv & Hm & Hrest);
        [done | rewrite <- Hlen; lia | | done |].
      * intros j u Hj Hu. rewrite <- Hlen in Hj.
        destruct (decide (j = length pre)) as [->|Hne].
        -- assert (u = v) as -> by congruence. done.
        -- eapply Hmin; [|done]. lia.
      * rewrite <- Hlen in Hm. by exists m, mv.
Qed.

(** [np.argmin]: the position returned holds a value that none is below, and
    it is the first such position. *)
Lemma argmin_spec (a : list F) :
  0 < length a ->
  exists m mv,
    argmin a = Ok m /\ m < length a /\ a !! m = Some mv /\
    (forall j u, a !! j = Some u -> fltb u mv = false) /\
    (forall j u, j < m -> a !! j = Some u -> fltb mv u = true).
Proof.
  destruct a as [|v l]; simpl; [lia|]. intros _.
  destruct (argmin_from_spec [v] l 0 v) as (m & mv & Hm & Hrest); simpl; [done | lia | | |].
  - intros j u Hj Hu. assert (j = 0) as -> by lia. simpl in Hu.
    assert (u = v) as -> by congruence. apply fltb_irrefl.
  - intros j u Hj. lia.
  - exists m, mv. simpl in Hm. by rewrite Hm.
Qed.

End ArgMin.

Section Write.
Context {F : Type} `{Scalar F}.

Lemma has_width_replicate (w n : nat) (r : list F) :
  length r = w -> has_width w (replicate n r) = true.
Proof.
  intros Hr. unfold has_width. apply forallb_forall. intros y Hy.
  apply list_elem_of_In, elem_of_replicate in Hy as [-> _]. by apply Nat.eqb_eq.
Qed.

Lemma has_width_insert (w i : nat) (m : list (list F)) (r : list F) :
  length r = w -> has_width w m = true -> has_width w (<[i := r]> m) = true.
Proof.
  unfold has_width. rewrite !forallb_forall. intros Hr Hm y Hy.
  apply list_elem_of_In, list_elem_of_lookup_1 in Hy as [j Hj].
  apply list_lookup_insert_Some in Hj as [(-> & -> & _) | (_ & Hj)].
  - by apply Nat.eqb_eq.
  - apply Hm. eapply list_elem_of_In, list_elem_of_lookup_2. exact Hj.
Qed.

Lemma wf_init (n d : nat) : wf_memory (ExternalMemory_init n d).
Proof.
  split; simpl; rewrite ?length_replicate; try done.
  - apply has_width_replicate, length_replicate.
  - apply has_width_replicate, length_replicate.
  - lia.
Qed.

Lemma assign_row_ok (w idx : nat) (m : list (list F)) (r : list F) :
  length r = w -> assign_row w m idx r = Ok (<[idx := r]> m).
Proof. intros Hr. unfold assign_row. by rewrite decide_True. Qed.

Lemma assign_row_raise (w idx : nat) (m : list (list F)) (r : list F) :
  length r <> w -> length r <> 1 -> assign_row w m idx r = Raise.
Proof.
  intros Hr H1. unfold assign_row. rewrite decide_False by done.
  destruct r as [|u [|v r]]; simpl in *; done.
Qed.

Lemma assign_row_shape (w idx : nat) (m m' : list (list F)) (r : list F) :
  assign_row w m idx r = Ok m' ->
  length m' = length m /\ (has_width w m = true -> has_width w m' = true).
Proof.
  unfold assign_row. destruct (decide (length r = w)) as [Hr|Hr].
  - intros [= <-]. rewrite length_insert. split; [done|]. by apply has_width_insert.
  - destruct r as [|u [|v r]]; intros [= <-].
    rewrite length_insert. split; [done|]. apply has_width_insert, length_replicate.
Qed.

(** The shape invariant survives every call of [write], whether it returns or
    raises; in particular the slot counter never exceeds the capacity. *)
Lemma write_wf (key value : list F) (s : ExternalMemory F) :
  wf_memory s -> wf_memory (write key value s).2.
Proof.
  intros [Hk Hv Hu Hkr Hvr Hc]. unfold write, bindM, modify_, ret.
  destruct (current_size s <? memory_size s) eqn:E.
  - apply Nat.ltb_lt in E. simpl.
    destruct (assign_row _ (keys s) _ key) as [k|] eqn:Ek; simpl.
    + apply assign_row_shape in Ek as [Ek1 Ek2].
      destruct (assign_row _ (values s) _ value) as [v|] eqn:Ev; simpl.
      * apply assign_row_shape in Ev as [Ev1 Ev2].
        split; simpl; rewrite ?length_insert; auto with lia.
      * split; simpl; auto with lia.
    + split; simpl; auto with lia.
  - destruct (argmin (usage s)) as [idx|]; simpl; [|by split].
    destruct (assign_row _ (keys s) _ key) as [k|] eqn:Ek; simpl; [|by split].
    apply assign_row_shape in Ek as [Ek1 Ek2].
    destruct (assign_row _ (values s) _ value) as [v|] eqn:Ev; simpl.
    + apply assign_row_shape in Ev as [Ev1 Ev2].
      split; simpl; rewrite ?length_insert; auto with lia.
    + split; simpl; auto with lia.
Qed.

End Write.

Section WriteClaims.
Context {F : Type} `{ScalarOrder F}.

(** A write of a key and a value of the store's dimension into a full store
    goes to the position [np.argmin] returns. *)
Lemma write_full (key value : list F) (s : ExternalMemory F) (idx : nat) :
  memory_size s <= current_size s ->
  argmin (usage s) = Ok idx ->
  length key = key_dim s ->
  length value = key_dim s ->
  write key value s =
    (Ok idx,
     {| memory_size := memory_size s; key_dim := key_dim s;
        keys := <[idx := key]> (keys s);
        values := <[idx := value]> (values s);
        usage := <[idx := fone]> (usage s);
        current_size := current_size s |}).
Proof.
  intros Hfull Ha Hkey Hval. unfold write, bindM, modify_, ret.
  rewrite (proj2 (Nat.ltb_ge _ _) Hfull), Ha. simpl.
  rewrite (assign_row_ok _ _ _ key) by done. simpl.
  by rewrite (assign_row_ok _ _ _ value) by done.
Qed.

(** C7. A write into a full store (with at least one slot, key and value of
    the store's dimension) replaces exactly one slot: the first slot of least
    usage.  That slot then holds the key, the value and usage 1.0, every other
    slot is untouched, and the slot counter stays at the capacity. *)
Theorem write_at_capacity (key value : list F) (s : ExternalMemory F) :
  wf_memory s ->
  current_size s = memory_size s ->
  0 < memory_size s ->
  length key = key_dim s ->
  length value = key_dim s ->
  exists idx umin s',
    write key value s = (Ok idx, s')
    /\ idx < memory_size s
    /\ usage s !! idx = Some umin
    /\ (forall j u, usage s !! j = Some u -> fltb u umin = false)
    /\ (forall j u, j < idx -> usage s !! j = Some u -> fltb umin u = true)
    /\ keys s' !! idx = Some key
    /\ values s' !! idx = Some value
    /\ usage s' !! idx = Some fone
    /\ (forall j, j <> idx ->
          keys s' !! j = keys s !! j /\ values s' !! j = values s !! j
          /\ usage s' !! j = usage s !! j)
    /\ current_size s' = memory_size s
    /\ memory_size s' = memory_size s.
Proof.
  intros [Hk Hv Hu Hkr Hvr Hc] Hfull Hpos Hkey Hval.
  destruct (argmin_spec (usage s)) as (idx & umin & Ha & Hidx & Hum & Hmin & Hfirst); [lia|].
  exists idx, umin.
  eexists. split; [apply write_full; [lia | done..]|].
  simpl. repeat split; try done; try lia.
  - apply list_lookup_insert_eq. lia.
  - apply list_lookup_insert_eq. lia.
  - apply list_lookup_insert_eq. lia.
  - by apply list_lookup_insert_ne.
  - by apply list_lookup_insert_ne.
  - by apply list_lookup_insert_ne.
Qed.

End WriteClaims.

Section WriteFailure.
Context {F : Type} `{Scalar F}.

(** Below capacity the slot counter moves before the key is stored. *)
Lemma write_raise_below_capacity (key value : list F) (s : ExternalMemory F) :
  current_size s < memory_size s ->
  length key <> key_dim s ->
  length key <> 1 ->
  write key value s = (Raise, set_current_size (current_size s + 1) s).
Proof.
  intros Hlt Hk H1. unfold write, bindM. rewrite (proj2 (Nat.ltb_lt _ _) Hlt). simpl.
  by rewrite assign_row_raise.
Qed.

(** C10. A write below capacity whose key cannot be stored in a row (its
    length is neither the key dimension nor 1) raises after the slot counter
    was incremented: the store afterwards counts one more occupied slot, and
    the three arrays, hence the content of the newly counted slot, are what
    they were before the call (all zero for a slot never written). *)
Theorem write_failure_counts_slot (key value : list F) (s : ExternalMemory F) :
  current_size s < memory_size s ->
  length key <> key_dim s ->
  length key <> 1 ->
  write key value s = (Raise, set_current_size (current_size s + 1) s)
  /\ current_size (write key value s).2 = current_size s + 1
  /\ keys (write key value s).2 !! current_size s = keys s !! current_size s
  /\ values (write key value s).2 !! current_size s = values s !! current_size s
  /\ usage (write key value s).2 !! current_size s = usage s !! current_size s.
Proof.
  intros Hlt Hk H1. by rewrite write_raise_below_capacity.
Qed.

(** At capacity the failing write changes nothing at all. *)
Lemma write_failure_at_capacity (key value : list F) (s : ExternalMemory F) :
  memory_size s <= current_size s ->
  length key <> key_dim s ->
  length key <> 1 ->
  write key value s = (Raise, s).
Proof.
  intros Hge Hk H1. unfold write, bindM. rewrite (proj2 (Nat.ltb_ge _ _) Hge).
  destruct (argmin (usage s)); simpl; [|done]. by rewrite assign_row_raise.
Qed.

(** A write of a key and a value of the store's dimension below capacity. *)
Lemma write_below_capacity (key value : list F) (s : ExternalMemory F) :
  current_size s < memory_size s ->
  length key = key_dim s ->
  length value = key_dim s ->
  write key value s =
    (Ok (current_size s),
     {| memory_size := memory_size s; key_dim := key_dim s;
        keys := <[current_size s := key]> (keys s);
        values := <[current_size s := value]> (values s);
        usage := <[current_size s := fone]> (usage s);
        current_size := current_size s + 1 |}).
Proof.
  intros Hlt Hk Hv. unfold write, bindM, modify_, ret.
  rewrite (proj2 (Nat.ltb_lt _ _) Hlt). simpl.
  rewrite (assign_row_ok _ _ _ key) by done. simpl.
  by rewrite (assign_row_ok _ _ _ value) by done.
Qed.

(** C5, at the dimensions the processor is built with.  The store's key
    dimension is the hidden dimension, an interaction embedding has the
    embedding dimension: when the two differ the write raises, the exception
    is swallowed, nothing is stored and the decay pass never runs; only the
    slot counter has moved. *)
Theorem update_interaction_dimension_mismatch (cfg : Settings) (p : GNNProcessor F)
    (user_input system_response : string) (embedding : list F) :
  key_dim (external_memory p) = GNN_HIDDEN_DIM cfg ->
  length embedding = VECTOR_DIMENSION cfg ->
  VECTOR_DIMENSION cfg <> GNN_HIDDEN_DIM cfg ->
  VECTOR_DIMENSION cfg <> 1 ->
  current_size (external_memory p) < memory_size (external_memory p) ->
  let p' := update_memory_with_interaction cfg user_input system_response embedding p in
  keys (external_memory p') = keys (external_memory p)
  /\ values (external_memory p') = values (external_memory p)
  /\ usage (external_memory p') = usage (external_memory p)
  /\ current_size (external_memory p') = current_size (external_memory p) + 1.
Proof.
  intros Hkd Hlen Hne H1 Hlt p'. subst p'.
  unfold update_memory_with_interaction, update_memory_with_interaction_try,
    bindM, on_external_memory.
  rewrite write_raise_below_capacity by (done || congruence). done.
Qed.

(** With an embedding of the store's key dimension the update does what its
    docstring says: the pair is stored, then the decay pass runs. *)
Lemma update_interaction_matching_dimension (cfg : Settings) (p : GNNProcessor F)
    (user_input system_response : string) (embedding : list F) :
  length embedding = key_dim (external_memory p) ->
  current_size (external_memory p) < memory_size (external_memory p) ->
  external_memory (update_memory_with_interaction cfg user_input system_response embedding p) =
    apply_memory_decay (flit (MEMORY_DECAY_FACTOR cfg))
      (write embedding embedding (external_memory p)).2.
Proof.
  intros Hlen Hlt.
  unfold update_memory_with_interaction, update_memory_with_interaction_try,
    bindM, on_external_memory, _apply_memory_decay, modify_.
  rewrite write_below_capacity by done. done.
Qed.

End WriteFailure.

(** ** Cosine similarities *)

Section Similarities.
Context {F : Type} `{Scalar F}.

Lemma has_width_Forall (w : nat) (m : list (list F)) :
  has_width w m = true <-> Forall (fun r => length r = w) m.
Proof.
  unfold has_width. rewrite forallb_forall, Forall_forall. split.
  - intros Hm r Hr. apply Nat.eqb_eq, Hm. by apply list_elem_of_In.
  - intros Hm r Hr. apply Nat.eqb_eq, Hm. by apply list_elem_of_In.
Qed.

Lemma dot_rows_inv (m : list (list F)) (q s : list F) :
  dot_rows m q = Ok s ->
  s = map (fun r => sum_products r q) m /\ Forall (fun r => length r = length q) m.
Proof.
  revert s. induction m as [|r m IH]; intros s; simpl.
  - intros [= <-]. by split.
  - unfold dot1. destruct (decide (length r = length q)) as [Hr|Hr]; simpl; [|done].
    destruct (dot_rows m q) as [xs|]; simpl; [|done].
    intros [= <-]. destruct (IH xs eq_refl) as [-> Hm]. split; [done | by constructor].
Qed.

Lemma dot_rows_ok (m : list (list F)) (q : list F) :
  Forall (fun r => length r = length q) m ->
  dot_rows m q = Ok (map (fun r => sum_products r q) m).
Proof.
  induction 1 as [|r m Hr Hm IH]; simpl; [done|].
  unfold dot1. rewrite decide_True by done. simpl. by rewrite IH.
Qed.

Lemma zip_with_map_self {A B C} (f : B -> A -> C) (g : A -> B) (l : list A) :
  zip_with f (map g l) l = map (fun a => f (g a) a) l.
Proof. induction l as [|a l IH]; simpl; [done | by rewrite IH]. Qed.

(** When the widths agree the three numpy lines compute [cos_sim] row by
    row. *)
Lemma similarities_of_ok (w : nat) (m : list (list F)) (q : list F) :
  w = length q -> has_width w m = true ->
  similarities_of w m q = Ok (map (fun r => cos_sim r q) m).
Proof.
  intros -> Hm. unfold similarities_of, np_dot. rewrite decide_True by done.
  rewrite dot_rows_ok by (by apply has_width_Forall). simpl.
  by rewrite zip_with_map_self, map_map.
Qed.

Lemma similarities_of_inv (w : nat) (m : list (list F)) (q sims : list F) :
  similarities_of w m q = Ok sims ->
  w = length q /\ sims = map (fun r => cos_sim r q) m.
Proof.
  unfold similarities_of, np_dot. destruct (decide (w = length q)) as [->|]; [|done].
  destruct (dot_rows m q) as [s|] eqn:E; simpl; [|done].
  apply dot_rows_inv in E as [-> Hm]. intros [= <-]. split; [done|].
  by rewrite zip_with_map_self, map_map.
Qed.

Lemma similarities_of_raise (w : nat) (m : list (list F)) (q : list F) :
  w <> length q -> similarities_of w m q = Raise.
Proof. intros Hw. unfold similarities_of, np_dot. by rewrite decide_False. Qed.

Lemma take1_reverse {A} (l : list A) (a : A) :
  last l = Some a -> take 1 (reverse l) = [a].
Proof. intros [l' ->]%last_Some. by rewrite reverse_snoc. Qed.

End Similarities.

(** ** Reading back what was written *)

Section RoundTrip.
Context {F : Type} `{ScalarOrder F} `{!SortContract F}.

(** The last position of [argsort] is the position of the value that is
    strictly above all others, when there is one. *)
Lemma argsort_last_strict_max (a : list F) (i : nat) (v : F) :
  a !! i = Some v ->
  (forall j w, j <> i -> a !! j = Some w -> fltb w v = true) ->
  last (argsort a) = Some i.
Proof.
  intros Hi Hmax.
  assert (i < length a) as Hlt by (by eapply lookup_lt_Some).
  rewrite last_lookup, length_argsort.
  destruct (lookup_lt_is_Some_2 (argsort a) (pred (length a))) as [l Hl];
    [rewrite length_argsort; lia|].
  rewrite Hl. f_equal.
  destruct (decide (l = i)) as [|Hne]; [done | exfalso].
  assert (i ∈ argsort a) as [p Hp]%list_elem_of_lookup_1
    by (rewrite argsort_perm; apply elem_of_seq; lia).
  assert (p < length a) as Hpl
    by (rewrite <- length_argsort; by eapply lookup_lt_Some).
  assert (p <> pred (length a)) as Hpne by (intros ->; congruence).
  assert (l < length a) as Hll by (apply argsort_lt; by eapply list_elem_of_lookup_2).
  destruct (lookup_lt_is_Some_2 a l Hll) as [vl Hvl].
  pose proof (Hmax l vl Hne Hvl) as Hlv.
  assert (fltb vl v = false) as Hc.
  { eapply (argsort_ascending a p (pred (length a))); [lia | done..]. }
  congruence.
Qed.

(** What a returning [write] of a key and a value of the store's dimension
    leaves behind. *)
Lemma write_ok_inv (key value : list F) (s s' : ExternalMemory F) (idx : nat) :
  wf_memory s ->
  length key = key_dim s ->
  length value = key_dim s ->
  write key value s = (Ok idx, s') ->
  idx < current_size s' /\ key_dim s' = key_dim s
  /\ keys s' !! idx = Some key /\ values s' !! idx = Some value.
Proof.
  intros Hwf Hk Hv Hw. pose proof Hwf as [Hlk Hlv Hlu Hkr Hvr Hc].
  destruct (decide (current_size s < memory_size s)) as [Hlt|Hge].
  - rewrite write_below_capacity in Hw by done. injection Hw as <- <-. simpl.
    repeat split; [lia | apply list_lookup_insert_eq; lia ..].
  - destruct (decide (0 < memory_size s)) as [Hpos|Hz].
    + destruct (argmin_spec (usage s)) as (i & u & Ha & Hi & _); [lia|].
      rewrite (write_full key value s i) in Hw by (done || lia).
      injection Hw as <- <-. simpl.
      repeat split; [lia | apply list_lookup_insert_eq; lia ..].
    + unfold write, bindM in Hw. rewrite (proj2 (Nat.ltb_ge _ _)) in Hw by lia.
      destruct (usage s) as [|u us] eqn:Eu; [done|]. simpl in Hlu. lia.
Qed.

(** C9, as the code has it.  After a returning [write(K, V)] of a key and a
    value of the store's dimension, [read(K, 1)] returns [V] provided every
    other occupied slot is strictly less similar to [K] than the written slot
    is (as when the store was empty); the similarity returned is
    K.K / (|K| + 1e-8)^2, and the slot's usage is bumped by 0.1. *)
Theorem write_read_round_trip (key value : list F) (s s' : ExternalMemory F) (idx : nat) :
  wf_memory s ->
  length key = key_dim s ->
  length value = key_dim s ->
  write key value s = (Ok idx, s') ->
  (forall j r, j < current_size s' -> j <> idx -> keys s' !! j = Some r ->
     fltb (cos_sim r key) (cos_sim key key) = true) ->
  read key 1 s' =
    (Ok ([value], [cos_sim key key]), set_usage (bump_usage [idx] (usage s')) s').
Proof.
  intros Hwf Hk Hv Hw Hbest.
  destruct (write_ok_inv key value s s' idx Hwf Hk Hv Hw) as (Hidx & Hkd & Hki & Hvi).
  pose proof (write_wf key value s Hwf) as Hwf'. rewrite Hw in Hwf'. simpl in Hwf'.
  destruct Hwf' as [Hlk' Hlv' Hlu' Hkr' Hvr' Hc'].
  unfold read. rewrite (proj2 (Nat.eqb_neq _ _)) by lia.
  rewrite similarities_of_ok; [|congruence|].
  2:{ apply has_width_Forall, Forall_take. by apply has_width_Forall. }
  set (sims := map _ _).
  assert (sims !! idx = Some (cos_sim key key)) as Hsi.
  { unfold sims. change (map ?f ?l) with (f <$> l).
    by rewrite list_lookup_fmap, lookup_take_lt, Hki by done. }
  assert (last (argsort sims) = Some idx) as Hlast.
  { apply (argsort_last_strict_max sims idx _ Hsi). intros j w Hj Hjw.
    unfold sims in Hjw. change (map ?f ?l) with (f <$> l) in Hjw.
    rewrite list_lookup_fmap in Hjw.
    destruct (take _ _ !! j) as [r|] eqn:Er; [|done]. simpl in Hjw. injection Hjw as <-.
    apply lookup_take_Some in Er as [Er Hjc]. by eapply Hbest. }
  change (slice_to 1 (reverse (argsort sims))) with (take 1 (reverse (argsort sims))).
  rewrite (take1_reverse _ _ Hlast).
  unfold gather. simpl. rewrite Hvi, Hsi. done.
Qed.

End RoundTrip.

(** ** Node states *)

Section NodeStates.
Context {F : Type} `{Scalar F}.
Variable cfg : Settings.
Variable gauss : nat -> nat -> F.

Lemma length_torch_randn (c n : nat) : length (torch_randn gauss c n) = n.
Proof. unfold torch_randn. by rewrite length_map, length_seq. Qed.

(** The loop of [_get_memory_states] from any intermediate point: one state
    is appended per identity, recorded states are never overwritten, and the
    state of an identity that had none is a vector drawn during the loop. *)
Lemma get_states_loop (ids : list string) (states : list (list F)) (p : GNNProcessor F) :
  exists new p',
    fold_left (get_state_step cfg gauss) ids (states, p) = (states ++ new, p')
    /\ length new = length ids
    /\ (forall k v, node_memory_states p !! k = Some v -> node_memory_states p' !! k = Some v)
    /\ randn_calls p <= randn_calls p'
    /\ (forall j k, ids !! j = Some k ->
          exists v, new !! j = Some v /\ node_memory_states p' !! k = Some v
            /\ (node_memory_states p !! k = None ->
                exists c, randn_calls p <= c < randn_calls p'
                          /\ v = torch_randn gauss c (GNN_HIDDEN_DIM cfg)))
    /\ (map_Forall (fun _ v => length v = GNN_HIDDEN_DIM cfg) (node_memory_states p) ->
        Forall (fun v => length v = GNN_HIDDEN_DIM cfg) new)
    /\ external_memory p' = external_memory p
    /\ model p' = model p.
Proof.
  revert states p. induction ids as [|k0 ids IH]; intros states p; simpl.
  - exists [], p. rewrite app_nil_r. repeat split; try done.
  - destruct (node_memory_states p !! k0) as [v0|] eqn:E0.
    + destruct (IH (states ++ [v0]) p)
        as (new & p' & Hf & Hlen & Hmono & Hcalls & Hpos & Hdim & Hext & Hmod).
      exists (v0 :: new), p'. rewrite Hf, <- app_assoc. simpl.
      repeat split; try done; [by rewrite Hlen | |].
      * intros [|j] k Hk; simpl in *.
        -- injection Hk as <-. exists v0. repeat split; [by apply Hmono | congruence].
        -- by apply Hpos.
      * intros Hall. constructor; [by eapply Hall | by apply Hdim].
    + set (r := torch_randn gauss (randn_calls p) (GNN_HIDDEN_DIM cfg)).
      set (p1 := set_randn_calls _ _).
      destruct (IH (states ++ [r]) p1)
        as (new & p' & Hf & Hlen & Hmono & Hcalls & Hpos & Hdim & Hext & Hmod).
      assert (node_memory_states p' !! k0 = Some r) as Hk0
        by (apply Hmono; simpl; apply lookup_insert_eq).
      exists (r :: new), p'. rewrite Hf, <- app_assoc. simpl in *.
      repeat split; try done; [by rewrite Hlen | | lia | |].
      * intros k v Hkv. apply Hmono. simpl.
        rewrite lookup_insert_ne; [done | congruence].
      * intros [|j] k Hk; simpl in *.
        -- injection Hk as <-. exists r. repeat split; [done|].
           intros _. exists (randn_calls p). split; [lia | done].
        -- destruct (Hpos j k Hk) as (v & Hv & Hkv & Hnew). exists v.
           repeat split; [done..|]. intros Hnone.
           destruct (decide (k = k0)) as [->|Hne].
           ++ exists (randn_calls p). split; [lia|].
              rewrite Hk0 in Hkv. by injection Hkv as <-.
           ++ destruct Hnew as (c & Hc & ->); [by rewrite lookup_insert_ne|].
              exists c. split; [lia | done].
      * intros Hall. constructor; [apply length_torch_randn|].
        apply Hdim. apply map_Forall_insert_2; [apply length_torch_randn | done].
Qed.


End NodeStates.

(** ** The forward pass: shapes *)

Section ForwardShapes.
Context {F : Type} `{Scalar F}.
Variable W : Weights F.

Lemma checked_inv (a b : nat) (u v z : list (list F)) :
  checked a b u v = Ok z ->
  z = v /\ has_width a u = true /\ length v = length u /\ has_width b v = true.
Proof.
  unfold checked, has_shape.
  destruct (has_width a u); simpl; [|done].
  destruct (length v =? length u) eqn:E; simpl; [|done].
  destruct (has_width b v); simpl; [|done].
  intros [= <-]. apply Nat.eqb_eq in E. done.
Qed.

Lemma checked_raise (a b : nat) (u v : list (list F)) :
  has_width a u = false -> checked a b u v = Raise.
Proof. intros Hu. unfold checked. by rewrite Hu. Qed.

Lemma length_add_rows (a b : list (list F)) :
  length b = length a -> length (add_rows a b) = length a.
Proof. intros Hb. unfold add_rows. rewrite length_zip_with. lia. Qed.

Lemma conv_loop_length (cs : list (nat * nat)) (i : nat) (u y : list (list F))
    (e : list (nat * nat)) :
  conv_loop W i cs u e = Ok y -> length y = length u.
Proof.
  revert i u. induction cs as [|[din dout] cs IH]; intros i u; simpl.
  - by intros [= <-].
  - unfold SAGEConv. destruct (checked din dout u (sage W i u e)) as [x_new|] eqn:Ec; simpl; [|done].
    apply checked_inv in Ec as (-> & _ & Hlen & _).
    intros Hy. apply IH in Hy. rewrite Hy.
    destruct ((0 <? i) && (din =? dout)).
    + apply length_add_rows. by rewrite length_map.
    + by rewrite length_map.
Qed.

(** What a returning forward pass guarantees: the input has the width of the
    first layer, and the combined embeddings have one row of the hidden width
    per node, each with its sigmoid activation. *)
Lemma forward_inv (m : GraphSAGEMemory) (data : Data F)
    (states : option (list (list F))) (out : Output F) :
  forward W m data states = Ok out ->
  has_width (input_dim m + 2) (x data) = true
  /\ length (node_embeddings out) = length (x data)
  /\ has_width (hidden_dim m) (node_embeddings out) = true
  /\ activation_scores out =
       map (fun r => fsigmoid (activation_head W r)) (node_embeddings out).
Proof.
  unfold forward.
  destruct (conv_loop W 0 (convs m) (x data) (edge_index data)) as [ne|] eqn:Ec; simpl; [|done].
  pose proof (conv_loop_length _ _ _ _ _ Ec) as Hne.
  assert (has_width (input_dim m + 2) (x data) = true) as Hin.
  { unfold convs in Ec. simpl in Ec. unfold SAGEConv in Ec.
    destruct (checked _ _ _ _) eqn:E1; simpl in Ec; [|done].
    by apply checked_inv in E1 as (_ & ? & _). }
  unfold MemoryGRU_forward, GRUCell.
  destruct (has_shape (length ne) (hidden_dim m) _); simpl; [|done].
  destruct (checked (hidden_dim m) (hidden_dim m) ne _) as [nms|] eqn:Eg; simpl; [|done].
  apply checked_inv in Eg as (-> & _ & Hg & _).
  unfold memory_attention.
  destruct (checked (hidden_dim m) (hidden_dim m) _ _) as [att|] eqn:Ea; simpl; [|done].
  apply checked_inv in Ea as (-> & _ & Ha & _).
  destruct (has_width (hidden_dim m) (add_rows ne _)) eqn:Ew; [|done].
  intros [= <-]. simpl. repeat split; [done | | done].
  rewrite length_add_rows; [done|]. by rewrite Ha, Hg.
Qed.

Lemma forward_raise_width (m : GraphSAGEMemory) (data : Data F)
    (states : option (list (list F))) :
  has_width (input_dim m + 2) (x data) = false ->
  forward W m data states = Raise.
Proof.
  intros Hw. unfold forward, convs. simpl. unfold SAGEConv.
  by rewrite checked_raise.
Qed.

End ForwardShapes.

(** ** Activation *)

Section Activation.
Context {F : Type} `{ScalarOrder F} `{!SortContract F}.
Variable cfg : Settings.
Variable W : Weights F.
Variable gauss : nat -> nat -> F.

Lemma torch_tensor_inv (rows t : list (list F)) :
  torch_tensor rows = Ok t -> t = rows.
Proof.
  unfold torch_tensor. destruct rows as [|r rows]; [by intros [= <-]|].
  destruct (has_width _ _); [by intros [= <-] | done].
Qed.

Lemma create_graph_data_inv (memory_nodes : list (MemoryNode F))
    (memory_edges : list (MemoryEdge F)) (data : Data F) :
  create_graph_data memory_nodes memory_edges = Ok data ->
  x data = map node_features memory_nodes.
Proof.
  unfold create_graph_data. destruct memory_nodes as [|n ns]; [by intros [= <-]|].
  destruct (torch_tensor _) as [t|] eqn:Et; simpl; [|done].
  apply torch_tensor_inv in Et as ->.
  destruct (fold_left _ _ _) as [ei ew]. by intros [= <-].
Qed.

Lemma get_memory_states_model (node_ids : list string) (p : GNNProcessor F) :
  model (_get_memory_states cfg gauss node_ids p).2 = model p.
Proof.
  unfold _get_memory_states.
  destruct (get_states_loop cfg gauss node_ids [] p) as (new & p' & Hf & _ & _ & _ & _ & _ & _ & Hm).
  rewrite Hf. simpl. destruct new as [|r new]; [done|].
  by destruct (torch_stack _).
Qed.

Lemma slice_to_take {A} (k : Z) (l : list A) : exists m, slice_to k l = take m l.
Proof. unfold slice_to. destruct (0 <=? k)%Z; eauto. Qed.

Lemma length_slice_to {A} (k : Z) (l : list A) :
  (0 <= k)%Z -> length (slice_to k l) = Nat.min (Z.to_nat k) (length l).
Proof.
  intros Hk. unfold slice_to. rewrite (proj2 (Z.leb_le _ _) Hk). apply length_take.
Qed.

(** The loop building [activated_memories] keeps every position in range, in
    order. *)
Lemma collect_spec (memory_nodes : list (MemoryNode F)) (final_scores similarities : list F)
    (top_indices : list nat) :
  length final_scores = length memory_nodes ->
  length similarities = length memory_nodes ->
  Forall (fun idx => idx < length memory_nodes) top_indices ->
  length (collect memory_nodes final_scores similarities top_indices) = length top_indices
  /\ forall a idx, top_indices !! a = Some idx ->
       exists node f s,
         memory_nodes !! idx = Some node /\ final_scores !! idx = Some f
         /\ similarities !! idx = Some s
         /\ collect memory_nodes final_scores similarities top_indices !! a
            = Some {| memory := node; activation_score := f; similarity_score := s |}.
Proof.
  intros Hf Hs. induction 1 as [|idx top Hidx Htop [IHlen IH]]; [by split|].
  destruct (lookup_lt_is_Some_2 memory_nodes idx Hidx) as [node Hn].
  destruct (lookup_lt_is_Some_2 final_scores idx) as [f Hfi]; [lia|].
  destruct (lookup_lt_is_Some_2 similarities idx) as [s Hsi]; [lia|].
  unfold collect in *. cbn [omap list_omap].
  rewrite (proj2 (Nat.ltb_lt _ _) Hidx), Hn, Hfi, Hsi. simpl.
  split; [by rewrite IHlen|].
  intros [|a] i Hi; simpl in *.
  - injection Hi as <-. by exists node, f, s.
  - by apply IH.
Qed.

(** The anatomy of a returning activation: the combined embeddings [ne] of the
    model, one row of the hidden dimension per candidate, determine the
    similarities, the blended scores, the ranking and the returned list. *)
Lemma activate_ok_structure (memory_nodes : list (MemoryNode F))
    (memory_edges : list (MemoryEdge F)) (query_embedding : list F) (top_k : Z)
    (p p' : GNNProcessor F) (r : list (Activated F)) :
  memory_nodes <> [] ->
  activate_memories_try cfg W gauss memory_nodes memory_edges query_embedding top_k p
    = (Ok r, p') ->
  exists ne : list (list F),
    length ne = length memory_nodes
    /\ has_width (length query_embedding) ne = true
    /\ length query_embedding = hidden_dim (model p)
    /\ Forall (fun n => length (embedding n) = input_dim (model p)) memory_nodes
    /\ r = collect memory_nodes
             (zip_with final_score (map (fun r => cos_sim r query_embedding) ne)
                (map (fun r => fsigmoid (activation_head W r)) ne))
             (map (fun r => cos_sim r query_embedding) ne)
             (slice_to top_k (reverse (argsort
                (zip_with final_score (map (fun r => cos_sim r query_embedding) ne)
                   (map (fun r => fsigmoid (activation_head W r)) ne))))).
Proof.
  intros Hne. unfold activate_memories_try.
  destruct memory_nodes as [|n0 ns]; [done|].
  set (nodes := n0 :: ns) in *.
  unfold bindM, lift, get_, modify_, ret, on_external_memory.
  destruct (create_graph_data nodes memory_edges) as [data|] eqn:Eg; [|done].
  apply create_graph_data_inv in Eg.
  pose proof (get_memory_states_model (map id nodes) p) as Hmod.
  destruct (_get_memory_states cfg gauss (map id nodes) p) as [states p1].
  simpl in Hmod.
  destruct (forward W (model p1) data states) as [out|] eqn:Ef; [|done].
  apply forward_inv in Ef as (Hin & Hlen & Hw & Hact).
  rewrite Hmod in *. rewrite Eg in Hin, Hlen. rewrite length_map in Hlen.
  destruct (similarities_of _ _ _) as [sims|] eqn:Es; [|done].
  apply similarities_of_inv in Es as [Hwq ->].
  simpl.
  destruct (read _ _ _) as [[o|] e]; [|done].
  intros [= <- _]. exists (node_embeddings out).
  assert (length query_embedding = hidden_dim (model p)) as Hq.
  { rewrite <- Hwq. destruct (node_embeddings out) as [|r0 rs]; [done|].
    simpl. apply has_width_Forall in Hw. by inversion Hw. }
  rewrite Hq, Hact. repeat split; try done.
  apply has_width_Forall in Hin. apply Forall_forall. intros n Hn.
  rewrite Forall_forall in Hin.
  specialize (Hin (node_features n) (list_elem_of_fmap_2 _ _ _ Hn)).
  unfold node_features in Hin. rewrite length_app in Hin. simpl in Hin. lia.
Qed.

(** Positions of the ranking are positions of candidates. *)
Lemma top_indices_in_range (scores : list F) (top_k : Z) :
  Forall (fun idx => idx < length scores) (slice_to top_k (reverse (argsort scores))).
Proof.
  destruct (slice_to_take top_k (reverse (argsort scores))) as [m ->].
  apply Forall_take, Forall_reverse, Forall_forall. intros i Hi. by apply argsort_lt.
Qed.

Lemma length_final_scores (ne : list (list F)) (q : list F) :
  length (zip_with final_score (map (fun r => cos_sim r q) ne)
            (map (fun r => fsigmoid (activation_head W r)) ne)) = length ne.
Proof. rewrite length_zip_with, !length_map. lia. Qed.

Lemma lookup_final_scores (ne : list (list F)) (q : list F) (i : nat) :
  zip_with final_score (map (fun r => cos_sim r q) ne)
    (map (fun r => fsigmoid (activation_head W r)) ne) !! i
  = blended_score W q <$> ne !! i.
Proof.
  revert i. induction ne as [|row ne IH]; intros [|i]; try done. apply IH.
Qed.

(** The same anatomy, with the graph and the output of the forward pass
    named: the rows that determine the scores are the combined embeddings
    the model returned for this call. *)
Lemma activate_ok_anatomy (memory_nodes : list (MemoryNode F))
    (memory_edges : list (MemoryEdge F)) (query_embedding : list F) (top_k : Z)
    (p p' : GNNProcessor F) (r : list (Activated F)) :
  memory_nodes <> [] ->
  activate_memories_try cfg W gauss memory_nodes memory_edges query_embedding top_k p
    = (Ok r, p') ->
  exists (data : Data F) (out : Output F),
    create_graph_data memory_nodes memory_edges = Ok data
    /\ forward W (model p) data
         (_get_memory_states cfg gauss (map id memory_nodes) p).1 = Ok out
    /\ length (node_embeddings out) = length memory_nodes
    /\ r = collect memory_nodes
             (zip_with final_score
                (map (fun r => cos_sim r query_embedding) (node_embeddings out))
                (map (fun r => fsigmoid (activation_head W r)) (node_embeddings out)))
             (map (fun r => cos_sim r query_embedding) (node_embeddings out))
             (slice_to top_k (reverse (argsort
                (zip_with final_score
                   (map (fun r => cos_sim r query_embedding) (node_embeddings out))
                   (map (fun r => fsigmoid (activation_head W r)) (node_embeddings out)))))).
Proof.
  intros Hne. unfold activate_memories_try.
  destruct memory_nodes as [|n0 ns]; [done|].
  set (nodes := n0 :: ns) in *.
  unfold bindM, lift, get_, modify_, ret, on_external_memory.
  destruct (create_graph_data nodes memory_edges) as [data|] eqn:Eg; [|done].
  pose proof (create_graph_data_inv _ _ _ Eg) as Hx.
  pose proof (get_memory_states_model (map id nodes) p) as Hmod.
  destruct (_get_memory_states cfg gauss (map id nodes) p) as [states p1].
  cbn [fst snd] in *. rewrite Hmod.
  destruct (forward W (model p) data states) as [out|] eqn:Ef; [|done].
  pose proof (forward_inv W _ _ _ _ Ef) as (Hin & Hlen & Hw & Hact).
  rewrite Hx, length_map in Hlen.
  destruct (similarities_of _ _ _) as [sims|] eqn:Es; [|done].
  apply similarities_of_inv in Es as [Hwq ->].
  cbn [fst snd].
  destruct (read _ _ _) as [[o|] e]; [|done].
  intros [= <- _]. exists data, out. rewrite Hact. by split_and!.
Qed.

End Activation.

Section ActivationClaims.
Context {F : Type} `{ScalarOrder F} `{!SortContract F}.
Variable cfg : Settings.
Variable W : Weights F.
Variable gauss : nat -> nat -> F.

(** In [np.argsort(scores)[::-1][:k]] an earlier position never has the lower
    score. *)
Lemma ranking_order (scores : list F) (top_k : Z) (a b ia ib : nat) (fa fb : F) :
  a < b ->
  slice_to top_k (reverse (argsort scores)) !! a = Some ia ->
  slice_to top_k (reverse (argsort scores)) !! b = Some ib ->
  scores !! ia = Some fa ->
  scores !! ib = Some fb ->
  fltb fa fb = false.
Proof.
  intros Hab Ha Hb Hfa Hfb.
  destruct (slice_to_take top_k (reverse (argsort scores))) as [m Hm].
  rewrite Hm in Ha, Hb.
  apply lookup_take_Some in Ha as [Ha _]. apply lookup_take_Some in Hb as [Hb _].
  apply reverse_lookup_Some in Ha as [Ha Hla]. apply reverse_lookup_Some in Hb as [Hb Hlb].
  eapply (argsort_ascending scores); [|exact Hb|exact Ha|done..]. lia.
Qed.

Lemma NoDup_top_indices (scores : list F) (top_k : Z) :
  NoDup (slice_to top_k (reverse (argsort scores))).
Proof.
  destruct (slice_to_take top_k (reverse (argsort scores))) as [m ->].
  eapply sublist_NoDup; [|apply sublist_take].
  rewrite reverse_Permutation. apply NoDup_argsort.
Qed.

(** C6, as the code has it.  For a non-empty candidate list and a non-negative
    [top_k]: when the [try] block runs to its end the list returned has
    min(top_k, number of candidates) entries; when an exception is raised
    inside it the list returned is empty. *)
Theorem activate_length (memory_nodes : list (MemoryNode F))
    (memory_edges : list (MemoryEdge F)) (query_embedding : list F) (top_k : Z)
    (p : GNNProcessor F) :
  memory_nodes <> [] ->
  (0 <= top_k)%Z ->
  match (activate_memories_try cfg W gauss memory_nodes memory_edges query_embedding top_k p).1 with
  | Ok r =>
      (activate_memories cfg W gauss memory_nodes memory_edges query_embedding top_k p).1 = r
      /\ length r = Nat.min (Z.to_nat top_k) (length memory_nodes)
  | Raise =>
      (activate_memories cfg W gauss memory_nodes memory_edges query_embedding top_k p).1 = []
  end.
Proof.
  intros Hne Hk. unfold activate_memories.
  destruct (activate_memories_try _ _ _ _ _ _ _ _) as [[r|] p'] eqn:E; simpl; [|done].
  split; [done|].
  destruct (activate_ok_structure cfg W gauss _ _ _ _ _ _ _ Hne E)
    as (ne & Hlen & Hw & Hq & Hemb & ->).
  set (sims := map (fun r => cos_sim r query_embedding) ne).
  set (acts := map (fun r => fsigmoid (activation_head W r)) ne).
  set (finals := zip_with final_score sims acts).
  set (top := slice_to top_k (reverse (argsort finals))).
  assert (length finals = length memory_nodes) as Hlf
    by (unfold finals, sims, acts; by rewrite length_final_scores).
  assert (length sims = length memory_nodes) as Hls
    by (unfold sims; by rewrite length_map).
  assert (Forall (fun idx => idx < length memory_nodes) top) as Htop
    by (rewrite <- Hlf; apply top_indices_in_range).
  destruct (collect_spec memory_nodes finals sims top Hlf Hls Htop) as [Hl _].
  rewrite Hl. unfold top. rewrite length_slice_to by done.
  by rewrite length_reverse, length_argsort, Hlf.
Qed.

(** C3, as the code has it.  The returned list follows a duplicate-free list
    of candidate positions; each entry's blended score is
    0.7 x its similarity + 0.3 x a sigmoid activation; and an earlier entry
    never has the lower blended score.  This holds whatever order
    [np.argsort] gives to equal scores: the code fixes no order among
    entries whose blended scores are equal. *)
Theorem activate_sorted (memory_nodes : list (MemoryNode F))
    (memory_edges : list (MemoryEdge F)) (query_embedding : list F) (top_k : Z)
    (p : GNNProcessor F) :
  exists top_indices : list nat,
    length top_indices =
      length (activate_memories cfg W gauss memory_nodes memory_edges query_embedding top_k p).1
    /\ NoDup top_indices
    /\ (forall a idx e,
          top_indices !! a = Some idx ->
          (activate_memories cfg W gauss memory_nodes memory_edges query_embedding top_k p).1 !! a
            = Some e ->
          memory_nodes !! idx = Some (memory e)
          /\ exists z, activation_score e = final_score (similarity_score e) (fsigmoid z))
    /\ (forall a b ea eb,
          a < b ->
          (activate_memories cfg W gauss memory_nodes memory_edges query_embedding top_k p).1 !! a
            = Some ea ->
          (activate_memories cfg W gauss memory_nodes memory_edges query_embedding top_k p).1 !! b
            = Some eb ->
          fltb (activation_score ea) (activation_score eb) = false).
Proof.
  unfold activate_memories.
  destruct (activate_memories_try _ _ _ _ _ _ _ _) as [[r|] p'] eqn:E; simpl;
    [|exists []; repeat split; [constructor | done..]].
  destruct (decide (memory_nodes = [])) as [->|Hne].
  { simpl in E. injection E as <- _. exists []. repeat split; [constructor | done..]. }
  destruct (activate_ok_structure cfg W gauss _ _ _ _ _ _ _ Hne E)
    as (ne & Hlen & Hw & Hq & Hemb & ->).
  set (sims := map (fun r => cos_sim r query_embedding) ne).
  set (acts := map (fun r => fsigmoid (activation_head W r)) ne).
  set (finals := zip_with final_score sims acts).
  set (top := slice_to top_k (reverse (argsort finals))).
  assert (length finals = length memory_nodes) as Hlf
    by (unfold finals, sims, acts; by rewrite length_final_scores).
  assert (length sims = length memory_nodes) as Hls
    by (unfold sims; by rewrite length_map).
  assert (Forall (fun idx => idx < length memory_nodes) top) as Htop
    by (rewrite <- Hlf; apply top_indices_in_range).
  destruct (collect_spec memory_nodes finals sims top Hlf Hls Htop) as [Hl Hc].
  exists top. split_and!.
  - done.
  - apply NoDup_top_indices.
  - intros a idx e Ha He.
    destruct (Hc a idx Ha) as (node & f & s & Hn & Hf & Hs & Hr).
    rewrite Hr in He. injection He as <-. simpl. split; [done|].
    unfold finals in Hf. apply lookup_zip_with_Some in Hf as (s' & z & -> & Hs' & Hz).
    assert (s' = s) as -> by congruence.
    unfold acts in Hz. change (map ?f ?l) with (f <$> l) in Hz.
    apply list_lookup_fmap_Some_1 in Hz as (row & -> & _). eauto.
  - intros a b ea eb Hab Hea Heb.
    destruct (lookup_lt_is_Some_2 top a) as [ia Hia];
      [rewrite <- Hl; by eapply lookup_lt_Some|].
    destruct (lookup_lt_is_Some_2 top b) as [ib Hib];
      [rewrite <- Hl; by eapply lookup_lt_Some|].
    destruct (Hc a ia Hia) as (na & fa & sa & _ & Hfa & _ & Hra).
    destruct (Hc b ib Hib) as (nb & fb & sb & _ & Hfb & _ & Hrb).
    rewrite Hra in Hea. rewrite Hrb in Heb. injection Hea as <-. injection Heb as <-. simpl.
    by eapply (ranking_order finals top_k a b ia ib fa fb).
Qed.

(** C4, as the code has it.  A candidate whose embedding has not the model's
    input dimension makes the whole call return the empty list: nothing is
    replaced by a zero vector, and no other candidate is ranked. *)
Theorem activate_malformed_aborts (memory_nodes : list (MemoryNode F))
    (memory_edges : list (MemoryEdge F)) (query_embedding : list F) (top_k : Z)
    (p : GNNProcessor F) (n : MemoryNode F) :
  n ∈ memory_nodes ->
  length (embedding n) <> input_dim (model p) ->
  (activate_memories cfg W gauss memory_nodes memory_edges query_embedding top_k p).1 = [].
Proof.
  intros Hn Hbad. unfold activate_memories.
  destruct (activate_memories_try _ _ _ _ _ _ _ _) as [[r|] p'] eqn:E; simpl; [|done].
  assert (memory_nodes <> []) as Hne by (intros ->; by apply elem_of_nil in Hn).
  destruct (activate_ok_structure cfg W gauss _ _ _ _ _ _ _ Hne E)
    as (ne & Hlen & Hw & Hq & Hemb & ->).
  rewrite Forall_forall in Hemb. by specialize (Hemb n Hn).
Qed.

(** The query is compared with the combined embeddings, which have the
    hidden dimension: a query of any other length empties the result too. *)
Lemma activate_query_dimension (memory_nodes : list (MemoryNode F))
    (memory_edges : list (MemoryEdge F)) (query_embedding : list F) (top_k : Z)
    (p : GNNProcessor F) :
  memory_nodes <> [] ->
  length query_embedding <> hidden_dim (model p) ->
  (activate_memories cfg W gauss memory_nodes memory_edges query_embedding top_k p).1 = [].
Proof.
  intros Hne Hbad. unfold activate_memories.
  destruct (activate_memories_try _ _ _ _ _ _ _ _) as [[r|] p'] eqn:E; simpl; [|done].
  by destruct (activate_ok_structure cfg W gauss _ _ _ _ _ _ _ Hne E)
    as (ne & Hlen & Hw & Hq & Hemb & ->).
Qed.

(** C1, as the code has it.  Nothing is clamped to [0, 1]: when a call
    returns entries, the graph was built and the forward pass returned, and
    every returned entry copies a candidate and carries, for the combined
    embedding [row] the forward pass gave that candidate,
    [similarity_score] = row.q / (|row| + 1e-8) / (|q| + 1e-8) and
    [activation_score] = 0.7 x that similarity + 0.3 x sigmoid(activation
    head of row), each as computed.  This holds for every scalar arithmetic,
    rounded or exact. *)
Theorem activate_scores_unclamped (memory_nodes : list (MemoryNode F))
    (memory_edges : list (MemoryEdge F)) (query_embedding : list F) (top_k : Z)
    (p : GNNProcessor F) :
  (activate_memories cfg W gauss memory_nodes memory_edges query_embedding top_k p).1 <> [] ->
  exists (data : Data F) (out : Output F),
    create_graph_data memory_nodes memory_edges = Ok data
    /\ forward W (model p) data
         (_get_memory_states cfg gauss (map id memory_nodes) p).1 = Ok out
    /\ Forall (fun e => exists idx row,
                 memory_nodes !! idx = Some (memory e)
                 /\ node_embeddings out !! idx = Some row
                 /\ similarity_score e = cos_sim row query_embedding
                 /\ activation_score e =
                      final_score (similarity_score e) (fsigmoid (activation_head W row)))
         (activate_memories cfg W gauss memory_nodes memory_edges query_embedding top_k p).1.
Proof.
  unfold activate_memories.
  destruct (activate_memories_try _ _ _ _ _ _ _ _) as [[r|] p'] eqn:E; cbn [fst]; [|done].
  intros Hr.
  destruct (decide (memory_nodes = [])) as [->|Hne].
  { simpl in E. by injection E as <- _. }
  destruct (activate_ok_anatomy cfg W gauss _ _ _ _ _ _ _ Hne E)
    as (data & out & Hg & Hf & Hlen & ->).
  exists data, out. split_and!; [done..|].
  set (ne := node_embeddings out) in *.
  set (sims := map (fun r => cos_sim r query_embedding) ne) in *.
  set (finals := zip_with final_score sims _) in *.
  set (top := slice_to top_k (reverse (argsort finals))) in *.
  assert (length finals = length memory_nodes) as Hlf
    by (unfold finals, sims; by rewrite length_final_scores).
  assert (length sims = length memory_nodes) as Hls
    by (unfold sims; by rewrite length_map).
  assert (Forall (fun idx => idx < length memory_nodes) top) as Htop
    by (rewrite <- Hlf; apply top_indices_in_range).
  destruct (collect_spec memory_nodes finals sims top Hlf Hls Htop) as [Hl Hc].
  apply Forall_lookup. intros a e He.
  destruct (lookup_lt_is_Some_2 top a) as [idx Hidx];
    [rewrite <- Hl; by eapply lookup_lt_Some|].
  destruct (Hc a idx Hidx) as (node & f & s & Hn & Hfi & Hs & Hre).
  rewrite Hre in He. injection He as <-. cbn [memory similarity_score activation_score].
  unfold finals, sims in Hfi. rewrite lookup_final_scores in Hfi.
  unfold sims in Hs. change (map ?f ?l) with (f <$> l) in Hs. rewrite list_lookup_fmap in Hs.
  destruct (ne !! idx) as [row|] eqn:Erow; [|done].
  simpl in Hfi, Hs. injection Hfi as <-. injection Hs as <-.
  by exists idx, row.
Qed.

End ActivationClaims.

(** ** The formulas over the reals *)

Section RealBounds.
Open Scope R_scope.

Lemma sum_products_cons (u v : R) (a b : list R) :
  sum_products (u :: a) (v :: b) = u * v + sum_products a b.
Proof. reflexivity. Qed.

Lemma sum_products_self_nonneg (a : list R) : 0 <= sum_products a a.
Proof.
  induction a as [|u a IH]; [unfold sum_products; simpl; lra|].
  rewrite sum_products_cons. nra.
Qed.

(** Cauchy-Schwarz for the sums numpy computes. *)
Lemma cauchy_schwarz (a b : list R) :
  sum_products a b * sum_products a b <= sum_products a a * sum_products b b.
Proof.
  revert b. induction a as [|u a IH]; intros b.
  - unfold sum_products; simpl. lra.
  - destruct b as [|v b].
    + unfold sum_products at 1 2 4; simpl. lra.
    + rewrite !sum_products_cons.
      specialize (IH b).
      pose proof (sum_products_self_nonneg a) as HA.
      pose proof (sum_products_self_nonneg b) as HB.
      set (s := sum_products a b) in *.
      set (A := sum_products a a) in *.
      set (B := sum_products b b) in *.
      clearbody s A B.
      assert (2 * (u * v * s) <= u * u * B + v * v * A) as Hmix.
      { destruct (Rle_lt_or_eq_dec 0 A HA) as [Hpos | Hz].
        - assert (0 <= A * (u * u * B + v * v * A - 2 * (u * v * s))) as Hsq.
          { replace (A * (u * u * B + v * v * A - 2 * (u * v * s)))
              with (u * u * (A * B - s * s) + (u * s - v * A) * (u * s - v * A)) by ring.
            assert (0 <= u * u * (A * B - s * s)) by (apply Rmult_le_pos; nra).
            pose proof (Rle_0_sqr (u * s - v * A)) as Hq. unfold Rsqr in Hq. lra. }
          nra.
        - rewrite <- Hz in *. assert (s = 0) as -> by nra. nra. }
      nra.
Qed.

Lemma Rabs_sum_products (a b : list R) :
  Rabs (sum_products a b) <= sqrt (sum_products a a) * sqrt (sum_products b b).
Proof.
  rewrite <- sqrt_mult by apply sum_products_self_nonneg.
  rewrite <- sqrt_Rsqr_abs. apply sqrt_le_1_alt. unfold Rsqr. apply cauchy_schwarz.
Qed.

Lemma eps_pos : 0 < eps (F := R).
Proof. unfold eps. simpl. unfold Q2R. simpl. lra. Qed.

Lemma cos_sim_real (r q : list R) :
  cos_sim r q =
  sum_products r q / (sqrt (sum_products r r) + eps) / (sqrt (sum_products q q) + eps).
Proof. reflexivity. Qed.

(** Evaluated exactly, the regularised cosine lies in [-1, 1].  This is a
    fact about the formula, not about the scores the code returns: in
    floating point the 1e-8 can be absorbed when it is added to a norm, and
    the quotient then comes out marginally above 1 for a row parallel to the
    query. *)
Lemma cos_sim_bounds (r q : list R) : -1 <= cos_sim r q <= 1.
Proof.
  rewrite cos_sim_real.
  pose proof (Rabs_sum_products r q) as Hcs.
  pose proof (sqrt_pos (sum_products r r)) as Hr.
  pose proof (sqrt_pos (sum_products q q)) as Hq.
  pose proof eps_pos as He.
  set (a := sqrt (sum_products r r)) in *.
  set (b := sqrt (sum_products q q)) in *.
  set (d := sum_products r q) in *.
  set (e := eps) in *.
  clearbody a b d e.
  assert (0 < a + e) as Ha by lra. assert (0 < b + e) as Hb by lra.
  assert (Rabs d <= (a + e) * (b + e)) as Hd by nra.
  assert (d / (a + e) / (b + e) = d / ((a + e) * (b + e))) as -> by (field; lra).
  assert (0 < (a + e) * (b + e)) as Hab by nra.
  set (D := (a + e) * (b + e)) in *. clearbody D.
  assert (- D <= d <= D) as Hdd by (unfold Rabs in Hd; destruct (Rcase_abs d); lra).
  split; apply (Rmult_le_reg_r D); try done;
    unfold Rdiv; rewrite Rmult_assoc, Rinv_l by lra; lra.
Qed.

Lemma sigmoid_bounds (z : R) : 0 <= Rsigmoid z <= 1.
Proof.
  unfold Rsigmoid. pose proof (exp_pos (- z)) as He.
  split.
  - apply Rlt_le, Rdiv_lt_0_compat; lra.
  - apply (Rmult_le_reg_r (1 + exp (- z))); [lra|].
    unfold Rdiv. rewrite Rmult_assoc, Rinv_l by lra. lra.
Qed.

End RealBounds.

(** * Concrete runs, over the rationals *)

Section Examples.
Local Open Scope Q_scope.

Example fresh_is_init : GNNProcessor_init small_settings = Ok fresh.
Proof. reflexivity. Qed.

(** C1 fails as stated: a call that returns one entry whose similarity and
    blended score are both negative (the combined embedding is (-1, 0, 0, 0),
    the query (1, 0, 0, 0)). *)
Lemma activate_negative_scores :
  exists e, run_activate [node_a] [1; 0; 0; 0] 5 = [e]
            /\ similarity_score e < 0 /\ activation_score e < 0.
Proof. eexists. vm_compute. repeat split. Qed.


(** C3 fails as stated: two candidates with equal blended scores are returned
    in the reverse of their order in the candidate list (the sort of the
    rational instance leaves equal values in position order, and the code
    reverses what the sort returns). *)
Lemma activate_ties_reversed :
  exists eb ea, run_activate [node_a; node_b] [1; 0; 0; 0] 5 = [eb; ea]
                /\ memory eb = node_b /\ memory ea = node_a
                /\ activation_score ea = activation_score eb.
Proof. do 2 eexists. vm_compute. repeat split. Qed.

(** C4 fails as stated: one record with a three-component embedding empties
    the whole result, although the batch with that embedding replaced by the
    zero vector ranks all three records. *)
Lemma activate_bad_record_aborts :
  run_activate [node_a; node_bad; node_b] [1; 0; 0; 0] 5 = []
  /\ length (run_activate [node_a; node_zeroed; node_b] [1; 0; 0; 0] 5) = 3%nat.
Proof. split; reflexivity. Qed.

(** C6 fails as stated: with three candidates and top_k = 5 the list returned
    for the batch above has length 0, not min(5, 3). *)
Lemma activate_length_zero :
  length (run_activate [node_a; node_bad; node_b] [1; 0; 0; 0] 5)
  <> Nat.min (Z.to_nat 5) (length [node_a; node_bad; node_b]).
Proof. vm_compute. discriminate. Qed.

(** C9 fails as stated: with the key (6, 8, 0, 0) already stored, writing
    K = (3, 4, 0, 0) with V = (2, 2, 2, 2) and reading K back returns the other
    slot's value, whose similarity to K is the higher one. *)
Lemma read_returns_other_value :
  let s1 := (write [6; 8; 0; 0] [1; 1; 1; 1] (ExternalMemory_init 2 4)).2 in
  let s2 := (write [3; 4; 0; 0] [2; 2; 2; 2] s1).2 in
  exists sim, (read [3; 4; 0; 0] 1 s2).1 = Ok ([[1; 1; 1; 1]], [sim])
              /\ [1; 1; 1; 1] <> [2; 2; 2; 2 : Q]
              /\ cos_sim [3; 4; 0; 0] [3; 4; 0; 0] < sim.
Proof. eexists. vm_compute. repeat split. discriminate. Qed.

(** And the similarity of a key to itself need not be near 1: for a key of
    norm 1e-8 it is 1/4. *)
Example self_similarity_quarter :
  let k := [1 # 100000000; 0; 0; 0] in
  (read k 1 (write k [1; 1; 1; 1] (ExternalMemory_init 2 4)).2).1
  = Ok ([[1; 1; 1; 1]], [1 # 4]).
Proof. reflexivity. Qed.

End Examples.

(** * The theorems at concrete inputs *)

Section Witnesses.
Local Open Scope Q_scope.

Lemma wf_full_store : wf_memory full_store.
Proof. split; vm_compute; (reflexivity || lia). Defined.

(** C7 at [full_store]: the write replaces slot 1. *)
Lemma write_at_capacity_witness :
  (write [2; 2] [3; 3] full_store).1 = Ok 1%nat
  /\ exists idx umin s',
       write [2; 2] [3; 3] full_store = (Ok idx, s')
       /\ (idx < memory_size full_store)%nat
       /\ usage full_store !! idx = Some umin
       /\ (forall j u, usage full_store !! j = Some u -> fltb u umin = false)
       /\ (forall j u, (j < idx)%nat -> usage full_store !! j = Some u -> fltb umin u = true)
       /\ keys s' !! idx = Some [2; 2]
       /\ values s' !! idx = Some [3; 3]
       /\ usage s' !! idx = Some fone
       /\ (forall j, j <> idx ->
             keys s' !! j = keys full_store !! j /\ values s' !! j = values full_store !! j
             /\ usage s' !! j = usage full_store !! j)
       /\ current_size s' = memory_size full_store
       /\ memory_size s' = memory_size full_store.
Proof.
  split; [reflexivity|].
  apply (write_at_capacity [2; 2] [3; 3] full_store);
    [exact wf_full_store | reflexivity | simpl; lia | reflexivity | reflexivity].
Defined.

(** C9 on an empty store: the value written is the value read. *)
Lemma write_read_round_trip_witness :
  read [3; 4; 0; 0] 1 (write [3; 4; 0; 0] [2; 2; 2; 2] (ExternalMemory_init 2 4)).2 =
    (Ok ([[2; 2; 2; 2]], [cos_sim [3; 4; 0; 0] [3; 4; 0; 0]]),
     set_usage (bump_usage [0%nat] (usage (write [3; 4; 0; 0] [2; 2; 2; 2] (ExternalMemory_init 2 4)).2))
       (write [3; 4; 0; 0] [2; 2; 2; 2] (ExternalMemory_init 2 4)).2).
Proof.
  apply (write_read_round_trip [3; 4; 0; 0] [2; 2; 2; 2] (ExternalMemory_init 2 4)
           (write [3; 4; 0; 0] [2; 2; 2; 2] (ExternalMemory_init 2 4)).2 0);
    [apply wf_init | reflexivity | reflexivity | reflexivity |].
  intros j r Hj Hne. simpl in Hj. lia.
Defined.

(** C10 at the dimensions of the default settings: a 384-component key and
    the fresh store of 10000 rows of width 128. *)
Lemma write_failure_counts_slot_witness :
  let s := ExternalMemory_init (F := Q) 10000 128 in
  let key := replicate 384 1 in
  write key key s = (Raise, set_current_size (current_size s + 1) s)
  /\ current_size (write key key s).2 = (current_size s + 1)%nat
  /\ keys (write key key s).2 !! current_size s = keys s !! current_size s
  /\ values (write key key s).2 !! current_size s = values s !! current_size s
  /\ usage (write key key s).2 !! current_size s = usage s !! current_size s.
Proof.
  intros s key.
  apply (write_failure_counts_slot key key s).
  - apply Nat.ltb_lt. vm_compute. reflexivity.
  - unfold key, s. rewrite length_replicate. simpl. lia.
  - unfold key. rewrite length_replicate. lia.
Defined.

(** C5 at the failing input: the default settings, the fresh processor and an
    interaction embedding of 384 components. *)
Lemma update_interaction_dimension_mismatch_witness :
  let p' := update_memory_with_interaction settings "hello" "hi" (replicate 384 1)
              default_processor in
  keys (external_memory p') = keys (external_memory default_processor)
  /\ values (external_memory p') = values (external_memory default_processor)
  /\ usage (external_memory p') = usage (external_memory default_processor)
  /\ current_size (external_memory p') = (current_size (external_memory default_processor) + 1)%nat.
Proof.
  apply (update_interaction_dimension_mismatch settings default_processor
           "hello" "hi" (replicate 384 1)).
  - reflexivity.
  - apply length_replicate.
  - simpl. lia.
  - simpl. lia.
  - apply Nat.ltb_lt. vm_compute. reflexivity.
Defined.


(** C3 at three candidates with three different scores, two of them kept. *)
Lemma activate_sorted_witness :
  exists top_indices : list nat,
    length top_indices =
      length (activate_memories small_settings passing_weights ones
                [node_far; node_near; node_off] [] [1; 0; 0; 0] 2 fresh).1
    /\ NoDup top_indices
    /\ (forall a idx e,
          top_indices !! a = Some idx ->
          (activate_memories small_settings passing_weights ones
             [node_far; node_near; node_off] [] [1; 0; 0; 0] 2 fresh).1 !! a = Some e ->
          [node_far; node_near; node_off] !! idx = Some (memory e)
          /\ exists z, activation_score e = final_score (similarity_score e) (fsigmoid z))
    /\ (forall a b ea eb,
          (a < b)%nat ->
          (activate_memories small_settings passing_weights ones
             [node_far; node_near; node_off] [] [1; 0; 0; 0] 2 fresh).1 !! a = Some ea ->
          (activate_memories small_settings passing_weights ones
             [node_far; node_near; node_off] [] [1; 0; 0; 0] 2 fresh).1 !! b = Some eb ->
          fltb (activation_score ea) (activation_score eb) = false).
Proof.
  exact (activate_sorted small_settings passing_weights ones
           [node_far; node_near; node_off] [] [1; 0; 0; 0] 2 fresh).
Defined.

(** C1 at the same three candidates: the call returns entries, so each
    carries the scores computed from its candidate's combined embedding. *)
Lemma activate_scores_unclamped_witness :
  (activate_memories small_settings passing_weights ones
     [node_far; node_near; node_off] [] [1; 0; 0; 0] 2 fresh).1 <> []
  /\ exists (data : Data Q) (out : Output Q),
      create_graph_data [node_far; node_near; node_off] [] = Ok data
      /\ forward passing_weights (model fresh) data
           (_get_memory_states small_settings ones
              (map id [node_far; node_near; node_off]) fresh).1 = Ok out
      /\ Forall (fun e => exists idx row,
                   [node_far; node_near; node_off] !! idx = Some (memory e)
                   /\ node_embeddings out !! idx = Some row
                   /\ similarity_score e = cos_sim row [1; 0; 0; 0]
                   /\ activation_score e =
                        final_score (similarity_score e)
                          (fsigmoid (activation_head passing_weights row)))
           (activate_memories small_settings passing_weights ones
              [node_far; node_near; node_off] [] [1; 0; 0; 0] 2 fresh).1.
Proof.
  assert ((activate_memories small_settings passing_weights ones
             [node_far; node_near; node_off] [] [1; 0; 0; 0] 2 fresh).1 <> []) as Hr
    by (vm_compute; discriminate).
  split; [exact Hr|].
  exact (activate_scores_unclamped small_settings passing_weights ones
           [node_far; node_near; node_off] [] [1; 0; 0; 0] 2 fresh Hr).
Defined.

(** C4 at the batch with the three-component embedding. *)
Lemma activate_malformed_aborts_witness :
  run_activate [node_a; node_bad; node_b] [1; 0; 0; 0] 5 = [].
Proof.
  apply (activate_malformed_aborts small_settings constant_weights ones
           [node_a; node_bad; node_b] [] [1; 0; 0; 0] 5 fresh node_bad).
  - apply list_elem_of_further, list_elem_of_here.
  - simpl. lia.
Defined.

(** C6 at two well-formed candidates and top_k = 5: the call runs to its end
    and returns two entries. *)
Lemma activate_length_witness :
  (exists r, (activate_memories_try small_settings constant_weights ones
                [node_a; node_b] [] [1; 0; 0; 0] 5 fresh).1 = Ok r)
  /\ match (activate_memories_try small_settings constant_weights ones
              [node_a; node_b] [] [1; 0; 0; 0] 5 fresh).1 with
     | Ok r =>
         (activate_memories small_settings constant_weights ones
            [node_a; node_b] [] [1; 0; 0; 0] 5 fresh).1 = r
         /\ length r = Nat.min (Z.to_nat 5) (length [node_a; node_b])
     | Raise =>
         (activate_memories small_settings constant_weights ones
            [node_a; node_b] [] [1; 0; 0; 0] 5 fresh).1 = []
     end.
Proof.
  split.
  - eexists. vm_compute. reflexivity.
  - apply (activate_length small_settings constant_weights ones
             [node_a; node_b] [] [1; 0; 0; 0] 5 fresh); [discriminate | lia].
Defined.

End Witnesses.

(** * Further properties of the external memory *)

Section ReadProperties.
Context {F : Type} `{Scalar F} `{!SortContract F}.

Lemma length_read_similarities (query : list F) (s : ExternalMemory F) :
  wf_memory s -> length (read_similarities query s) = current_size s.
Proof.
  intros [Hk _ _ _ _ Hc]. unfold read_similarities.
  rewrite length_map, length_take. lia.
Qed.

(** [read] on a store with an occupied slot and a query of the key
    dimension. *)
Lemma read_occupied (query : list F) (k : Z) (s : ExternalMemory F) :
  wf_memory s -> 0 < current_size s -> length query = key_dim s ->
  read query k s =
    (Ok (gather (values s) (slice_to k (reverse (argsort (read_similarities query s)))),
         gather (read_similarities query s)
                (slice_to k (reverse (argsort (read_similarities query s))))),
     set_usage (bump_usage (slice_to k (reverse (argsort (read_similarities query s))))
                           (usage s)) s).
Proof.
  intros Hwf Hpos Hq. destruct Hwf as [Hk Hv Hu Hkr Hvr Hc].
  unfold read. rewrite (proj2 (Nat.eqb_neq _ _)) by lia.
  rewrite similarities_of_ok; [done | done |].
  apply has_width_Forall, Forall_take. by apply has_width_Forall.
Qed.

Lemma gather_spec {A} (a : list A) (idx : list nat) :
  Forall (fun i => i < length a) idx ->
  length (gather a idx) = length idx
  /\ forall j i, idx !! j = Some i -> gather a idx !! j = a !! i.
Proof.
  induction 1 as [|i idx Hi Hidx [IHl IH]]; [by split|].
  destruct (lookup_lt_is_Some_2 a i Hi) as [v Hv].
  unfold gather in *. cbn [omap list_omap]. rewrite Hv. simpl.
  split; [by rewrite IHl|].
  intros [|j] i' Hj; simpl in *; [by injection Hj as <- | by apply IH].
Qed.

Lemma length_bump_usage (idx : list nat) (u : list F) :
  length (bump_usage idx u) = length u.
Proof.
  induction idx as [|i idx IH]; simpl; [done|].
  by rewrite length_alter.
Qed.

Lemma lookup_bump_usage (idx : list nat) (u : list F) (i : nat) :
  NoDup idx ->
  bump_usage idx u !! i =
    (fun v => if bool_decide (i ∈ idx) then fadd v (flit (1 # 10)) else v) <$> u !! i.
Proof.
  induction 1 as [|j idx Hj Hnd IH]; simpl.
  - by destruct (u !! i).
  - destruct (decide (i = j)) as [->|Hne].
    + rewrite list_lookup_alter_eq, IH.
      rewrite (bool_decide_eq_false_2 _ Hj).
      rewrite (bool_decide_eq_true_2 (j ∈ j :: idx)) by apply list_elem_of_here.
      by destruct (u !! j).
    + rewrite list_lookup_alter_ne by done. rewrite IH.
      destruct (u !! i); simpl; [|done]. f_equal.
      destruct (bool_decide (i ∈ idx)) eqn:E.
      * apply bool_decide_eq_true in E.
        by rewrite bool_decide_eq_true_2 by (by apply list_elem_of_further).
      * apply bool_decide_eq_false in E.
        rewrite bool_decide_eq_false_2; [done|]. by intros [?|?]%elem_of_cons.
Qed.

Lemma read_positions_spec (query : list F) (k : Z) (s : ExternalMemory F) :
  wf_memory s ->
  NoDup (slice_to k (reverse (argsort (read_similarities query s))))
  /\ Forall (fun i => i < current_size s)
            (slice_to k (reverse (argsort (read_similarities query s))))
  /\ ((0 <= k)%Z ->
      length (slice_to k (reverse (argsort (read_similarities query s))))
      = Nat.min (Z.to_nat k) (current_size s)).
Proof.
  intros Hwf. pose proof (length_read_similarities query s Hwf) as Hl.
  destruct (slice_to_take k (reverse (argsort (read_similarities query s)))) as [m Hm].
  repeat split.
  - rewrite Hm. eapply sublist_NoDup; [|apply sublist_take].
    rewrite reverse_Permutation, argsort_perm. apply NoDup_seq.
  - rewrite Hm. apply Forall_take, Forall_reverse, Forall_forall. intros i Hi.
    rewrite argsort_perm in Hi. apply elem_of_seq in Hi. lia.
  - intros Hk. rewrite length_slice_to by done.
    by rewrite length_reverse, argsort_perm, length_seq, Hl.
Qed.

(** [read] on an occupied store, with a query of the key dimension and
    [k >= 0], returns min(k, occupied slots) values and as many similarities;
    every value returned is the value of an occupied slot; keys, values and
    the two sizes of the store are unchanged. *)
Theorem read_count_and_frame (query : list F) (k : Z) (s : ExternalMemory F) :
  wf_memory s -> 0 < current_size s -> length query = key_dim s -> (0 <= k)%Z ->
  exists retrieved similarities s',
    read query k s = (Ok (retrieved, similarities), s')
    /\ length retrieved = Nat.min (Z.to_nat k) (current_size s)
    /\ length similarities = Nat.min (Z.to_nat k) (current_size s)
    /\ Forall (fun v => exists i, i < current_size s /\ values s !! i = Some v) retrieved
    /\ keys s' = keys s /\ values s' = values s
    /\ current_size s' = current_size s /\ memory_size s' = memory_size s
    /\ key_dim s' = key_dim s.
Proof.
  intros Hwf Hpos Hq Hk. rewrite read_occupied by done.
  destruct (read_positions_spec query k s Hwf) as (Hnd & Hlt & Hlen).
  set (top := slice_to k (reverse (argsort (read_similarities query s)))) in *.
  pose proof Hwf as [Hlk Hlv Hlu _ _ Hc].
  destruct (gather_spec (values s) top) as [Hgl Hg].
  { eapply Forall_impl; [exact Hlt|]. simpl. lia. }
  destruct (gather_spec (read_similarities query s) top) as [Hsl _].
  { rewrite length_read_similarities by done. exact Hlt. }
  do 3 eexists. split; [reflexivity|]. simpl.
  repeat split; try done.
  - by rewrite Hgl, Hlen.
  - by rewrite Hsl, Hlen.
  - apply Forall_lookup. intros j v Hv.
    destruct (lookup_lt_is_Some_2 top j) as [i Hi];
      [rewrite <- Hgl; by eapply lookup_lt_Some|].
    exists i. split.
    + rewrite Forall_lookup in Hlt. by eapply Hlt.
    + by rewrite <- (Hg j i Hi).
Qed.

(** [read] raises the usage of each slot it returns by 0.1, once, and leaves
    the usage of every other slot as it was. *)
Theorem read_bumps_returned_slots (query : list F) (k : Z) (s : ExternalMemory F) :
  wf_memory s -> 0 < current_size s -> length query = key_dim s ->
  exists top_k_indices,
    NoDup top_k_indices
    /\ (read query k s).1
       = Ok (gather (values s) top_k_indices,
             gather (read_similarities query s) top_k_indices)
    /\ forall i,
         usage (read query k s).2 !! i =
         (fun u => if bool_decide (i ∈ top_k_indices) then fadd u (flit (1 # 10)) else u)
           <$> usage s !! i.
Proof.
  intros Hwf Hpos Hq. rewrite read_occupied by done.
  destruct (read_positions_spec query k s Hwf) as (Hnd & _ & _).
  eexists. split; [exact Hnd|]. split; [reflexivity|].
  intros i. simpl. by apply lookup_bump_usage.
Qed.

(** On an empty store [read] never looks at the query: for [k >= 0] it returns
    [k] zero rows of the key dimension and [k] zero similarities, for a
    negative [k] it raises, and the store is untouched either way.  On an
    occupied store a query of another length than the key dimension raises,
    again without touching the store. *)
Theorem read_edge_cases (query : list F) (k : Z) (s : ExternalMemory F) :
  (current_size s = 0 -> (0 <= k)%Z ->
   read query k s =
     (Ok (replicate (Z.to_nat k) (replicate (key_dim s) fzero), replicate (Z.to_nat k) fzero), s))
  /\ (current_size s = 0 -> (k < 0)%Z -> read query k s = (Raise, s))
  /\ (0 < current_size s -> length query <> key_dim s -> read query k s = (Raise, s)).
Proof.
  unfold read, np_zeros2, np_zeros. repeat split.
  - intros -> Hk. simpl. by rewrite (proj2 (Z.leb_le _ _) Hk).
  - intros -> Hk. simpl. by rewrite (proj2 (Z.leb_gt _ _) Hk).
  - intros Hpos Hq. rewrite (proj2 (Nat.eqb_neq _ _)) by lia.
    rewrite similarities_of_raise; [done | congruence].
Qed.

End ReadProperties.

Section ReadOrder.
Context {F : Type} `{ScalarOrder F} `{!SortContract F}.

(** In [np.argsort(a)[::-1]] an earlier position never holds the lower
    value. *)
Lemma reverse_argsort_order (a : list F) (pa pb ia ib : nat) (fa fb : F) :
  pa < pb ->
  reverse (argsort a) !! pa = Some ia ->
  reverse (argsort a) !! pb = Some ib ->
  a !! ia = Some fa -> a !! ib = Some fb ->
  fltb fa fb = false.
Proof.
  intros Hab Ha Hb Hfa Hfb.
  apply reverse_lookup_Some in Ha as [Ha Hla]. apply reverse_lookup_Some in Hb as [Hb Hlb].
  eapply (argsort_ascending a); [|exact Hb|exact Ha|done..]. lia.
Qed.

(** What [np.argsort(a)[::-1][:k]] leaves out is never above what it
    keeps. *)
Lemma top_dominates (a : list F) (k : Z) (i j : nat) (fi fj : F) :
  i ∈ slice_to k (reverse (argsort a)) ->
  j ∉ slice_to k (reverse (argsort a)) ->
  a !! i = Some fi -> a !! j = Some fj ->
  fltb fi fj = false.
Proof.
  intros Hi Hj Hfi Hfj.
  destruct (slice_to_take k (reverse (argsort a))) as [m Hm]. rewrite Hm in Hi, Hj.
  apply list_elem_of_lookup_1 in Hi as [pi Hpi].
  apply lookup_take_Some in Hpi as [Hpi Hpim].
  assert (j ∈ reverse (argsort a)) as [pj Hpj]%list_elem_of_lookup_1.
  { rewrite elem_of_reverse, argsort_perm. apply elem_of_seq.
    split; [lia|]. simpl. by eapply lookup_lt_Some. }
  assert (m <= pj) as Hge.
  { destruct (decide (m <= pj)) as [|Hlt]; [done | exfalso].
    apply Hj. eapply list_elem_of_lookup_2. apply lookup_take_Some. split; [exact Hpj | lia]. }
  eapply (reverse_argsort_order a pi pj); [lia | done..].
Qed.

(** [read] returns the most similar occupied slots, best first: the
    similarities returned are those of the returned slots' keys, an earlier
    one is never the lower, and no occupied slot left out is more similar to
    the query than a returned one. *)
Theorem read_returns_most_similar (query : list F) (k : Z) (s : ExternalMemory F) :
  wf_memory s -> 0 < current_size s -> length query = key_dim s ->
  exists top_k_indices retrieved similarities,
    (read query k s).1 = Ok (retrieved, similarities)
    /\ length retrieved = length top_k_indices
    /\ length similarities = length top_k_indices
    /\ (forall a i, top_k_indices !! a = Some i ->
          i < current_size s
          /\ retrieved !! a = values s !! i
          /\ similarities !! a = (fun key => cos_sim key query) <$> keys s !! i)
    /\ (forall a b fa fb, a < b ->
          similarities !! a = Some fa -> similarities !! b = Some fb ->
          fltb fa fb = false)
    /\ (forall i j ki kj,
          i ∈ top_k_indices -> j < current_size s -> j ∉ top_k_indices ->
          keys s !! i = Some ki -> keys s !! j = Some kj ->
          fltb (cos_sim ki query) (cos_sim kj query) = false).
Proof.
  intros Hwf Hpos Hq. rewrite read_occupied by done. simpl.
  destruct (read_positions_spec query k s Hwf) as (Hnd & Hlt & _).
  pose proof (length_read_similarities query s Hwf) as Hls.
  set (sims := read_similarities query s) in *.
  set (top := slice_to k (reverse (argsort sims))) in *.
  pose proof Hwf as [Hlk Hlv Hlu _ _ Hc].
  destruct (gather_spec (values s) top) as [Hgl Hg].
  { eapply Forall_impl; [exact Hlt|]. simpl. lia. }
  destruct (gather_spec sims top) as [Hsl Hsg]; [by rewrite Hls|].
  assert (forall i, i < current_size s ->
            sims !! i = (fun key => cos_sim key query) <$> keys s !! i) as Hsim.
  { intros i Hi. unfold sims, read_similarities.
    change (map ?f ?l) with (f <$> l). by rewrite list_lookup_fmap, lookup_take_lt. }
  exists top, (gather (values s) top), (gather sims top).
  repeat split; try done.
  - rewrite Forall_lookup in Hlt. by eapply Hlt.
  - by apply Hg.
  - rewrite (Hsg a i) by done. apply Hsim. rewrite Forall_lookup in Hlt. by eapply Hlt.
  - intros a b fa fb Hab Ha Hb.
    destruct (lookup_lt_is_Some_2 top a) as [ia Hia];
      [rewrite <- Hsl; by eapply lookup_lt_Some|].
    destruct (lookup_lt_is_Some_2 top b) as [ib Hib];
      [rewrite <- Hsl; by eapply lookup_lt_Some|].
    rewrite (Hsg a ia Hia) in Ha. rewrite (Hsg b ib Hib) in Hb.
    destruct (slice_to_take k (reverse (argsort sims))) as [m Hm].
    unfold top in Hia, Hib. rewrite Hm in Hia, Hib.
    apply lookup_take_Some in Hia as [Hia _]. apply lookup_take_Some in Hib as [Hib _].
    by eapply (reverse_argsort_order sims a b ia ib).
  - intros i j ki kj Hi Hj Hnj Hki Hkj.
    assert (i < current_size s) as Hic by (rewrite Forall_forall in Hlt; by apply Hlt).
    eapply (top_dominates sims k i j); [exact Hi | exact Hnj | |].
    + by rewrite Hsim, Hki.
    + by rewrite Hsim, Hkj.
Qed.

End ReadOrder.

Section WriteProperties.
Context {F : Type} `{Scalar F}.

(** Below capacity, a write of a key and a value of the store's dimension
    fills the next free slot: it returns the old slot counter, that slot then
    holds the key, the value and usage 1.0, the counter has moved by one and
    every other slot is as it was. *)
Theorem write_appends (key value : list F) (s : ExternalMemory F) :
  wf_memory s ->
  current_size s < memory_size s ->
  length key = key_dim s -> length value = key_dim s ->
  exists s',
    write key value s = (Ok (current_size s), s')
    /\ current_size s' = current_size s + 1
    /\ keys s' !! current_size s = Some key
    /\ values s' !! current_size s = Some value
    /\ usage s' !! current_size s = Some fone
    /\ (forall j, j <> current_size s ->
          keys s' !! j = keys s !! j /\ values s' !! j = values s !! j
          /\ usage s' !! j = usage s !! j)
    /\ memory_size s' = memory_size s /\ key_dim s' = key_dim s.
Proof.
  intros [Hk Hv Hu _ _ _] Hlt Hkey Hval.
  rewrite write_below_capacity by done. eexists. split; [reflexivity|]. simpl.
  repeat split; try done;
    try (apply list_lookup_insert_eq; lia); by apply list_lookup_insert_ne.
Qed.

(** A write whose key fits but whose value does not (its length is neither
    the key dimension nor 1) raises half-way: below capacity the slot counter
    has moved and the slot holds the new key, but its value and its usage are
    the old ones. *)
Theorem write_value_failure (key value : list F) (s : ExternalMemory F) :
  current_size s < memory_size s ->
  length key = key_dim s ->
  length value <> key_dim s -> length value <> 1 ->
  write key value s =
    (Raise, set_keys (<[current_size s := key]> (keys s))
              (set_current_size (current_size s + 1) s)).
Proof.
  intros Hlt Hk Hv H1. unfold write, bindM.
  rewrite (proj2 (Nat.ltb_lt _ _) Hlt). simpl.
  rewrite (assign_row_ok _ _ _ key) by done. simpl.
  by rewrite assign_row_raise.
Qed.

Lemma read_wf (query : list F) (k : Z) (s : ExternalMemory F) :
  wf_memory s -> wf_memory (read query k s).2.
Proof.
  intros Hwf. pose proof Hwf as [Hk Hv Hu Hkr Hvr Hc]. unfold read.
  destruct (current_size s =? 0); [done|].
  destruct (similarities_of _ _ _); [|done]. simpl.
  split; simpl; try done. by rewrite length_bump_usage.
Qed.

Lemma length_reset (l : list F) (reset : list nat) :
  length (foldl (fun u idx => <[idx := fzero]> u) l reset) = length l.
Proof.
  revert l. induction reset as [|r reset IH]; intros l; simpl; [done|].
  by rewrite IH, length_insert.
Qed.

Lemma decay_wf (factor : F) (s : ExternalMemory F) :
  wf_memory s -> wf_memory (apply_memory_decay factor s).
Proof.
  intros [Hk Hv Hu Hkr Hvr Hc]. unfold apply_memory_decay.
  destruct (0 <? _); split; simpl; try done.
  - by rewrite length_reset, length_map.
  - by rewrite length_map.
Qed.

Lemma after_call_sizes (s : ExternalMemory F) (c : memory_call) :
  memory_size (after_call s c) = memory_size s /\ key_dim (after_call s c) = key_dim s.
Proof.
  destruct c as [key value | query k | factor]; simpl.
  - unfold write, bindM, modify_, ret.
    destruct (current_size s <? memory_size s); simpl.
    + destruct (assign_row _ (keys s) _ key); simpl; [|done].
      by destruct (assign_row _ (values s) _ value).
    + destruct (argmin (usage s)); simpl; [|done].
      destruct (assign_row _ (keys s) _ key); simpl; [|done].
      by destruct (assign_row _ (values s) _ value).
  - unfold read. destruct (current_size s =? 0); [done|].
    by destruct (similarities_of _ _ _).
  - unfold apply_memory_decay. by destruct (0 <? _).
Qed.

Lemma after_call_wf (s : ExternalMemory F) (c : memory_call) :
  wf_memory s -> wf_memory (after_call s c).
Proof.
  destruct c; simpl; [apply write_wf | apply read_wf | apply decay_wf].
Qed.

(** Whatever is called on a store built by [ExternalMemory(n, d)], in any
    order and whether the calls return or raise, the store keeps its shape:
    three arrays of [n] rows, keys and values of width [d], and an occupied
    slot counter that never exceeds [n]. *)
Theorem store_shape_invariant (n d : nat) (cs : list memory_call) :
  wf_memory (after_calls (ExternalMemory_init n d) cs)
  /\ memory_size (after_calls (ExternalMemory_init n d) cs) = n
  /\ key_dim (after_calls (ExternalMemory_init n d) cs) = d
  /\ current_size (after_calls (ExternalMemory_init n d) cs) <= n.
Proof.
  assert (forall s, wf_memory s ->
            wf_memory (after_calls s cs)
            /\ memory_size (after_calls s cs) = memory_size s
            /\ key_dim (after_calls s cs) = key_dim s) as Hgen.
  { induction cs as [|c cs IH]; intros s Hwf; [done|]. simpl.
    destruct (IH (after_call s c) (after_call_wf s c Hwf)) as (Hw & Hm & Hd).
    destruct (after_call_sizes s c) as [Hm' Hd'].
    split; [done|]. split; congruence. }
  destruct (Hgen _ (wf_init n d)) as (Hw & Hm & Hd). simpl in Hm, Hd.
  split; [done|]. split; [done|]. split; [done|].
  pose proof (wf_current_size _ Hw) as Hc. lia.
Qed.

End WriteProperties.

Section UsageSign.
Open Scope R_scope.

Lemma usage_nonneg_replicate (n : nat) :
  Forall (fun u : R => 0 <= u) (replicate n fzero).
Proof. apply Forall_replicate. simpl. lra. Qed.

Lemma usage_nonneg_write (key value : list R) (s : ExternalMemory R) :
  Forall (fun u => 0 <= u) (usage s) ->
  Forall (fun u => 0 <= u) (usage (write key value s).2).
Proof.
  intros Hu. unfold write, bindM, modify_, ret.
  assert (0 <= fone (F := R)) as H1 by (simpl; lra).
  destruct (current_size s <? memory_size s); simpl.
  - destruct (assign_row _ (keys s) _ key); simpl; [|done].
    destruct (assign_row _ (values s) _ value); simpl; [|done].
    by apply Forall_insert.
  - destruct (argmin (usage s)); simpl; [|done].
    destruct (assign_row _ (keys s) _ key); simpl; [|done].
    destruct (assign_row _ (values s) _ value); simpl; [|done].
    by apply Forall_insert.
Qed.

Lemma usage_nonneg_bump (idx : list nat) (u : list R) :
  Forall (fun u => 0 <= u) u -> Forall (fun u => 0 <= u) (bump_usage idx u).
Proof.
  intros Hu. induction idx as [|i idx IH]; simpl; [done|].
  apply Forall_alter; [done|]. intros v _ Hv. simpl. unfold Q2R. simpl. lra.
Qed.

Lemma usage_nonneg_read (query : list R) (k : Z) (s : ExternalMemory R) :
  Forall (fun u => 0 <= u) (usage s) ->
  Forall (fun u => 0 <= u) (usage (read query k s).2).
Proof.
  intros Hu. unfold read. destruct (current_size s =? 0); [done|].
  destruct (similarities_of _ _ _); [|done]. simpl. by apply usage_nonneg_bump.
Qed.

Lemma usage_nonneg_reset (l : list R) (reset : list nat) :
  Forall (fun u => 0 <= u) l ->
  Forall (fun u => 0 <= u) (foldl (fun u idx => <[idx := fzero]> u) l reset).
Proof.
  revert l. induction reset as [|r reset IH]; intros l Hl; simpl; [done|].
  apply IH, Forall_insert; [done | simpl; lra].
Qed.

Lemma usage_nonneg_decay (factor : R) (s : ExternalMemory R) :
  0 <= factor ->
  Forall (fun u => 0 <= u) (usage s) ->
  Forall (fun u => 0 <= u) (usage (apply_memory_decay factor s)).
Proof.
  intros Hf Hu. unfold apply_memory_decay.
  assert (Forall (fun u => 0 <= u) (map (fun u => fmul u factor) (usage s))) as Hd.
  { change (map ?f ?l) with (f <$> l). apply Forall_fmap.
    eapply Forall_impl; [exact Hu|]. intros u Hu'. simpl. by apply Rmult_le_pos. }
  destruct (0 <? _); simpl; [by apply usage_nonneg_reset | done].
Qed.

(** Over the reals: whatever is called on a store built by
    [ExternalMemory(n, d)], as long as the decay factors are not negative, no
    slot's usage ever becomes negative. *)
Theorem usage_never_negative (n d : nat) (cs : list (memory_call (F := R))) :
  Forall (fun c => match c with CallDecay factor => 0 <= factor | _ => True end) cs ->
  Forall (fun u => 0 <= u) (usage (after_calls (ExternalMemory_init n d) cs)).
Proof.
  intros Hcs.
  assert (forall s, Forall (fun u => 0 <= u) (usage s) ->
                    Forall (fun u => 0 <= u) (usage (after_calls s cs))) as Hgen.
  { induction Hcs as [|c cs Hc Hcs IH]; intros s Hs; [done|]. simpl. apply IH.
    destruct c as [key value | query k | factor]; simpl.
    - by apply usage_nonneg_write.
    - by apply usage_nonneg_read.
    - by apply usage_nonneg_decay. }
  apply Hgen. simpl. apply usage_nonneg_replicate.
Qed.

(** The theorem at a write, a read and a decay by 0.95. *)
Lemma usage_never_negative_witness :
  Forall (fun u => 0 <= u)
    (usage (after_calls (ExternalMemory_init 2 1)
              [CallWrite [1] [2]; CallRead [1] 1; CallDecay (95 / 100)])).
Proof.
  apply (usage_never_negative 2 1 [CallWrite [1] [2]; CallRead [1] 1; CallDecay (95 / 100)]).
  repeat constructor. lra.
Defined.

End UsageSign.

(** * Further properties of the processor *)

Section UpdateProperties.
Context {F : Type} `{Scalar F}.

(** The decay pass only multiplies a slot whose decayed usage is not below
    the threshold. *)
Lemma decay_keeps (factor : F) (s : ExternalMemory F) (i : nat) (u : F) :
  usage s !! i = Some u ->
  fltb (fmul u factor) low_usage_threshold = false ->
  usage (apply_memory_decay factor s) !! i = Some (fmul u factor).
Proof.
  intros Hu Hb. unfold apply_memory_decay.
  set (decayed := map (fun u => fmul u factor) (usage s)).
  assert (decayed !! i = Some (fmul u factor)) as Hd.
  { unfold decayed. change (map ?f ?l) with (f <$> l). by rewrite list_lookup_fmap, Hu. }
  destruct (0 <? _); simpl; [|done].
  rewrite lookup_reset, Hd. simpl. f_equal.
  rewrite bool_decide_eq_false_2; [done|].
  unfold where_. intros (_ & v & Hv & Hpv & _)%elem_of_take_where_from.
  rewrite Nat.sub_0_r in Hv. congruence.
Qed.

Lemma decay_frame (factor : F) (s : ExternalMemory F) :
  keys (apply_memory_decay factor s) = keys s
  /\ values (apply_memory_decay factor s) = values s
  /\ current_size (apply_memory_decay factor s) = current_size s.
Proof. unfold apply_memory_decay. by destruct (0 <? _). Qed.

(** An update with an embedding of the store's key dimension, below capacity,
    composes the write and the decay: the next free slot then holds the
    embedding as key and as value, its usage is 1.0 times the decay factor
    (the pass that follows the write does not reset it, unless the factor
    itself is below the threshold), and the slot counter has moved by one. *)
Theorem update_stores_then_decays (cfg : Settings) (p : GNNProcessor F)
    (user_input system_response : string) (embedding : list F) :
  wf_memory (external_memory p) ->
  current_size (external_memory p) < memory_size (external_memory p) ->
  length embedding = key_dim (external_memory p) ->
  fltb (fmul fone (flit (MEMORY_DECAY_FACTOR cfg))) low_usage_threshold = false ->
  let p' := update_memory_with_interaction cfg user_input system_response embedding p in
  current_size (external_memory p') = current_size (external_memory p) + 1
  /\ keys (external_memory p') !! current_size (external_memory p) = Some embedding
  /\ values (external_memory p') !! current_size (external_memory p) = Some embedding
  /\ usage (external_memory p') !! current_size (external_memory p)
     = Some (fmul fone (flit (MEMORY_DECAY_FACTOR cfg)))
  /\ node_memory_states p' = node_memory_states p.
Proof.
  intros [Hk Hv Hu _ _ _] Hlt Hlen Hthr p'. subst p'.
  unfold update_memory_with_interaction, update_memory_with_interaction_try,
    bindM, on_external_memory, _apply_memory_decay, modify_.
  rewrite write_below_capacity by done. simpl.
  set (written := {| memory_size := _ |}).
  assert (usage written !! current_size (external_memory p) = Some fone) as Hw
    by (simpl; apply list_lookup_insert_eq; lia).
  rewrite (decay_keeps _ written _ fone Hw Hthr).
  destruct (decay_frame (flit (MEMORY_DECAY_FACTOR cfg)) written) as (-> & -> & ->).
  simpl. repeat split; try done; apply list_lookup_insert_eq; lia.
Qed.

(** An update whose embedding does not fit the store, on a full store,
    changes nothing at all. *)
Theorem update_mismatch_at_capacity (cfg : Settings) (p : GNNProcessor F)
    (user_input system_response : string) (embedding : list F) :
  memory_size (external_memory p) <= current_size (external_memory p) ->
  length embedding <> key_dim (external_memory p) ->
  length embedding <> 1 ->
  update_memory_with_interaction cfg user_input system_response embedding p = p.
Proof.
  intros Hfull Hk H1.
  unfold update_memory_with_interaction, update_memory_with_interaction_try,
    bindM, on_external_memory.
  rewrite write_failure_at_capacity by done. simpl. by destruct p.
Qed.

End UpdateProperties.

Section GraphData.
Context {F : Type} `{Scalar F}.

(** A dictionary filled in one pass over an enumerated list, later entries
    overwriting earlier ones: a key absent from the list keeps its old entry,
    a key of the list gets the entry written at its last position. *)
Lemma enumerate_fill {A V} (key : A -> string) (val : nat -> A -> option V)
    (f : gmap string V -> nat * A -> gmap string V) (l : list A)
    (m : gmap string V) (k : string) :
  (forall m i a, f m (i, a) = match val i a with Some v => <[key a := v]> m | None => m end) ->
  ((forall a, a ∈ l -> key a <> k) ->
   fold_left f (zip (seq 0 (length l)) l) m !! k = m !! k)
  /\ (forall i a v, l !! i = Some a -> key a = k -> val i a = Some v ->
        (forall j b, l !! j = Some b -> key b = k -> j <= i) ->
        fold_left f (zip (seq 0 (length l)) l) m !! k = Some v).
Proof.
  intros Hf. induction l as [|x l IH] using rev_ind.
  - split; [done|]. by intros i a v Hi.
  - assert (zip (seq 0 (length (l ++ [x]))) (l ++ [x])
            = zip (seq 0 (length l)) l ++ [(length l, x)]) as ->.
    { rewrite length_app. simpl. rewrite Nat.add_1_r, seq_S. simpl.
      by rewrite (zip_with_app pair (seq 0 (length l)) [length l] l [x])
        by (by rewrite length_seq). }
    rewrite fold_left_app. simpl. rewrite Hf.
    destruct IH as [IHabs IHlast]. split.
    + intros Habs.
      assert (key x <> k) as Hx by (apply Habs, elem_of_app; right; apply list_elem_of_here).
      assert (fold_left f (zip (seq 0 (length l)) l) m !! k = m !! k) as Hl.
      { apply IHabs. intros a Ha. apply Habs, elem_of_app. by left. }
      destruct (val (length l) x); [by rewrite lookup_insert_ne | done].
    + intros i a v Hi Hk Hv Hlast.
      destruct (decide (i = length l)) as [->|Hne].
      * rewrite lookup_app_r, Nat.sub_diag in Hi by lia. simpl in Hi.
        injection Hi as ->. rewrite Hv, Hk. apply lookup_insert_eq.
      * assert (i < length l) as Hlt.
        { apply lookup_lt_Some in Hi. rewrite length_app in Hi. simpl in Hi. lia. }
        rewrite lookup_app_l in Hi by done.
        assert (key x <> k) as Hx.
        { intros Hkx. specialize (Hlast (length l) x).
          rewrite lookup_app_r, Nat.sub_diag in Hlast by lia.
          specialize (Hlast eq_refl Hkx). lia. }
        assert (fold_left f (zip (seq 0 (length l)) l) m !! k = Some v) as Hl.
        { eapply IHlast; [done..|]. intros j b Hj Hb.
          apply (Hlast j b); [|done]. rewrite lookup_app_l; [done|].
          by eapply lookup_lt_Some. }
        destruct (val (length l) x); [by rewrite lookup_insert_ne | done].
Qed.

(** The index of candidate identities: an identity that occurs among the
    candidates is mapped to its last position in the list (a repeated
    identity keeps only its last record), any other identity is unmapped. *)
Theorem index_of_identities (memory_nodes : list (MemoryNode F)) (k : string) :
  ((forall node, node ∈ memory_nodes -> id node <> k) -> build_index memory_nodes !! k = None)
  /\ (forall i node, memory_nodes !! i = Some node -> id node = k ->
        (forall j node', memory_nodes !! j = Some node' -> id node' = k -> j <= i) ->
        build_index memory_nodes !! k = Some i).
Proof.
  destruct (enumerate_fill id (fun i (_ : MemoryNode F) => Some i)
              (fun m '(i, node) => <[id node := i]> m) memory_nodes ∅ k)
    as [Habs Hlast]; [done|].
  split.
  - intros Hk. unfold build_index. by rewrite Habs.
  - intros i node Hi Hid Hl. unfold build_index. by eapply Hlast.
Qed.

Lemma add_edges_spec (node_id_to_idx : gmap string nat) (memory_edges : list (MemoryEdge F))
    (acc : list (nat * nat) * list F) :
  (fold_left (add_edge node_id_to_idx) memory_edges acc).1
    = acc.1 ++ flat_map (edge_pairs node_id_to_idx) memory_edges
  /\ length (fold_left (add_edge node_id_to_idx) memory_edges acc).2
     = length acc.2 + length (flat_map (edge_pairs node_id_to_idx) memory_edges).
Proof.
  revert acc. induction memory_edges as [|e es IH]; intros acc; simpl.
  - by rewrite app_nil_r, Nat.add_0_r.
  - destruct (IH (add_edge node_id_to_idx acc e)) as [-> ->].
    unfold add_edge, edge_pairs.
    destruct (node_id_to_idx !! source_id e) as [a|];
      [destruct (node_id_to_idx !! target_id e) as [b|]|]; simpl.
    + rewrite <- app_assoc, !length_app. simpl. split; [done | lia].
    + done.
    + done.
Qed.

Lemma build_index_range (memory_nodes : list (MemoryNode F)) (k : string) (i : nat) :
  build_index memory_nodes !! k = Some i ->
  exists node, memory_nodes !! i = Some node /\ id node = k.
Proof.
  unfold build_index.
  assert (forall (m : gmap string nat),
            (forall k i, m !! k = Some i -> exists node, memory_nodes !! i = Some node /\ id node = k) ->
            forall l, (forall j node, l !! j = Some node ->
                                      memory_nodes !! (length memory_nodes - length l + j) = Some node) ->
                      length l <= length memory_nodes ->
            forall k i, fold_left (fun m '(i, node) => <[id node := i]> m)
                          (zip (seq (length memory_nodes - length l) (length l)) l) m !! k = Some i ->
                        exists node, memory_nodes !! i = Some node /\ id node = k) as Hgen.
  { intros m Hm l. revert m Hm. induction l as [|x l IH]; intros m Hm Hl Hlen k' i'; simpl.
    - apply Hm.
    - replace (S (length memory_nodes - S (length l))) with (length memory_nodes - length l)
        by (simpl in Hlen; lia).
      apply IH.
      + intros k2 i2. destruct (decide (id x = k2)) as [<-|Hne].
        * rewrite lookup_insert_eq. intros [= <-]. exists x. split; [|done].
          specialize (Hl 0 x eq_refl). by rewrite Nat.add_0_r in Hl.
        * rewrite lookup_insert_ne by done. apply Hm.
      + intros j node Hj. specialize (Hl (S j) node Hj).
        replace (length memory_nodes - length l + j)
          with (length memory_nodes - length (x :: l) + S j) by (simpl in *; lia). done.
      + simpl in Hlen. lia. }
  intros Hk.
  assert (forall k' i', (∅ : gmap string nat) !! k' = Some i' ->
            exists node, memory_nodes !! i' = Some node /\ id node = k') as Hempty
    by (intros k' i'; by rewrite lookup_empty).
  specialize (Hgen ∅ Hempty memory_nodes).
  rewrite Nat.sub_diag in Hgen. by apply Hgen.
Qed.

(** The graph built from candidates and edges: an edge contributes its two
    directions when both its ends are candidate identities, and nothing
    otherwise; so the edge index holds only candidate positions, is
    symmetric, has two entries per kept edge, and the weights go with it
    entry by entry. *)
Theorem graph_edges (memory_nodes : list (MemoryNode F)) (memory_edges : list (MemoryEdge F))
    (data : Data F) :
  memory_nodes <> [] ->
  create_graph_data memory_nodes memory_edges = Ok data ->
  edge_index data = flat_map (edge_pairs (build_index memory_nodes)) memory_edges
  /\ Forall (fun '(a, b) => a < length memory_nodes /\ b < length memory_nodes) (edge_index data)
  /\ (forall a b, (a, b) ∈ edge_index data -> (b, a) ∈ edge_index data)
  /\ length (edge_attr data) = length (edge_index data)
  /\ length (edge_index data)
     = 2 * length (filter (fun e => is_Some (build_index memory_nodes !! source_id e)
                                    /\ is_Some (build_index memory_nodes !! target_id e))
                          memory_edges).
Proof.
  intros Hne. unfold create_graph_data. destruct memory_nodes as [|n0 ns]; [done|].
  set (nodes := n0 :: ns) in *.
  destruct (torch_tensor _) as [t|]; simpl; [|done].
  pose proof (add_edges_spec (build_index nodes) memory_edges ([], [])) as [H1 H2].
  destruct (fold_left _ _ _) as [ei ew]. simpl in H1, H2. intros [= <-]. simpl. subst ei.
  split; [done|]. split; [|split; [|split]].
  - apply Forall_forall. intros [a b] Hab.
    apply list_elem_of_In, in_flat_map in Hab as (e & _ & Hab). unfold edge_pairs in Hab.
    destruct (build_index nodes !! source_id e) as [a'|] eqn:Ea; [|done].
    destruct (build_index nodes !! target_id e) as [b'|] eqn:Eb; [|done].
    apply build_index_range in Ea as (na & Hna & _).
    apply build_index_range in Eb as (nb & Hnb & _).
    apply lookup_lt_Some in Hna, Hnb. unfold nodes in Hna, Hnb. simpl in Hna, Hnb.
    destruct Hab as [[= <- <-] | [[= <- <-] | []]]; lia.
  - intros a b Hab. apply list_elem_of_In, in_flat_map in Hab as (e & He & Hab).
    apply list_elem_of_In, in_flat_map. exists e. split; [done|].
    unfold edge_pairs in *.
    destruct (build_index nodes !! source_id e); [|done].
    destruct (build_index nodes !! target_id e); [|done].
    destruct Hab as [[= <- <-] | [[= <- <-] | []]]; simpl; auto.
  - exact H2.
  - clear H2. induction memory_edges as [|e es IH]; simpl; [done|].
    rewrite length_app, IH. unfold edge_pairs.
    destruct (build_index nodes !! source_id e) as [a|] eqn:Ea;
      [destruct (build_index nodes !! target_id e) as [b|] eqn:Eb|].
    + rewrite filter_cons_True by (split; eauto). simpl. lia.
    + rewrite filter_cons_False; [done|]. intros [_ [? ?]]. congruence.
    + rewrite filter_cons_False; [done|]. intros [[? ?] _]. congruence.
Qed.

(** The node features: when all candidate embeddings have one length the
    feature matrix has one row per candidate, the embedding followed by
    valence and arousal (0.0 for a missing one); when two candidates'
    embeddings differ in length the construction raises. *)
Theorem graph_features (memory_nodes : list (MemoryNode F)) (memory_edges : list (MemoryEdge F)) :
  (forall d, Forall (fun node => length (embedding node) = d) memory_nodes ->
     exists data, create_graph_data memory_nodes memory_edges = Ok data
       /\ x data = map (fun node => embedding node
                                   ++ [default fzero (valence node); default fzero (arousal node)])
                       memory_nodes
       /\ has_width (d + 2) (x data) = true)
  /\ (forall n1 n2, n1 ∈ memory_nodes -> n2 ∈ memory_nodes ->
        length (embedding n1) <> length (embedding n2) ->
        create_graph_data memory_nodes memory_edges = Raise).
Proof.
  split.
  - intros d Hd. unfold create_graph_data. destruct memory_nodes as [|n0 ns].
    + eexists. split; [reflexivity|]. by split.
    + set (nodes := n0 :: ns) in *.
      assert (has_width (d + 2) (map node_features nodes) = true) as Hw.
      { apply has_width_Forall. change (map ?f ?l) with (f <$> l). apply Forall_fmap.
        eapply Forall_impl; [exact Hd|]. intros node Hn. simpl in *.
        unfold node_features. rewrite length_app. simpl. lia. }
      assert (torch_tensor (map node_features nodes) = Ok (map node_features nodes)) as ->.
      { assert (length (node_features n0) = d + 2) as Hl.
        { apply has_width_Forall in Hw. by inversion Hw. }
        unfold torch_tensor, nodes in *. cbn [map] in *. by rewrite Hl, Hw. }
      simpl. destruct (fold_left _ _ _) as [ei ew]. eexists. split; [reflexivity|]. by split.
  - intros n1 n2 H1 H2 Hne. unfold create_graph_data.
    destruct memory_nodes as [|n0 ns]; [by apply elem_of_nil in H1|].
    set (nodes := n0 :: ns) in *.
    destruct (torch_tensor _) as [t|] eqn:Et; [exfalso | done].
    unfold torch_tensor, nodes in Et. cbn [map] in Et.
    destruct (has_width _ _) eqn:Ew; [|done].
    change (has_width (length (node_features n0)) (map node_features nodes) = true) in Ew.
    apply has_width_Forall in Ew. rewrite Forall_forall in Ew.
    pose proof (Ew _ (list_elem_of_fmap_2 node_features _ _ H1)) as E1.
    pose proof (Ew _ (list_elem_of_fmap_2 node_features _ _ H2)) as E2.
    unfold node_features in E1, E2. rewrite !length_app in E1, E2. simpl in E1, E2. lia.
Qed.

End GraphData.

Section StateStore.
Context {F : Type} `{Scalar F}.
Variable cfg : Settings.
Variable gauss : nat -> nat -> F.

Lemma length_omap_le {A B} (f : A -> option B) (l : list A) :
  length (omap f l) <= length l.
Proof.
  induction l as [|a l IH]; [done|].
  change (omap f (a :: l)) with (match f a with Some y => y :: omap f l | None => omap f l end).
  destruct (f a); simpl; lia.
Qed.

(** Writing back the new states: with one row per identity, every identity of
    the list is then mapped to the row at its last position in the list, the
    state of every other identity is untouched, and nothing else in the
    processor changes. *)
Theorem update_states_round_trip (node_ids : list string) (new_states : list (list F))
    (p : GNNProcessor F) (k : string) :
  length node_ids <= length new_states ->
  (k ∉ node_ids ->
   node_memory_states (_update_memory_states node_ids new_states p) !! k
   = node_memory_states p !! k)
  /\ (forall i, node_ids !! i = Some k ->
        (forall j, node_ids !! j = Some k -> j <= i) ->
        node_memory_states (_update_memory_states node_ids new_states p) !! k
        = new_states !! i)
  /\ external_memory (_update_memory_states node_ids new_states p) = external_memory p
  /\ model (_update_memory_states node_ids new_states p) = model p
  /\ randn_calls (_update_memory_states node_ids new_states p) = randn_calls p.
Proof.
  intros Hlen.
  destruct (enumerate_fill (fun node_id : string => node_id)
              (fun i (_ : string) => new_states !! i)
              (fun m '(i, node_id) =>
                 match new_states !! i with
                 | Some row => <[node_id := row]> m
                 | None => m
                 end)
              node_ids (node_memory_states p) k) as [Habs Hlast]; [done|].
  unfold _update_memory_states. simpl. repeat split.
  - intros Hk. apply Habs. intros a Ha ->. done.
  - intros i Hi Hl.
    destruct (lookup_lt_is_Some_2 new_states i) as [row Hrow].
    { apply lookup_lt_Some in Hi. lia. }
    rewrite Hrow. eapply Hlast; [exact Hi | done | done |].
    intros j b Hj ->. by apply Hl.
Qed.

(** When every identity asked for has a persisted state, nothing is drawn
    and the processor is left exactly as it was; the tensor handed over, when
    there is one, holds each identity's persisted state at its position. *)
Theorem get_states_all_present (node_ids : list string) (p : GNNProcessor F) :
  Forall (fun k => is_Some (node_memory_states p !! k)) node_ids ->
  (_get_memory_states cfg gauss node_ids p).2 = p
  /\ (forall t, (_get_memory_states cfg gauss node_ids p).1 = Some t ->
        forall i k, node_ids !! i = Some k -> t !! i = node_memory_states p !! k)
  /\ (node_ids <> [] ->
      map_Forall (fun _ v => length v = GNN_HIDDEN_DIM cfg) (node_memory_states p) ->
      is_Some (_get_memory_states cfg gauss node_ids p).1).
Proof.
  intros Hall.
  assert (forall states,
            fold_left (get_state_step cfg gauss) node_ids (states, p)
            = (states ++ omap (fun k => node_memory_states p !! k) node_ids, p)
            /\ forall i k, node_ids !! i = Some k ->
                 omap (fun k => node_memory_states p !! k) node_ids !! i
                 = node_memory_states p !! k) as Hloop.
  { induction Hall as [|k0 ids [v0 Hv0] Hids IH]; intros states; simpl.
    - by rewrite app_nil_r.
    - rewrite Hv0. destruct (IH (states ++ [v0])) as [-> Hlk].
      rewrite <- app_assoc. split; [done|].
      intros [|i] k Hi; simpl in *; [by injection Hi as <- | by apply Hlk]. }
  destruct (Hloop []) as [Hf Hlk]. unfold _get_memory_states. rewrite Hf.
  cbn [app]. set (states := omap _ _) in *.
  destruct states as [|r rest] eqn:Es.
  - cbn [fst snd]. repeat split; [done|]. intros Hne. destruct node_ids as [|k0 ids]; [done|].
    inversion Hall as [|? ? [v0 Hv0] ?]; subst. unfold states in Es. simpl in Es.
    by rewrite Hv0 in Es.
  - unfold torch_stack, torch_tensor.
    destruct (has_width (length r) (r :: rest)) eqn:Ew; cbn [fst snd].
    + repeat split; [|done]. intros t [= <-]. apply Hlk.
    + repeat split; [done|]. intros _ Hdim.
      assert (Forall (fun v => length v = GNN_HIDDEN_DIM cfg) (r :: rest)) as Hw.
      { apply Forall_lookup. intros i v Hv.
        assert (i < length node_ids) as Hi.
        { destruct (decide (i < length node_ids)) as [|Hge]; [done|].
          assert (length (r :: rest) <= length node_ids) as Hle.
          { rewrite <- Es. unfold states. apply length_omap_le. }
          apply lookup_lt_Some in Hv. lia. }
        destruct (lookup_lt_is_Some_2 node_ids i Hi) as [k Hk].
        rewrite (Hlk i k Hk) in Hv. by eapply Hdim. }
      assert (length r = GNN_HIDDEN_DIM cfg) as Hr by (by inversion Hw).
      apply has_width_Forall in Hw. rewrite Hr in Ew. congruence.
Qed.

End StateStore.

Section ForwardProperties.
Context {F : Type} `{Scalar F}.
Variable W : Weights F.

(** Passing no state tensor to the forward pass is the same as passing
    all-zero states, one row of the hidden dimension per node. *)
Theorem forward_no_state_is_zero_state (m : GraphSAGEMemory) (data : Data F) :
  forward W m data None =
  forward W m data (Some (replicate (length (x data)) (replicate (hidden_dim m) fzero))).
Proof.
  unfold forward.
  destruct (conv_loop W 0 (convs m) (x data) (edge_index data)) as [ne|] eqn:Ec; simpl; [|done].
  apply conv_loop_length in Ec. unfold MemoryGRU_forward. by rewrite Ec.
Qed.

(** A returning forward pass yields, for each node, one combined embedding of
    the hidden dimension, one activation score, one emotion pair and one new
    state of the hidden dimension; and it returns only if the node features
    have width input dimension + 2 and any state tensor passed has one row of
    the hidden dimension per node. *)
Theorem forward_shapes (m : GraphSAGEMemory) (data : Data F)
    (states : option (list (list F))) (out : Output F) :
  forward W m data states = Ok out ->
  has_width (input_dim m + 2) (x data) = true
  /\ (forall h, states = Some h -> has_shape (length (x data)) (hidden_dim m) h = true)
  /\ has_shape (length (x data)) (hidden_dim m) (node_embeddings out) = true
  /\ has_shape (length (x data)) (hidden_dim m) (memory_states out) = true
  /\ length (activation_scores out) = length (x data)
  /\ length (emotion_predictions out) = length (x data).
Proof.
  unfold forward.
  destruct (conv_loop W 0 (convs m) (x data) (edge_index data)) as [ne|] eqn:Ec; simpl; [|done].
  pose proof (conv_loop_length _ _ _ _ _ _ Ec) as Hne.
  assert (has_width (input_dim m + 2) (x data) = true) as Hin.
  { unfold convs in Ec. simpl in Ec. unfold SAGEConv in Ec.
    destruct (checked _ _ _ _) eqn:E1; simpl in Ec; [|done].
    by apply checked_inv in E1 as (_ & ? & _). }
  unfold MemoryGRU_forward, GRUCell.
  destruct (has_shape (length ne) (hidden_dim m) _) eqn:Eh; simpl; [|done].
  destruct (checked (hidden_dim m) (hidden_dim m) ne _) as [nms|] eqn:Eg; simpl; [|done].
  apply checked_inv in Eg as (-> & _ & Hg & Hgw).
  unfold memory_attention.
  destruct (checked (hidden_dim m) (hidden_dim m) _ _) as [att|] eqn:Ea; simpl; [|done].
  apply checked_inv in Ea as (-> & _ & Ha & _).
  destruct (has_width (hidden_dim m) (add_rows ne _)) eqn:Ew; [|done].
  intros [= <-]. simpl.
  assert (length (add_rows ne (map (attention W) (zip_with (gru W) ne
            match states with
            | Some h => h
            | None => replicate (length ne) (replicate (hidden_dim m) fzero)
            end))) = length (x data)) as Hc.
  { rewrite length_add_rows; [done|]. by rewrite Ha, Hg. }
  split; [done|]. split.
  { intros h ->. by rewrite <- Hne. }
  split.
  { unfold has_shape. apply andb_true_iff. split; [by apply Nat.eqb_eq | done]. }
  split.
  { unfold has_shape. apply andb_true_iff. split; [apply Nat.eqb_eq; congruence | done]. }
  by rewrite !length_map.
Qed.

End ForwardProperties.

Section ActivationEffects.
Context {F : Type} `{Scalar F}.
Variable cfg : Settings.
Variable W : Weights F.
Variable gauss : nat -> nat -> F.

#[local] Arguments _update_memory_states : simpl never.

Lemma get_memory_states_effects (node_ids : list string) (p : GNNProcessor F) :
  external_memory (_get_memory_states cfg gauss node_ids p).2 = external_memory p
  /\ model (_get_memory_states cfg gauss node_ids p).2 = model p
  /\ (forall k v, node_memory_states p !! k = Some v ->
        node_memory_states (_get_memory_states cfg gauss node_ids p).2 !! k = Some v)
  /\ randn_calls p <= randn_calls (_get_memory_states cfg gauss node_ids p).2.
Proof.
  unfold _get_memory_states.
  destruct (get_states_loop cfg gauss node_ids [] p)
    as (new & p' & Hf & _ & Hmono & Hcalls & _ & _ & Hext & Hmod).
  rewrite Hf. simpl. destruct new as [|r new]; [done|].
  by destruct (torch_stack _).
Qed.

Lemma update_states_keeps (node_ids : list string) (new_states : list (list F))
    (p : GNNProcessor F) (k : string) :
  is_Some (node_memory_states p !! k) ->
  is_Some (node_memory_states (_update_memory_states node_ids new_states p) !! k).
Proof.
  unfold _update_memory_states. simpl.
  generalize (node_memory_states p). generalize (zip (seq 0 (length node_ids)) node_ids).
  intros l. induction l as [|[i node_id] l IH]; intros m Hm; simpl; [done|].
  apply IH. destruct (new_states !! i); [|done].
  destruct (decide (node_id = k)) as [->|Hne].
  - rewrite lookup_insert_eq. eauto.
  - by rewrite lookup_insert_ne.
Qed.

Lemma read_frame (query : list F) (k : Z) (s : ExternalMemory F) :
  keys (read query k s).2 = keys s /\ values (read query k s).2 = values s
  /\ current_size (read query k s).2 = current_size s
  /\ memory_size (read query k s).2 = memory_size s
  /\ key_dim (read query k s).2 = key_dim s.
Proof.
  unfold read. destruct (current_size s =? 0); [done|].
  by destruct (similarities_of _ _ _).
Qed.

(** What a call of the [try] block can have changed when it ends, whether it
    returns or raises. *)
Lemma activate_try_effects (memory_nodes : list (MemoryNode F))
    (memory_edges : list (MemoryEdge F)) (query_embedding : list F) (top_k : Z)
    (p : GNNProcessor F) :
  let p' := (activate_memories_try cfg W gauss memory_nodes memory_edges
               query_embedding top_k p).2 in
  model p' = model p
  /\ keys (external_memory p') = keys (external_memory p)
  /\ values (external_memory p') = values (external_memory p)
  /\ current_size (external_memory p') = current_size (external_memory p)
  /\ memory_size (external_memory p') = memory_size (external_memory p)
  /\ key_dim (external_memory p') = key_dim (external_memory p)
  /\ (wf_memory (external_memory p) -> wf_memory (external_memory p'))
  /\ (forall k, is_Some (node_memory_states p !! k) -> is_Some (node_memory_states p' !! k))
  /\ randn_calls p <= randn_calls p'.
Proof.
  unfold activate_memories_try. destruct memory_nodes as [|n0 ns]; [by simpl|].
  set (nodes := n0 :: ns).
  unfold bindM, lift, get_, modify_, ret, on_external_memory.
  destruct (create_graph_data nodes memory_edges) as [data|]; [|by simpl].
  destruct (get_memory_states_effects (map id nodes) p) as (Hext & Hmod & Hmono & Hcalls).
  destruct (_get_memory_states cfg gauss (map id nodes) p) as [states p1].
  cbn [fst snd] in *.
  assert (forall k, is_Some (node_memory_states p !! k) -> is_Some (node_memory_states p1 !! k))
    as Hsome by (intros k [v Hv]; eauto).
  destruct (forward W (model p1) data states) as [out|];
    [|cbn [snd]; rewrite Hext, Hmod; by split_and!].
  pose proof (update_states_keeps (map id nodes) (memory_states out) p1) as Hkeep.
  assert (external_memory (_update_memory_states (map id nodes) (memory_states out) p1)
          = external_memory p1
          /\ model (_update_memory_states (map id nodes) (memory_states out) p1) = model p1
          /\ randn_calls (_update_memory_states (map id nodes) (memory_states out) p1)
             = randn_calls p1) as (Hu1 & Hu2 & Hu3) by done.
  set (p2 := _update_memory_states (map id nodes) (memory_states out) p1) in *.
  clearbody p2.
  destruct (similarities_of _ _ _) as [sims|];
    [|cbn [snd]; rewrite Hu1, Hu2, Hu3, Hext, Hmod; split_and!; try done;
      intros k Hk; by apply Hkeep, Hsome].
  match goal with |- context [read ?q ?k ?s] =>
    pose proof (read_frame q k s) as (Hk1 & Hk2 & Hk3 & Hk4 & Hk5);
    pose proof (read_wf q k s) as Hwf;
    destruct (read q k s) as [[o|] e]
  end; cbn [fst snd] in *;
    (destruct p2; cbn in *; subst;
     rewrite Hk1, Hk2, Hk3, Hk4, Hk5, Hext, Hmod;
     split_and!; try done; [by rewrite <- Hext | intros k Hk; by apply Hkeep, Hsome]).
Qed.

(** A call of [activate_memories], whatever it returns, leaves the model and
    the keys, the values and the sizes of the external memory as they were
    (only usages can move), and never drops the state of an identity. *)
Theorem activate_frame (memory_nodes : list (MemoryNode F))
    (memory_edges : list (MemoryEdge F)) (query_embedding : list F) (top_k : Z)
    (p : GNNProcessor F) :
  let p' := (activate_memories cfg W gauss memory_nodes memory_edges
               query_embedding top_k p).2 in
  model p' = model p
  /\ keys (external_memory p') = keys (external_memory p)
  /\ values (external_memory p') = values (external_memory p)
  /\ current_size (external_memory p') = current_size (external_memory p)
  /\ memory_size (external_memory p') = memory_size (external_memory p)
  /\ (forall k, is_Some (node_memory_states p !! k) -> is_Some (node_memory_states p' !! k))
  /\ size (node_memory_states p) <= size (node_memory_states p').
Proof.
  pose proof (activate_try_effects memory_nodes memory_edges query_embedding top_k p)
    as (Hm & Hk & Hv & Hc & Hs & _ & _ & Hsome & _).
  unfold activate_memories.
  destruct (activate_memories_try _ _ _ _ _ _ _ _) as [[r|] p'']; simpl in *;
    (split_and!; try done;
     rewrite <- !size_dom; apply subseteq_size; intros k Hk';
     apply elem_of_dom; apply Hsome; by apply elem_of_dom).
Qed.

(** An empty candidate list: the empty list is returned and the processor is
    left exactly as it was (no state is created, nothing is drawn, the
    external memory is not read). *)
Theorem activate_nothing (memory_edges : list (MemoryEdge F)) (query_embedding : list F)
    (top_k : Z) (p : GNNProcessor F) :
  activate_memories cfg W gauss [] memory_edges query_embedding top_k p = ([], p).
Proof. unfold activate_memories, activate_memories_try, ret. reflexivity. Qed.

Lemma last_occurrence (l : list string) (k : string) :
  k ∈ l -> exists i, l !! i = Some k /\ forall j, l !! j = Some k -> j <= i.
Proof.
  induction l as [|x l IH] using rev_ind; [by intros ?%elem_of_nil|].
  intros Hk. destruct (decide (x = k)) as [->|Hne].
  - exists (length l). split.
    + by rewrite lookup_app_r, Nat.sub_diag by lia.
    + intros j Hj. apply lookup_lt_Some in Hj. rewrite length_app in Hj. simpl in Hj. lia.
  - apply elem_of_app in Hk as [Hk | Hk%list_elem_of_singleton]; [|congruence].
    destruct (IH Hk) as (i & Hi & Hl). exists i. split.
    + rewrite lookup_app_l; [done|]. by eapply lookup_lt_Some.
    + intros j Hj. destruct (decide (j < length l)) as [Hlt|Hge].
      * rewrite lookup_app_l in Hj by done. by apply Hl.
      * rewrite lookup_app_r in Hj by lia.
        destruct (j - length l) as [|n]; simpl in Hj; [congruence | done].
Qed.

Lemma forward_states_shape (m : GraphSAGEMemory) (data : Data F)
    (states : option (list (list F))) (out : Output F) :
  forward W m data states = Ok out ->
  length (memory_states out) = length (x data)
  /\ has_width (hidden_dim m) (memory_states out) = true.
Proof.
  unfold forward.
  destruct (conv_loop W 0 (convs m) (x data) (edge_index data)) as [ne|] eqn:Ec; simpl; [|done].
  pose proof (conv_loop_length _ _ _ _ _ _ Ec) as Hne.
  unfold MemoryGRU_forward, GRUCell.
  destruct (has_shape (length ne) (hidden_dim m) _); simpl; [|done].
  destruct (checked (hidden_dim m) (hidden_dim m) ne _) as [nms|] eqn:Eg; simpl; [|done].
  apply checked_inv in Eg as (-> & _ & Hg & Hgw).
  destruct (memory_attention _ _ _) as [att|]; simpl; [|done].
  destruct (has_width (hidden_dim m) (add_rows ne att)); [|done].
  intros [= <-]. simpl. split; [congruence | done].
Qed.

(** After a call whose [try] block ran to its end, every candidate identity
    has a persisted state, of the model's hidden dimension. *)
Theorem activate_persists_states (memory_nodes : list (MemoryNode F))
    (memory_edges : list (MemoryEdge F)) (query_embedding : list F) (top_k : Z)
    (p p' : GNNProcessor F) (r : list (Activated F)) :
  activate_memories_try cfg W gauss memory_nodes memory_edges query_embedding top_k p
    = (Ok r, p') ->
  forall node, node ∈ memory_nodes ->
    exists v, node_memory_states p' !! id node = Some v
              /\ length v = hidden_dim (model p).
Proof.
  unfold activate_memories_try. destruct memory_nodes as [|n0 ns];
    [intros _ node Hn; by apply elem_of_nil in Hn|].
  set (nodes := n0 :: ns).
  unfold bindM, lift, get_, modify_, ret, on_external_memory.
  destruct (create_graph_data nodes memory_edges) as [data|] eqn:Eg; [|done].
  apply create_graph_data_inv in Eg.
  destruct (get_memory_states_effects (map id nodes) p) as (_ & Hmod & _ & _).
  destruct (_get_memory_states cfg gauss (map id nodes) p) as [states p1]. simpl in Hmod.
  destruct (forward W (model p1) data states) as [out|] eqn:Ef; [|done].
  apply forward_states_shape in Ef as [Hlen Hw].
  rewrite Eg, length_map in Hlen. rewrite Hmod in Hw.
  destruct (similarities_of _ _ _) as [sims|]; [|done]. simpl.
  destruct (read _ _ _) as [[o|] e]; [|done].
  intros [= _ <-] node Hn. simpl.
  assert (id node ∈ map id nodes) as Hin by (by apply list_elem_of_fmap_2).
  destruct (last_occurrence _ _ Hin) as (i & Hi & Hl).
  destruct (lookup_lt_is_Some_2 (memory_states out) i) as [v Hv].
  { apply lookup_lt_Some in Hi. rewrite length_map in Hi. lia. }
  exists v. split.
  - destruct (enumerate_fill (fun node_id : string => node_id)
                (fun i (_ : string) => memory_states out !! i)
                (fun m '(i, node_id) =>
                   match memory_states out !! i with
                   | Some row => <[node_id := row]> m
                   | None => m
                   end)
                (map id nodes) (node_memory_states p1) (id node)) as [_ Hlast]; [done|].
    eapply Hlast; [exact Hi | done | done |]. intros j b Hj ->. by apply Hl.
  - apply has_width_Forall in Hw. rewrite Forall_forall in Hw.
    apply Hw. by eapply list_elem_of_lookup_2.
Qed.

End ActivationEffects.

Section ActivationSelection.
Context {F : Type} `{ScalarOrder F} `{!SortContract F}.
Variable cfg : Settings.
Variable W : Weights F.
Variable gauss : nat -> nat -> F.

(** The entries returned are the best ones.  When the [try] block runs to its
    end, the forward pass has given every candidate a combined embedding,
    which fixes its blended score; each returned entry copies a candidate
    and carries that candidate's blended score, no candidate is returned
    twice, and no candidate left out has a higher blended score than a
    returned one. *)
Theorem activate_selects_top (memory_nodes : list (MemoryNode F))
    (memory_edges : list (MemoryEdge F)) (query_embedding : list F) (top_k : Z)
    (p p' : GNNProcessor F) (r : list (Activated F)) :
  memory_nodes <> [] ->
  activate_memories_try cfg W gauss memory_nodes memory_edges query_embedding top_k p
    = (Ok r, p') ->
  exists (data : Data F) (out : Output F) (top_indices : list nat),
    create_graph_data memory_nodes memory_edges = Ok data
    /\ forward W (model p) data
         (_get_memory_states cfg gauss (map id memory_nodes) p).1 = Ok out
    /\ length (node_embeddings out) = length memory_nodes
    /\ NoDup top_indices
    /\ length top_indices = length r
    /\ (forall a idx e, top_indices !! a = Some idx -> r !! a = Some e ->
          memory_nodes !! idx = Some (memory e)
          /\ blended_score W query_embedding <$> node_embeddings out !! idx
             = Some (activation_score e))
    /\ (forall i j ri rj,
          i ∈ top_indices -> j ∉ top_indices ->
          node_embeddings out !! i = Some ri -> node_embeddings out !! j = Some rj ->
          fltb (blended_score W query_embedding ri) (blended_score W query_embedding rj)
          = false).
Proof.
  intros Hne E.
  destruct (activate_ok_anatomy cfg W gauss _ _ _ _ _ _ _ Hne E)
    as (data & out & Hg & Hf & Hlen & ->).
  set (ne := node_embeddings out) in *.
  set (sims := map (fun r => cos_sim r query_embedding) ne) in *.
  set (finals := zip_with final_score sims _) in *.
  set (top := slice_to top_k (reverse (argsort finals))) in *.
  assert (length finals = length memory_nodes) as Hlf
    by (unfold finals, sims; by rewrite length_final_scores).
  assert (length sims = length memory_nodes) as Hls
    by (unfold sims; by rewrite length_map).
  assert (Forall (fun idx => idx < length memory_nodes) top) as Htop
    by (rewrite <- Hlf; apply top_indices_in_range).
  destruct (collect_spec memory_nodes finals sims top Hlf Hls Htop) as [Hl Hc].
  assert (forall i, finals !! i = blended_score W query_embedding <$> ne !! i) as Hfin
    by (intros i; apply lookup_final_scores).
  exists data, out, top. split_and!; [done | done | done | | done | |].
  - apply NoDup_top_indices.
  - intros a idx e Ha He.
    destruct (Hc a idx Ha) as (node & f & s & Hn & Hfi & Hs & Hr).
    rewrite Hr in He. injection He as <-. cbn [memory activation_score].
    split; [done|]. by rewrite <- Hfin.
  - intros i j ri rj Hi Hj Hri Hrj.
    eapply (top_dominates finals top_k i j); [exact Hi | exact Hj | |].
    + rewrite Hfin. unfold ne. by rewrite Hri.
    + rewrite Hfin. unfold ne. by rewrite Hrj.
Qed.

(** A negative [top_k] does not mean "none": [[:top_k]] then drops the
    [|top_k|] lowest-ranked candidates.  When the [try] block runs to its end
    there is a ranking of all the candidates, each once, in which an earlier
    candidate never has the lower blended score; the list returned follows
    that ranking entry by entry and stops [|top_k|] candidates before its
    end (it is empty when there are no more than [|top_k|] candidates). *)
Theorem activate_negative_top_k (memory_nodes : list (MemoryNode F))
    (memory_edges : list (MemoryEdge F)) (query_embedding : list F) (top_k : Z)
    (p p' : GNNProcessor F) (r : list (Activated F)) :
  memory_nodes <> [] ->
  (top_k < 0)%Z ->
  activate_memories_try cfg W gauss memory_nodes memory_edges query_embedding top_k p
    = (Ok r, p') ->
  exists (data : Data F) (out : Output F) (ranking : list nat),
    create_graph_data memory_nodes memory_edges = Ok data
    /\ forward W (model p) data
         (_get_memory_states cfg gauss (map id memory_nodes) p).1 = Ok out
    /\ length (node_embeddings out) = length memory_nodes
    /\ ranking ≡ₚ seq 0 (length memory_nodes)
    /\ (forall a b ia ib ra rb,
          a < b -> ranking !! a = Some ia -> ranking !! b = Some ib ->
          node_embeddings out !! ia = Some ra -> node_embeddings out !! ib = Some rb ->
          fltb (blended_score W query_embedding ra) (blended_score W query_embedding rb)
          = false)
    /\ length r = length memory_nodes - Z.to_nat (- top_k)
    /\ (forall a e, r !! a = Some e ->
          exists idx,
            ranking !! a = Some idx
            /\ memory_nodes !! idx = Some (memory e)
            /\ blended_score W query_embedding <$> node_embeddings out !! idx
               = Some (activation_score e)).
Proof.
  intros Hne Hk E.
  destruct (activate_ok_anatomy cfg W gauss _ _ _ _ _ _ _ Hne E)
    as (data & out & Hg & Hf & Hlen & ->).
  set (ne := node_embeddings out) in *.
  set (sims := map (fun r => cos_sim r query_embedding) ne) in *.
  set (finals := zip_with final_score sims _) in *.
  assert (length finals = length memory_nodes) as Hlf
    by (unfold finals, sims; by rewrite length_final_scores).
  assert (length sims = length memory_nodes) as Hls
    by (unfold sims; by rewrite length_map).
  assert (slice_to top_k (reverse (argsort finals))
          = take (length memory_nodes - Z.to_nat (- top_k)) (reverse (argsort finals)))
    as Htake.
  { unfold slice_to. rewrite (proj2 (Z.leb_gt _ _) Hk).
    by rewrite length_reverse, length_argsort, Hlf. }
  pose proof (top_indices_in_range finals top_k) as Htop. rewrite Hlf in Htop.
  destruct (collect_spec memory_nodes finals sims _ Hlf Hls Htop) as [Hl Hc].
  assert (forall i, finals !! i = blended_score W query_embedding <$> ne !! i) as Hfin
    by (intros i; apply lookup_final_scores).
  exists data, out, (reverse (argsort finals)). split_and!; [done | done | done | | | |].
  - by rewrite reverse_Permutation, argsort_perm, Hlf.
  - intros a b ia ib ra rb Hab Ha Hb Hra Hrb.
    eapply (reverse_argsort_order finals a b ia ib); [done | done | done | |].
    + rewrite Hfin. unfold ne. by rewrite Hra.
    + rewrite Hfin. unfold ne. by rewrite Hrb.
  - rewrite Hl, Htake, length_take, length_reverse, length_argsort, Hlf. lia.
  - intros a e He.
    destruct (lookup_lt_is_Some_2 (slice_to top_k (reverse (argsort finals))) a)
      as [idx Hidx]; [rewrite <- Hl; by eapply lookup_lt_Some|].
    destruct (Hc a idx Hidx) as (node & f & s & Hn & Hfi & Hs & Hr).
    rewrite Hr in He. injection He as <-. cbn [memory activation_score].
    exists idx. split_and!; [|done|by rewrite <- Hfin].
    rewrite Htake in Hidx. by apply lookup_take_Some in Hidx as [Hidx _].
Qed.

(** The model never changes, so on a processor built from settings whose
    embedding dimension differs from the hidden dimension (as the default 384
    and 128 do), after any history of calls, a query of the embedding
    dimension always gets the empty list. *)
Theorem activate_embedding_query_empty (p0 : GNNProcessor F) (calls : list processor_call)
    (memory_nodes : list (MemoryNode F)) (memory_edges : list (MemoryEdge F))
    (query_embedding : list F) (top_k : Z) :
  GNNProcessor_init cfg = Ok p0 ->
  VECTOR_DIMENSION cfg <> GNN_HIDDEN_DIM cfg ->
  length query_embedding = VECTOR_DIMENSION cfg ->
  (activate_memories cfg W gauss memory_nodes memory_edges query_embedding top_k
     (after_processor_calls cfg W gauss p0 calls)).1 = [].
Proof.
  intros Hinit Hne Hq.
  assert (forall p, model (after_processor_calls cfg W gauss p calls) = model p) as Hmodel.
  { induction calls as [|c cs IH]; intros p; [done|]. simpl. rewrite IH.
    destruct c as [nodes edges q k | ui sr e]; simpl.
    - unfold activate_memories.
      pose proof (activate_try_effects cfg W gauss nodes edges q k p) as [Hm _].
      by destruct (activate_memories_try _ _ _ _ _ _ _ _) as [[r|] p''].
    - unfold update_memory_with_interaction.
      unfold update_memory_with_interaction_try, bindM, on_external_memory,
        _apply_memory_decay, modify_.
      by destruct (write e e (external_memory p)) as [[i|] s]. }
  assert (hidden_dim (model p0) = GNN_HIDDEN_DIM cfg) as Hh.
  { unfold GNNProcessor_init in Hinit. destruct (decide _); [|done]. by injection Hinit as <-. }
  destruct (decide (memory_nodes = [])) as [->|Hnodes]; [done|].
  apply activate_query_dimension; [done|]. rewrite Hmodel. congruence.
Qed.

(** Statistics of a processor built from the settings, after any history of
    calls: the occupied-slot count reported never exceeds the capacity
    reported, and that capacity is MAX_MEMORY_NODES. *)
Theorem statistics_within_capacity (p0 : GNNProcessor F) (calls : list processor_call) :
  GNNProcessor_init cfg = Ok p0 ->
  external_memory_usage (get_memory_statistics (after_processor_calls cfg W gauss p0 calls))
    <= external_memory_capacity
         (get_memory_statistics (after_processor_calls cfg W gauss p0 calls))
  /\ external_memory_capacity
       (get_memory_statistics (after_processor_calls cfg W gauss p0 calls))
     = MAX_MEMORY_NODES cfg.
Proof.
  intros Hinit.
  assert (forall p, wf_memory (external_memory p) ->
            wf_memory (external_memory (after_processor_calls cfg W gauss p calls))
            /\ memory_size (external_memory (after_processor_calls cfg W gauss p calls))
               = memory_size (external_memory p)) as Hinv.
  { induction calls as [|c cs IH]; intros p Hwf; [done|]. simpl.
    assert (wf_memory (external_memory (after_processor_call cfg W gauss p c))
            /\ memory_size (external_memory (after_processor_call cfg W gauss p c))
               = memory_size (external_memory p)) as [Hwf' Hms].
    { destruct c as [nodes edges q k | ui sr e]; simpl.
      - unfold activate_memories.
        pose proof (activate_try_effects cfg W gauss nodes edges q k p)
          as (_ & _ & _ & _ & Hms & _ & Hw & _).
        destruct (activate_memories_try _ _ _ _ _ _ _ _) as [[r|] p'']; simpl in *; auto.
      - unfold update_memory_with_interaction.
        unfold update_memory_with_interaction_try, bindM, on_external_memory,
          _apply_memory_decay, modify_.
        pose proof (write_wf e e (external_memory p) Hwf) as Hw.
        pose proof (after_call_sizes (external_memory p) (CallWrite e e)) as [Hs _].
        simpl in Hs.
        destruct (write e e (external_memory p)) as [[i|] s]; simpl in *; [|done].
        split; [by apply decay_wf|].
        pose proof (after_call_sizes s (CallDecay (flit (MEMORY_DECAY_FACTOR cfg)))) as [Hd _].
        simpl in Hd. congruence. }
    destruct (IH _ Hwf') as [Hw Hm]. split; [done | congruence]. }
  assert (wf_memory (external_memory p0)
          /\ memory_size (external_memory p0) = MAX_MEMORY_NODES cfg) as [Hwf0 Hm0].
  { unfold GNNProcessor_init in Hinit. destruct (decide _); [|done].
    injection Hinit as <-. simpl. split; [apply wf_init | done]. }
  destruct (Hinv p0 Hwf0) as [Hw Hm]. simpl.
  split; [apply (wf_current_size _ Hw) | congruence].
Qed.

End ActivationSelection.

Section HeadRanges.
Open Scope R_scope.

Lemma tanh_bounds (z : R) : -1 <= tanh z <= 1.
Proof.
  unfold tanh, sinh, cosh.
  pose proof (exp_pos z) as Ha. pose proof (exp_pos (- z)) as Hb.
  set (a := exp z) in *. set (b := exp (- z)) in *. clearbody a b.
  assert ((a - b) / 2 / ((a + b) / 2) = (a - b) / (a + b)) as -> by (field; lra).
  assert (0 < a + b) as Hc by lra.
  split; apply (Rmult_le_reg_r (a + b)); try done;
    unfold Rdiv; rewrite Rmult_assoc, Rinv_l by lra; lra.
Qed.

(** Over the reals: the scoring heads of a returning forward pass give an
    activation in [0, 1] and a valence and an arousal in [-1, 1] for every
    node. *)
Theorem forward_head_ranges (W : Weights R) (m : GraphSAGEMemory) (data : Data R)
    (states : option (list (list R))) (out : Output R) :
  forward W m data states = Ok out ->
  Forall (fun a => 0 <= a <= 1) (activation_scores out)
  /\ Forall (fun e => (-1 <= e.1 <= 1) /\ (-1 <= e.2 <= 1)) (emotion_predictions out).
Proof.
  unfold forward.
  destruct (conv_loop W 0 (convs m) (x data) (edge_index data)) as [ne|]; simpl; [|done].
  destruct (MemoryGRU_forward _ _ _ _) as [nms|]; simpl; [|done].
  destruct (memory_attention _ _ _) as [att|]; simpl; [|done].
  destruct (has_width (hidden_dim m) (add_rows ne att)); [|done].
  intros [= <-]. simpl. split.
  - apply Forall_forall. intros a Ha.
    apply list_elem_of_In, in_map_iff in Ha as (row & <- & _). apply sigmoid_bounds.
  - apply Forall_forall. intros e He.
    apply list_elem_of_In, in_map_iff in He as (row & <- & _).
    destruct (emotion_head W row) as [v a]. simpl. split; apply tanh_bounds.
Qed.

End HeadRanges.

(** * The embedding cache *)

Section CacheProperties.
Context {V : Type}.
Variable encode : string -> V.

Lemma cache_get_None (text : string) (cache : list (string * V)) :
  cache_get text cache = None <-> text ∉ cache.*1.
Proof.
  induction cache as [|[k v] cache IH]; simpl.
  - split; [intros _; apply not_elem_of_nil | done].
  - destruct (decide (k = text)) as [->|Hne].
    + split; [done|]. intros Hn. exfalso. apply Hn, list_elem_of_here.
    + rewrite IH, not_elem_of_cons. split; [by intros ? | by intros [_ ?]].
Qed.

Lemma cache_get_Some (text : string) (cache : list (string * V)) (v : V) :
  cache_get text cache = Some v -> (text, v) ∈ cache.
Proof.
  induction cache as [|[k w] cache IH]; simpl; [done|].
  destruct (decide (k = text)) as [->|Hne].
  - intros [= ->]. apply list_elem_of_here.
  - intros Hv. by apply list_elem_of_further, IH.
Qed.

(** On a cache that holds encodings, [get_embedding] returns the encoding of
    the text, hit or miss, and the cache still holds one entry per text, each
    the encoding of its text; afterwards the text is cached. *)
Theorem get_embedding_correct (text : string) (cache : list (string * V)) :
  cache_ok encode cache ->
  (get_embedding encode text cache).1 = encode text
  /\ cache_ok encode (get_embedding encode text cache).2
  /\ cache_get text (get_embedding encode text cache).2 = Some (encode text).
Proof.
  intros [Hnd Hval]. unfold get_embedding.
  destruct (cache_get text cache) as [v|] eqn:E; simpl.
  - pose proof (cache_get_Some _ _ _ E) as Hin.
    pose proof (proj1 (Forall_forall _ _) Hval _ Hin) as Hv. simpl in Hv. subst v.
    split_and!; [done | by split | done].
  - apply cache_get_None in E.
    set (kept := if 1000 <? length cache then tail cache else cache).
    assert (NoDup kept.*1 /\ Forall (fun e => e.2 = encode e.1) kept /\ text ∉ kept.*1)
      as (Hnd' & Hval' & Habs).
    { unfold kept. destruct (1000 <? length cache); [|done].
      destruct cache as [|e0 cache']; [done|]. simpl in *.
      apply NoDup_cons in Hnd as [_ Hnd]. apply Forall_cons in Hval as [_ Hval].
      apply not_elem_of_cons in E as [_ E]. done. }
    split; [done|]. split; [split|].
    + rewrite fmap_app. simpl. apply NoDup_app. split_and!; [done | | apply NoDup_singleton].
      intros k Hk ->%list_elem_of_singleton. done.
    + apply Forall_app. split; [done|]. by constructor.
    + clear -Habs. induction kept as [|[k v] kept IH]; simpl.
      * by rewrite decide_True.
      * simpl in Habs. apply not_elem_of_cons in Habs as [Hne Habs].
        rewrite decide_False by done. by apply IH.
Qed.

(** The cache never grows beyond 1001 entries: a miss on a cache of more than
    1000 entries first drops the oldest entry; a hit changes nothing. *)
Theorem get_embedding_bounded (text : string) (cache : list (string * V)) :
  length cache <= 1001 ->
  length (get_embedding encode text cache).2 <= 1001
  /\ (forall v, cache_get text cache = Some v -> (get_embedding encode text cache).2 = cache)
  /\ (cache_get text cache = None -> 1000 < length cache ->
      (get_embedding encode text cache).2 = tail cache ++ [(text, encode text)]).
Proof.
  intros Hlen. unfold get_embedding.
  destruct (cache_get text cache) as [v|] eqn:E; simpl.
  - split_and!; [done | done | done].
  - split_and!; [| done |].
    + rewrite length_app. simpl.
      destruct (1000 <? length cache) eqn:El.
      * destruct cache as [|e0 cache']; simpl in *; lia.
      * apply Nat.ltb_ge in El. lia.
    + intros _ Hl. by rewrite (proj2 (Nat.ltb_lt _ _) Hl).
Qed.

End CacheProperties.

(** * The further properties at concrete inputs *)

Section FurtherWitnesses.
Local Open Scope Q_scope.

Lemma wf_two_slot_store : wf_memory two_slot_store.
Proof. split; vm_compute; (reflexivity || lia). Defined.

(** Reading three entries from the two occupied slots returns two. *)
Lemma read_count_and_frame_witness :
  exists retrieved similarities s',
    read [3; 4; 0; 0] 3 two_slot_store = (Ok (retrieved, similarities), s')
    /\ length retrieved = 2%nat /\ keys s' = keys two_slot_store.
Proof.
  destruct (read_count_and_frame [3; 4; 0; 0] 3 two_slot_store)
    as (r & si & s' & Hr & Hl & _ & _ & Hk & _);
    [exact wf_two_slot_store | simpl; lia | reflexivity | lia |].
  exists r, si, s'. split; [exact Hr|]. split; [exact Hl | exact Hk].
Defined.

(** Reading one entry bumps one slot only. *)
Lemma read_bumps_returned_slots_witness :
  exists top_k_indices,
    NoDup top_k_indices
    /\ (read [3; 4; 0; 0] 1 two_slot_store).1
       = Ok (gather (values two_slot_store) top_k_indices,
             gather (read_similarities [3; 4; 0; 0] two_slot_store) top_k_indices)
    /\ forall i,
         usage (read [3; 4; 0; 0] 1 two_slot_store).2 !! i =
         (fun u => if bool_decide (i ∈ top_k_indices) then fadd u (flit (1 # 10)) else u)
           <$> usage two_slot_store !! i.
Proof.
  apply (read_bumps_returned_slots [3; 4; 0; 0] 1 two_slot_store);
    [exact wf_two_slot_store | simpl; lia | reflexivity].
Defined.

(** The slot holding (6, 8, 0, 0) is returned before the one holding the
    query itself. *)
Lemma read_returns_most_similar_witness :
  exists (top_k_indices : list nat) (retrieved : list (list Q)) (similarities : list Q),
    (read [3; 4; 0; 0] 2 two_slot_store).1 = Ok (retrieved, similarities)
    /\ length retrieved = length top_k_indices
    /\ (forall a b fa fb, (a < b)%nat ->
          similarities !! a = Some fa -> similarities !! b = Some fb ->
          fltb fa fb = false).
Proof.
  destruct (read_returns_most_similar [3; 4; 0; 0] 2 two_slot_store)
    as (top & r & si & Hr & Hl & _ & _ & Hord & _);
    [exact wf_two_slot_store | simpl; lia | reflexivity |].
  exists top, r, si. split; [exact Hr|]. split; [exact Hl | exact Hord].
Defined.

(** An empty store and a query of the wrong length: two zero rows. *)
Lemma read_edge_cases_witness :
  read [1; 2] 2 (ExternalMemory_init 2 4) =
    (Ok (replicate 2 (replicate 4 fzero), replicate 2 fzero), ExternalMemory_init 2 4)
  /\ read [1; 2] 2 two_slot_store = (Raise, two_slot_store).
Proof.
  split.
  - apply (proj1 (read_edge_cases [1; 2] 2 (ExternalMemory_init 2 4))); [reflexivity | lia].
  - apply (proj2 (proj2 (read_edge_cases [1; 2] 2 two_slot_store))); simpl; lia.
Defined.

Lemma write_appends_witness :
  exists s',
    write [3; 4; 0; 0] [2; 2; 2; 2] (ExternalMemory_init 2 4) = (Ok 0%nat, s')
    /\ current_size s' = 1%nat /\ usage s' !! 0%nat = Some 1.
Proof.
  destruct (write_appends [3; 4; 0; 0] [2; 2; 2; 2] (ExternalMemory_init 2 4))
    as (s' & Hw & Hc & _ & _ & Hu & _);
    [apply wf_init | simpl; lia | reflexivity | reflexivity |].
  exists s'. split; [exact Hw|]. split; [exact Hc | exact Hu].
Defined.

Lemma write_value_failure_witness :
  write [3; 4; 0; 0] [2; 2] (ExternalMemory_init 2 4) =
    (Raise, set_keys (<[0%nat := [3; 4; 0; 0]]> (keys (ExternalMemory_init 2 4)))
              (set_current_size 1 (ExternalMemory_init 2 4))).
Proof.
  apply (write_value_failure [3; 4; 0; 0] [2; 2] (ExternalMemory_init 2 4));
    simpl; lia.
Defined.

Lemma update_stores_then_decays_witness :
  let p' := update_memory_with_interaction small_settings "hello" "hi" [1; 2; 3; 4] fresh in
  current_size (external_memory p') = 1%nat
  /\ keys (external_memory p') !! 0%nat = Some [1; 2; 3; 4]
  /\ values (external_memory p') !! 0%nat = Some [1; 2; 3; 4]
  /\ usage (external_memory p') !! 0%nat = Some (fmul fone (flit (95 # 100)))
  /\ node_memory_states p' = node_memory_states fresh.
Proof.
  apply (update_stores_then_decays small_settings fresh "hello" "hi" [1; 2; 3; 4]);
    [apply wf_init | simpl; lia | reflexivity | reflexivity].
Defined.

Lemma update_mismatch_at_capacity_witness :
  update_memory_with_interaction small_settings "hello" "hi" [1; 2] full_processor
  = full_processor.
Proof.
  apply (update_mismatch_at_capacity small_settings full_processor "hello" "hi" [1; 2]);
    simpl; lia.
Defined.

(** Of the two records with the identity "a", the index keeps the last. *)
Lemma index_of_identities_witness :
  build_index [node_a; node_b; node_a_again] !! "a"%string = Some 2%nat
  /\ build_index [node_a; node_b; node_a_again] !! "elsewhere"%string = None.
Proof.
  split.
  - apply (proj2 (index_of_identities [node_a; node_b; node_a_again] "a") 2%nat node_a_again);
      [reflexivity | reflexivity |].
    intros [|[|[|j]]] node' Hj _; simpl; try lia. discriminate.
  - apply (proj1 (index_of_identities [node_a; node_b; node_a_again] "elsewhere")).
    intros node Hn.
    repeat (apply elem_of_cons in Hn as [-> | Hn]; [discriminate|]).
    by apply elem_of_nil in Hn.
Defined.

(** The edge to an identity that is no candidate is dropped; the other one
    appears in both directions. *)
Lemma graph_edges_witness :
  exists data,
    create_graph_data [node_a; node_b] [edge_ab; edge_a_out] = Ok data
    /\ edge_index data = [(0, 1); (1, 0)]%nat
    /\ length (edge_attr data) = length (edge_index data).
Proof.
  exists {| x := [[1; 0; 0; 1 # 2]; [0; 1; 1 # 4; 0]];
            edge_index := [(0, 1); (1, 0)]%nat;
            edge_attr := [1 # 2; 1 # 2] |}.
  assert (create_graph_data [node_a; node_b] [edge_ab; edge_a_out]
          = Ok {| x := [[1; 0; 0; 1 # 2]; [0; 1; 1 # 4; 0]];
                  edge_index := [(0, 1); (1, 0)]%nat;
                  edge_attr := [1 # 2; 1 # 2] |}) as Hc by (vm_compute; reflexivity).
  destruct (graph_edges [node_a; node_b] [edge_ab; edge_a_out] _ ltac:(discriminate) Hc)
    as (_ & _ & _ & Hl & _).
  split; [exact Hc|]. split; [reflexivity | exact Hl].
Defined.

Lemma graph_features_witness :
  (exists data, create_graph_data [node_a; node_b] [] = Ok data
                /\ has_width 4 (x data) = true)
  /\ create_graph_data [node_a; node_bad] [] = Raise.
Proof.
  split.
  - destruct (proj1 (graph_features [node_a; node_b] []) 2%nat) as (data & Hd & _ & Hw).
    + repeat constructor.
    + exists data. split; [exact Hd | exact Hw].
  - apply (proj2 (graph_features [node_a; node_bad] []) node_a node_bad).
    + apply list_elem_of_here.
    + apply list_elem_of_further, list_elem_of_here.
    + simpl. lia.
Defined.

Lemma update_states_round_trip_witness :
  node_memory_states (_update_memory_states ["a"; "b"]%string [[1; 1]; [2; 2]] fresh) !! "b"%string
  = Some [2; 2].
Proof.
  destruct (update_states_round_trip ["a"; "b"]%string [[1; 1]; [2; 2]] fresh "b")
    as (_ & Hl & _); [simpl; lia|].
  rewrite (Hl 1%nat); [reflexivity | reflexivity |].
  intros [|[|j]] Hj; simpl in *; try lia; discriminate.
Defined.

Lemma get_states_all_present_witness :
  let p := _update_memory_states ["a"]%string [[1; 1; 1; 1]] fresh in
  (_get_memory_states small_settings ones ["a"; "a"]%string p).2 = p.
Proof.
  intros p.
  apply (get_states_all_present small_settings ones ["a"; "a"]%string p).
  repeat constructor; by eexists.
Defined.

(** The output of the forward pass on [two_node_data]. *)
Lemma forward_shapes_witness :
  exists out,
    forward constant_weights (model fresh) two_node_data None = Ok out
    /\ has_shape 2 4 (node_embeddings out) = true
    /\ length (activation_scores out) = 2%nat.
Proof.
  destruct (forward constant_weights (model fresh) two_node_data None) as [out|] eqn:E.
  - exists out. split; [reflexivity|].
    destruct (forward_shapes constant_weights (model fresh) two_node_data None out E)
      as (_ & _ & Hs & _ & Ha & _).
    split; [exact Hs | exact Ha].
  - vm_compute in E. discriminate.
Defined.

Lemma activate_persists_states_witness :
  exists v,
    node_memory_states
      (activate_memories_try small_settings constant_weights ones
         [node_a; node_b] [] [1; 0; 0; 0] 5 fresh).2 !! "a"%string = Some v
    /\ length v = 4%nat.
Proof.
  destruct (activate_memories_try small_settings constant_weights ones
              [node_a; node_b] [] [1; 0; 0; 0] 5 fresh) as [[r|] p'] eqn:E.
  - apply (activate_persists_states small_settings constant_weights ones
             [node_a; node_b] [] [1; 0; 0; 0] 5 fresh p' r E node_a).
    apply list_elem_of_here.
  - vm_compute in E. discriminate.
Defined.

(** Of three candidates with three different scores, top_k = 2 keeps two. *)
Lemma activate_selects_top_witness :
  exists (r : list (Activated Q)) (p' : GNNProcessor Q)
         (data : Data Q) (out : Output Q) (top_indices : list nat),
    activate_memories_try small_settings passing_weights ones
      [node_far; node_near; node_off] [] [1; 0; 0; 0] 2 fresh = (Ok r, p')
    /\ create_graph_data [node_far; node_near; node_off] [] = Ok data
    /\ forward passing_weights (model fresh) data
         (_get_memory_states small_settings ones
            (map id [node_far; node_near; node_off]) fresh).1 = Ok out
    /\ length (node_embeddings out) = 3%nat
    /\ NoDup top_indices
    /\ length top_indices = length r
    /\ (forall a idx e, top_indices !! a = Some idx -> r !! a = Some e ->
          [node_far; node_near; node_off] !! idx = Some (memory e)
          /\ blended_score passing_weights [1; 0; 0; 0] <$> node_embeddings out !! idx
             = Some (activation_score e))
    /\ (forall i j ri rj,
          i ∈ top_indices -> j ∉ top_indices ->
          node_embeddings out !! i = Some ri -> node_embeddings out !! j = Some rj ->
          fltb (blended_score passing_weights [1; 0; 0; 0] ri)
               (blended_score passing_weights [1; 0; 0; 0] rj) = false).
Proof.
  destruct (activate_memories_try small_settings passing_weights ones
              [node_far; node_near; node_off] [] [1; 0; 0; 0] 2 fresh) as [[r|] p'] eqn:E.
  - destruct (activate_selects_top small_settings passing_weights ones
                [node_far; node_near; node_off] [] [1; 0; 0; 0] 2 fresh p' r
                ltac:(discriminate) E)
      as (data & out & top & Hrest).
    exists r, p', data, out, top. split; [reflexivity | exact Hrest].
  - vm_compute in E. discriminate.
Defined.

(** With top_k = -1 and the same three candidates, the lowest-ranked one is
    dropped and two entries are returned. *)
Lemma activate_negative_top_k_witness :
  exists (r : list (Activated Q)) (p' : GNNProcessor Q)
         (data : Data Q) (out : Output Q) (ranking : list nat),
    activate_memories_try small_settings passing_weights ones
      [node_far; node_near; node_off] [] [1; 0; 0; 0] (-1) fresh = (Ok r, p')
    /\ create_graph_data [node_far; node_near; node_off] [] = Ok data
    /\ forward passing_weights (model fresh) data
         (_get_memory_states small_settings ones
            (map id [node_far; node_near; node_off]) fresh).1 = Ok out
    /\ length (node_embeddings out) = 3%nat
    /\ ranking ≡ₚ seq 0 3
    /\ (forall a b ia ib ra rb,
          (a < b)%nat -> ranking !! a = Some ia -> ranking !! b = Some ib ->
          node_embeddings out !! ia = Some ra -> node_embeddings out !! ib = Some rb ->
          fltb (blended_score passing_weights [1; 0; 0; 0] ra)
               (blended_score passing_weights [1; 0; 0; 0] rb) = false)
    /\ length r = (3 - Z.to_nat (- (-1)))%nat
    /\ (forall a e, r !! a = Some e ->
          exists idx,
            ranking !! a = Some idx
            /\ [node_far; node_near; node_off] !! idx = Some (memory e)
            /\ blended_score passing_weights [1; 0; 0; 0] <$> node_embeddings out !! idx
               = Some (activation_score e)).
Proof.
  destruct (activate_memories_try small_settings passing_weights ones
              [node_far; node_near; node_off] [] [1; 0; 0; 0] (-1) fresh) as [[r|] p'] eqn:E.
  - destruct (activate_negative_top_k small_settings passing_weights ones
                [node_far; node_near; node_off] [] [1; 0; 0; 0] (-1) fresh p' r
                ltac:(discriminate) ltac:(lia) E)
      as (data & out & ranking & Hrest).
    exists r, p', data, out, ranking. split; [reflexivity | exact Hrest].
  - vm_compute in E. discriminate.
Defined.

(** The default settings: after an update, a query of 384 components gets
    nothing. *)
Lemma activate_embedding_query_empty_witness :
  (activate_memories settings constant_weights ones [node_a] [] (replicate 384 1) 5
     (after_processor_calls settings constant_weights ones default_processor
        [CallUpdate "hello" "hi" (replicate 384 1)])).1 = [].
Proof.
  apply (activate_embedding_query_empty settings constant_weights ones default_processor).
  - reflexivity.
  - simpl. lia.
  - apply length_replicate.
Defined.

Lemma statistics_within_capacity_witness :
  let p := after_processor_calls small_settings constant_weights ones fresh
             [CallUpdate "hello" "hi" [1; 2; 3; 4];
              CallActivate [node_a] [] [1; 0; 0; 0] 5] in
  Nat.le (external_memory_usage (get_memory_statistics p))
         (external_memory_capacity (get_memory_statistics p))
  /\ external_memory_capacity (get_memory_statistics p) = MAX_MEMORY_NODES small_settings.
Proof.
  apply (statistics_within_capacity small_settings constant_weights ones fresh).
  reflexivity.
Defined.

Lemma get_embedding_correct_witness :
  (get_embedding text_length "hello" [("hi"%string, 2%nat)]).1 = text_length "hello"
  /\ cache_ok text_length (get_embedding text_length "hello" [("hi"%string, 2%nat)]).2
  /\ cache_get "hello" (get_embedding text_length "hello" [("hi"%string, 2%nat)]).2
     = Some (text_length "hello").
Proof.
  apply (get_embedding_correct text_length "hello" [("hi"%string, 2%nat)]).
  split.
  - apply NoDup_singleton.
  - repeat constructor.
Defined.

Lemma get_embedding_bounded_witness :
  Nat.le (length (get_embedding text_length "hello" [("hi"%string, 2%nat)]).2) 1001.
Proof.
  apply (get_embedding_bounded text_length "hello" [("hi"%string, 2%nat)]).
  simpl. lia.
Defined.

End FurtherWitnesses.

Section RealWitnesses.
Local Open Scope R_scope.

Lemma forward_head_ranges_witness :
  exists out,
    forward real_constant_weights {| input_dim := 2; hidden_dim := 4; num_layers := 3 |}
      real_one_node_data None = Ok out
    /\ Forall (fun a => 0 <= a <= 1) (activation_scores out).
Proof.
  eexists. split; [reflexivity|].
  eapply (forward_head_ranges real_constant_weights
            {| input_dim := 2; hidden_dim := 4; num_layers := 3 |}
            real_one_node_data None). reflexivity.
Defined.

End RealWitnesses.

Section ActivationNotTransactional.
Context {F : Type} `{Scalar F}.
Variable cfg : Settings.
Variable W : Weights F.
Variable gauss : nat -> nat -> F.

(** A failing call is not undone.  When the graph is built and the forward
    pass returns, but the query has not the hidden dimension, the call
    returns the empty list and yet every candidate identity has been given
    its new state. *)
Theorem activate_failure_keeps_new_states (memory_nodes : list (MemoryNode F))
    (memory_edges : list (MemoryEdge F)) (query_embedding : list F) (top_k : Z)
    (p : GNNProcessor F) (data : Data F) (out : Output F) :
  memory_nodes <> [] ->
  create_graph_data memory_nodes memory_edges = Ok data ->
  forward W (model p) data (_get_memory_states cfg gauss (map id memory_nodes) p).1 = Ok out ->
  length query_embedding <> hidden_dim (model p) ->
  (activate_memories cfg W gauss memory_nodes memory_edges query_embedding top_k p).1 = []
  /\ forall i node, memory_nodes !! i = Some node ->
       (forall j node', memory_nodes !! j = Some node' -> id node' = id node -> j <= i) ->
       node_memory_states
         (activate_memories cfg W gauss memory_nodes memory_edges query_embedding top_k p).2
         !! id node = memory_states out !! i.
Proof.
  intros Hne Hg Hf Hq.
  pose proof (create_graph_data_inv _ _ _ Hg) as Hx.
  pose proof (forward_inv W _ _ _ _ Hf) as (_ & Hlen & Hw & _).
  pose proof (forward_states_shape W _ _ _ _ Hf) as [Hsl _].
  rewrite Hx, length_map in Hlen, Hsl.
  unfold activate_memories, activate_memories_try.
  destruct memory_nodes as [|n0 ns]; [done|]. set (nodes := n0 :: ns) in *.
  unfold bindM, lift, get_, modify_, ret, on_external_memory. rewrite Hg.
  destruct (get_memory_states_effects cfg gauss (map id nodes) p) as (_ & Hmod & _ & _).
  destruct (_get_memory_states cfg gauss (map id nodes) p) as [states p1].
  cbn [fst snd] in *. rewrite Hmod, Hf.
  rewrite similarities_of_raise.
  2:{ destruct (node_embeddings out) as [|r0 rs]; [done|]. simpl.
      apply has_width_Forall in Hw. inversion Hw as [|? ? Hr0 ?]; subst. congruence. }
  cbn [fst snd]. split; [done|].
  intros i node Hi Hlast.
  destruct (lookup_lt_is_Some_2 (memory_states out) i) as [v Hv].
  { apply lookup_lt_Some in Hi. lia. }
  rewrite Hv.
  destruct (enumerate_fill (fun node_id : string => node_id)
              (fun i (_ : string) => memory_states out !! i)
              (fun m '(i, node_id) =>
                 match memory_states out !! i with
                 | Some row => <[node_id := row]> m
                 | None => m
                 end)
              (map id nodes) (node_memory_states p1) (id node)) as [_ Hfill]; [done|].
  unfold _update_memory_states. cbn [node_memory_states set_node_memory_states].
  eapply Hfill; [|done|exact Hv|].
  - change (map id nodes) with (id <$> nodes). by rewrite list_lookup_fmap, Hi.
  - intros j b Hj ->. change (map id nodes) with (id <$> nodes) in Hj.
    rewrite list_lookup_fmap in Hj. destruct (nodes !! j) as [node'|] eqn:Ej; [|done].
    simpl in Hj. injection Hj as Hj. by eapply Hlast.
Qed.

End ActivationNotTransactional.

Section NotTransactionalWitness.
Local Open Scope Q_scope.

(** A query of two components on the small configuration: nothing is
    returned, and "a" has the state the forward pass computed, half of the
    vector drawn for it. *)
Lemma activate_failure_keeps_new_states_witness :
  (activate_memories small_settings constant_weights ones [node_a; node_b] [] [1; 0] 5 fresh).1
    = []
  /\ node_memory_states
       (activate_memories small_settings constant_weights ones [node_a; node_b] []
          [1; 0] 5 fresh).2 !! "a"%string
     = Some [1 # 2; 1 # 2; 1 # 2; 1 # 2].
Proof.
  destruct (forward constant_weights (model fresh) two_node_data
              (_get_memory_states small_settings ones (map id [node_a; node_b]) fresh).1)
    as [out|] eqn:Ef; [|vm_compute in Ef; discriminate].
  destruct (activate_failure_keeps_new_states small_settings constant_weights ones
              [node_a; node_b] [] [1; 0] 5 fresh two_node_data out)
    as [He Hs]; [discriminate | reflexivity | exact Ef | simpl; lia |].
  split; [exact He|].
  assert (Hlast : forall (j : nat) node', [node_a; node_b] !! j = Some node' ->
            id node' = id node_a -> (j <= 0)%nat).
  { intros [|[|j]] node' Hj Hid; simpl in *; try lia.
    - injection Hj as <-. discriminate.
    - discriminate. }
  pose proof (Hs 0%nat node_a eq_refl Hlast) as Ha.
  change (id node_a) with "a"%string in Ha. rewrite Ha.
  vm_compute in Ef. injection Ef as <-. reflexivity.
Defined.

End NotTransactionalWitness.
